(** * BusTub storage core: buffer pool, LRU-K replacer, extendible hash
      table and copy-on-write trie.

    A shallow embedding of the C++ sources.  Integers of a fixed width are
    values of [Z] and every place where the source can wrap is written out.
    Code that throws, asserts or has undefined behaviour returns in the
    [result] type. *)

From stdpp Require Import gmap list strings.
From Stdlib Require Import ZArith Lia Ascii Sorted.

Local Open Scope Z_scope.

(** ** Outcomes of fallible code *)

Inductive error : Type :=
  | OutOfRange          (* std::out_of_range, e.g. unordered_map::at *)
  | ExecutionException  (* bustub::ExecutionException *)
  | AssertionFailure    (* BUSTUB_ASSERT that does not hold *)
  | NullPointer         (* use of an empty guard or a null Page pointer *)
  | Undefined           (* undefined behaviour: out-of-bounds array access,
                           front()/back() of an empty deque, oversized shift,
                           a page read through the wrong page class *)
  | Unspecified         (* the outcome is not fixed by the sources or the
                           spec: a disk read of a page never written *)
  | OutOfFuel.          (* the model's iteration bound was reached *)

Inductive result (A : Type) : Type :=
  | Ok (a : A)
  | Err (e : error).
Arguments Ok {A} a.
Arguments Err {A} e.

Definition rbind {A B} (r : result A) (f : A -> result B) : result B :=
  match r with
  | Ok a => f a
  | Err e => Err e
  end.

Definition uint32_max : Z := 2 ^ 32.
Definition size_t_max : Z := 2 ^ 64.
Definition wrap32 (x : Z) : Z := x mod uint32_max.
Definition wrap64 (x : Z) : Z := x mod size_t_max.
(** [int] and [page_id_t]: two's complement on 32 bits. *)
Definition wrap_int (x : Z) : Z := (x + 2 ^ 31) mod 2 ^ 32 - 2 ^ 31.

Definition INVALID_PAGE_ID : Z := -1.

(** ** LRU-K replacer (src/buffer/lru_k_replacer.cpp) *)

Module Replacer.

(** [history_] is the deque of timestamps, front first. *)
Record LRUKNode : Type := mkNode {
  history_ : list Z;
  k_ : Z;
  fid_ : Z;
  is_evictable_ : bool
}.

(** The constructor [LRUKNode(fid, k)]; the flag starts out false. *)
Definition new_node (fid k : Z) : LRUKNode :=
  {| history_ := []; k_ := k; fid_ := fid; is_evictable_ := false |}.

Definition hsize (n : LRUKNode) : Z := Z.of_nat (length (history_ n)).

(** [history_.front()] and [history_.back()]; the deque is never empty for a
    node that [RecordAccess] created with [k_ >= 1]. *)
Definition front (n : LRUKNode) : Z := hd 0 (history_ n).
Definition back (n : LRUKNode) : Z := List.last (history_ n) 0.

(** [LRUKNode::Access] *)
Definition Access (timestamp : Z) (n : LRUKNode) : LRUKNode :=
  let h := history_ n ++ [timestamp] in
  let h' := if k_ n <? Z.of_nat (length h) then tl h else h in
  {| history_ := h'; k_ := k_ n; fid_ := fid_ n;
     is_evictable_ := is_evictable_ n |}.

(** [LRUKNode::SetEvictable]: the new node and whether the flag changed. *)
Definition node_SetEvictable (evictable : bool) (n : LRUKNode)
  : bool * LRUKNode :=
  (negb (Bool.eqb evictable (is_evictable_ n)),
   {| history_ := history_ n; k_ := k_ n; fid_ := fid_ n;
      is_evictable_ := evictable |}).

(** [LRUKNode::operator<]; both sizes are compared with [this->k_]. *)
Definition node_lt (a b : LRUKNode) : bool :=
  if hsize a <? k_ a then
    if hsize b <? k_ a then back a <? back b else true
  else
    if hsize b <? k_ a then false else front a <? front b.

Record LRUKReplacer : Type := mkReplacer {
  node_store_ : gmap Z LRUKNode;
  current_timestamp_ : Z;
  curr_size_ : Z;
  replacer_size_ : Z;
  rk_ : Z
}.

(** [LRUKReplacer::LRUKReplacer(num_frames, k)] *)
Definition init (num_frames k : Z) : LRUKReplacer :=
  {| node_store_ := ∅; current_timestamp_ := 0; curr_size_ := 0;
     replacer_size_ := num_frames; rk_ := k |}.

Definition with_store (r : LRUKReplacer) (s : gmap Z LRUKNode) (sz : Z)
  : LRUKReplacer :=
  {| node_store_ := s; current_timestamp_ := current_timestamp_ r;
     curr_size_ := sz; replacer_size_ := replacer_size_ r; rk_ := rk_ r |}.

(** One round of the loop of [Evict] over the node store. *)
Definition scan_step (victim : option LRUKNode) (p : Z * LRUKNode)
  : option LRUKNode :=
  if negb (is_evictable_ p.2) then victim
  else match victim with
       | None => Some p.2
       | Some v => if node_lt p.2 v then Some p.2 else victim
       end.

Definition scan (l : list (Z * LRUKNode)) (victim : option LRUKNode)
  : option LRUKNode :=
  foldl scan_step victim l.

(** [LRUKReplacer::Evict]: the returned flag, the value stored through
    [frame_id], and the new replacer. *)
Definition Evict (r : LRUKReplacer) : bool * Z * LRUKReplacer :=
  match scan (map_to_list (node_store_ r)) None with
  | None => (false, INVALID_PAGE_ID, r)
  | Some victim =>
      (true, fid_ victim,
       with_store r (delete (fid_ victim) (node_store_ r))
                  (wrap64 (curr_size_ r - 1)))
  end.

(** [LRUKReplacer::RecordAccess] *)
Definition RecordAccess (frame_id : Z) (r : LRUKReplacer) : LRUKReplacer :=
  let node := match node_store_ r !! frame_id with
              | Some n => n
              | None => new_node frame_id (rk_ r)
              end in
  {| node_store_ := <[frame_id := Access (current_timestamp_ r) node]>
                      (node_store_ r);
     current_timestamp_ := wrap64 (current_timestamp_ r + 1);
     curr_size_ := curr_size_ r;
     replacer_size_ := replacer_size_ r; rk_ := rk_ r |}.

(** [LRUKReplacer::SetEvictable]; [at] throws for an unknown frame. *)
Definition SetEvictable (frame_id : Z) (set_evictable : bool)
    (r : LRUKReplacer) : result LRUKReplacer :=
  match node_store_ r !! frame_id with
  | None => Err OutOfRange
  | Some node =>
      let '(changed, node') := node_SetEvictable set_evictable node in
      let sz := if changed
                then wrap64 (curr_size_ r + (if set_evictable then 1 else -1))
                else curr_size_ r in
      Ok (with_store r (<[frame_id := node']> (node_store_ r)) sz)
  end.

(** [LRUKReplacer::Remove] *)
Definition Remove (frame_id : Z) (r : LRUKReplacer) : result LRUKReplacer :=
  match node_store_ r !! frame_id with
  | None => Ok r
  | Some node =>
      if negb (is_evictable_ node) then Err ExecutionException
      else Ok (with_store r (delete frame_id (node_store_ r))
                          (wrap64 (curr_size_ r - 1)))
  end.

(** [LRUKReplacer::Size] *)
Definition Size (r : LRUKReplacer) : Z := curr_size_ r.

(** *** Backward K-distance *)

(** [None] stands for +infinity: fewer than K recorded accesses. *)
Definition kdist (now : Z) (n : LRUKNode) : option Z :=
  if hsize n <? k_ n then None else Some (now - front n).

(** [kdist_le d1 d2]: d1 <= d2 with +infinity on top. *)
Definition kdist_le (d1 d2 : option Z) : Prop :=
  match d1, d2 with
  | _, None => True
  | None, Some _ => False
  | Some a, Some b => a <= b
  end.

(** Every node is stored under its own frame id, carries the replacer's K
    and has been accessed at least once: what [RecordAccess] establishes. *)
Definition store_wf (r : LRUKReplacer) : Prop :=
  ∀ i n, node_store_ r !! i = Some n →
         fid_ n = i ∧ k_ n = rk_ r ∧ history_ n ≠ [].

Definition has_evictable (r : LRUKReplacer) : Prop :=
  ∃ i n, node_store_ r !! i = Some n ∧ is_evictable_ n = true.

(** *** Invariants of the replacer *)

(** The number of nodes whose evictable flag is set. *)
Definition evictable_count (r : LRUKReplacer) : nat :=
  size (filter (fun p : Z * LRUKNode => is_evictable_ p.2 = true)
               (node_store_ r)).

(** [curr_size_] is that number, as a [size_t]. *)
Definition size_counts_evictable (r : LRUKReplacer) : Prop :=
  curr_size_ r = wrap64 (Z.of_nat (evictable_count r)).

(** No node keeps more than K timestamps. *)
Definition history_bounded (r : LRUKReplacer) : Prop :=
  ∀ i n, node_store_ r !! i = Some n → hsize n <= k_ n.

(** Inside a node the timestamps increase from front to back, and all of
    them lie below the replacer's clock. *)
Definition timestamps_increasing (r : LRUKReplacer) : Prop :=
  ∀ i n, node_store_ r !! i = Some n →
         StronglySorted Z.lt (history_ n) ∧
         Forall (fun t => t < current_timestamp_ r) (history_ n).

End Replacer.

(** ** Buffer pool manager (src/buffer/buffer_pool_manager.cpp) *)

Module BufferPool.

Section WithData.

(** The content of a page buffer ([char data_[BUSTUB_PAGE_SIZE]]) is kept
    abstract: the pool only copies and resets it.  [zero_data] is the buffer
    after [Page::ResetMemory]. *)
Context {Data : Type}.
Variable zero_data : Data.

Record Page : Type := mkPage {
  data_ : Data;
  page_id_ : Z;
  pin_count_ : Z;
  is_dirty_ : bool
}.

(** A request handed to the disk scheduler.  For a write, [req_data_] is the
    snapshot [wbuf]; for a read it is what the disk delivered. *)
Record DiskRequest : Type := mkRequest {
  is_write_ : bool;
  req_page_id_ : Z;
  req_data_ : Data
}.

Record BufferPoolManager : Type := mkBPM {
  pool_size_ : Z;
  pages_ : list Page;
  replacer_ : Replacer.LRUKReplacer;
  free_list_ : list Z;
  page_table_ : gmap Z Z;
  next_page_id_ : Z;
  disk_ : gmap Z Data;            (* the pages written to the disk manager *)
  disk_log_ : list DiskRequest    (* requests in the order they were issued *)
}.

Definition set_pages (ps : list Page) (s : BufferPoolManager) :=
  mkBPM (pool_size_ s) ps (replacer_ s) (free_list_ s) (page_table_ s)
        (next_page_id_ s) (disk_ s) (disk_log_ s).
Definition set_replacer (r : Replacer.LRUKReplacer) (s : BufferPoolManager) :=
  mkBPM (pool_size_ s) (pages_ s) r (free_list_ s) (page_table_ s)
        (next_page_id_ s) (disk_ s) (disk_log_ s).
Definition set_free_list (fl : list Z) (s : BufferPoolManager) :=
  mkBPM (pool_size_ s) (pages_ s) (replacer_ s) fl (page_table_ s)
        (next_page_id_ s) (disk_ s) (disk_log_ s).
Definition set_page_table (pt : gmap Z Z) (s : BufferPoolManager) :=
  mkBPM (pool_size_ s) (pages_ s) (replacer_ s) (free_list_ s) pt
        (next_page_id_ s) (disk_ s) (disk_log_ s).
Definition set_next_page_id (n : Z) (s : BufferPoolManager) :=
  mkBPM (pool_size_ s) (pages_ s) (replacer_ s) (free_list_ s) (page_table_ s)
        n (disk_ s) (disk_log_ s).
Definition set_disk (d : gmap Z Data) (l : list DiskRequest)
    (s : BufferPoolManager) :=
  mkBPM (pool_size_ s) (pages_ s) (replacer_ s) (free_list_ s) (page_table_ s)
        (next_page_id_ s) d l.

(** State and error monad over the pool. *)
Definition M (A : Type) : Type := BufferPoolManager -> result (A * BufferPoolManager).

Definition ret {A} (a : A) : M A := fun s => Ok (a, s).
Definition bind {A B} (m : M A) (f : A -> M B) : M B :=
  fun s => match m s with
           | Ok (a, s') => f a s'
           | Err e => Err e
           end.
Definition throw {A} (e : error) : M A := fun _ => Err e.
Definition get : M BufferPoolManager := fun s => Ok (s, s).
Definition modify (f : BufferPoolManager -> BufferPoolManager) : M unit :=
  fun s => Ok (tt, f s).
Definition lift {A} (r : result A) : M A :=
  fun s => match r with Ok a => Ok (a, s) | Err e => Err e end.

Notation "x <- c1 ;; c2" := (bind c1 (fun x => c2))
  (at level 100, c1 at next level, right associativity).
Notation "c1 ;;; c2" := (bind c1 (fun _ => c2))
  (at level 100, right associativity).

(** [pages_[frame_id]]; an index outside the array is undefined behaviour. *)
Definition frame_at (frame_id : Z) : M Page :=
  fun s => if frame_id <? 0 then Err Undefined
           else match pages_ s !! Z.to_nat frame_id with
                | Some p => Ok (p, s)
                | None => Err Undefined
                end.

Definition set_frame (frame_id : Z) (p : Page) : M unit :=
  modify (fun s => set_pages (<[Z.to_nat frame_id := p]> (pages_ s)) s).

(** The caller's accesses to the buffer behind a [Page *]
    ([page->GetData()]). *)
Definition read_buffer (frame_id : Z) : M Data :=
  p <- frame_at frame_id ;; ret (data_ p).

Definition write_buffer (frame_id : Z) (d : Data) : M unit :=
  p <- frame_at frame_id ;;
  set_frame frame_id (mkPage d (page_id_ p) (pin_count_ p) (is_dirty_ p)).

(** The replacer calls made by the pool. *)
Definition replacer_RecordAccess (frame_id : Z) : M unit :=
  modify (fun s => set_replacer (Replacer.RecordAccess frame_id (replacer_ s)) s).
Definition replacer_SetEvictable (frame_id : Z) (b : bool) : M unit :=
  fun s => match Replacer.SetEvictable frame_id b (replacer_ s) with
           | Ok r => Ok (tt, set_replacer r s)
           | Err e => Err e
           end.
Definition replacer_Remove (frame_id : Z) : M unit :=
  fun s => match Replacer.Remove frame_id (replacer_ s) with
           | Ok r => Ok (tt, set_replacer r s)
           | Err e => Err e
           end.
Definition replacer_Evict : M (bool * Z) :=
  fun s => let '(ok, fid, r) := Replacer.Evict (replacer_ s) in
           Ok ((ok, fid), set_replacer r s).

(** Modelled from the spec: the disk scheduler and the disk manager have no
    source file here.  "The scheduler executes requests synchronously against
    the disk manager", which offers "synchronous fixed-size page read/write":
    [disk_scheduler_->Schedule] of a write request followed by the wait on
    its future stores the buffer under the page id. *)
Definition disk_write (page_id : Z) (d : Data) : M unit :=
  modify (fun s => set_disk (<[page_id := d]> (disk_ s))
                            (disk_log_ s ++ [mkRequest true page_id d]) s).

(** Modelled from the spec: a read request and the wait on its future
    deliver the buffer last written under the page id.  The pool hands the
    frame's own buffer to the request without resetting it, and the spec does
    not say what a read of a page that was never written leaves there: the
    model stops with [Unspecified]. *)
Definition disk_read (page_id : Z) : M Data :=
  fun s => match disk_ s !! page_id with
           | Some d =>
               Ok (d, set_disk (disk_ s)
                               (disk_log_ s ++ [mkRequest false page_id d]) s)
           | None => Err Unspecified
           end.

(** [BufferPoolManager::BufferPoolManager] *)
Definition fresh_page : Page := mkPage zero_data INVALID_PAGE_ID 0 false.

Definition init (pool_size replacer_k : Z) : BufferPoolManager :=
  {| pool_size_ := pool_size;
     pages_ := replicate (Z.to_nat pool_size) fresh_page;
     replacer_ := Replacer.init pool_size replacer_k;
     free_list_ := Z.of_nat <$> seq 0 (Z.to_nat pool_size);
     page_table_ := ∅;
     next_page_id_ := 0;
     disk_ := ∅;
     disk_log_ := [] |}.

(** [BufferPoolManager::AllocatePage]: [next_page_id_++] on a 32-bit
    atomic. *)
Definition AllocatePage : M Z :=
  fun s => Ok (next_page_id_ s,
               set_next_page_id (wrap_int (next_page_id_ s + 1)) s).

(** [DeallocatePage] does nothing in the pool. *)
Definition DeallocatePage (page_id : Z) : M unit := ret tt.

(** Step 1 of [NewPage] and step 2 of [FetchPage]: a frame from the free
    list, else a victim of the replacer.  [None] is the [return nullptr]. *)
Definition choose_frame : M (option (Z * bool)) :=
  s <- get ;;
  match free_list_ s with
  | f :: rest => modify (set_free_list rest) ;;; ret (Some (f, true))
  | [] =>
      r <- replacer_Evict ;;
      if r.1 then ret (Some (r.2, false)) else ret None
  end.

(** The write-back of a dirty frame ("写回frame"). *)
Definition write_back (frame : Page) : M unit :=
  if is_dirty_ frame then disk_write (page_id_ frame) (data_ frame)
  else ret tt.

(** [BufferPoolManager::NewPage]: [Some (page_id, frame_id)] stands for the
    returned [Page *] and the id stored through the argument. *)
Definition NewPage : M (option (Z * Z)) :=
  c <- choose_frame ;;
  match c with
  | None => ret None
  | Some (frame_id, is_free) =>
      frame <- frame_at frame_id ;;
      (if negb is_free
       then modify (fun s => set_page_table (delete (page_id_ frame) (page_table_ s)) s)
       else ret tt) ;;;
      write_back frame ;;;
      pid <- AllocatePage ;;
      set_frame frame_id (mkPage (data_ frame) pid 1 false) ;;;
      modify (fun s => set_page_table (<[pid := frame_id]> (page_table_ s)) s) ;;;
      replacer_RecordAccess frame_id ;;;
      replacer_SetEvictable frame_id false ;;;
      ret (Some (pid, frame_id))
  end.

(** [BufferPoolManager::FetchPage]: the frame index of the returned page. *)
Definition FetchPage (page_id : Z) : M (option Z) :=
  s <- get ;;
  match page_table_ s !! page_id with
  | Some frame_id =>
      page <- frame_at frame_id ;;
      set_frame frame_id
        (mkPage (data_ page) (page_id_ page) (wrap_int (pin_count_ page + 1))
                (is_dirty_ page)) ;;;
      replacer_RecordAccess frame_id ;;;
      replacer_SetEvictable frame_id false ;;;
      ret (Some frame_id)
  | None =>
      c <- choose_frame ;;
      match c with
      | None => ret None
      | Some (frame_id, is_free) =>
          frame <- frame_at frame_id ;;
          (if negb is_free
           then modify (fun s => set_page_table (delete (page_id_ frame) (page_table_ s)) s)
           else ret tt) ;;;
          write_back frame ;;;
          d <- disk_read page_id ;;
          set_frame frame_id (mkPage d page_id 1 false) ;;;
          modify (fun s => set_page_table (<[page_id := frame_id]> (page_table_ s)) s) ;;;
          replacer_RecordAccess frame_id ;;;
          replacer_SetEvictable frame_id false ;;;
          ret (Some frame_id)
      end
  end.

(** [BufferPoolManager::UnpinPage] *)
Definition UnpinPage (page_id : Z) (is_dirty : bool) : M bool :=
  s <- get ;;
  match page_table_ s !! page_id with
  | None => ret false
  | Some frame_id =>
      frame <- frame_at frame_id ;;
      if pin_count_ frame =? 0 then ret false
      else
        let pin := wrap_int (pin_count_ frame - 1) in
        set_frame frame_id
          (mkPage (data_ frame) (page_id_ frame) pin (is_dirty_ frame || is_dirty)) ;;;
        (if pin =? 0 then replacer_SetEvictable frame_id true else ret tt) ;;;
        ret true
  end.

(** [BufferPoolManager::FlushPage] *)
Definition FlushPage (page_id : Z) : M bool :=
  s <- get ;;
  match page_table_ s !! page_id with
  | None => ret false
  | Some frame_id =>
      frame <- frame_at frame_id ;;
      disk_write (page_id_ frame) (data_ frame) ;;;
      ret true
  end.

(** [BufferPoolManager::FlushAllPages] *)
Definition FlushAllPages : M unit :=
  s <- get ;;
  foldr (fun p k => FlushPage p.1 ;;; k) (ret tt) (map_to_list (page_table_ s)).

(** [BufferPoolManager::DeletePage] *)
Definition DeletePage (page_id : Z) : M bool :=
  s <- get ;;
  match page_table_ s !! page_id with
  | None => ret true
  | Some frame_id =>
      frame <- frame_at frame_id ;;
      if 0 <? pin_count_ frame then ret false
      else
        set_frame frame_id (mkPage zero_data INVALID_PAGE_ID 0 false) ;;;
        modify (fun s => set_free_list (free_list_ s ++ [frame_id]) s) ;;;
        replacer_Remove frame_id ;;;
        DeallocatePage page_id ;;;
        ret true
  end.

(** *** Page guards (src/storage/page/page_guard.cpp)

    A guard holds the [Page *] (a frame index, [None] for [nullptr]) and its
    dirty flag.  Page latches serialise threads and are left out: the model
    runs one operation at a time. *)
Record PageGuard : Type := mkGuard {
  page_ : option Z;
  guard_dirty_ : bool
}.

Definition empty_guard : PageGuard := mkGuard None false.

(** [BasicPageGuard::Drop], also run by the destructor. *)
Definition Drop (g : PageGuard) : M unit :=
  match page_ g with
  | None => ret tt
  | Some f =>
      p <- frame_at f ;;
      UnpinPage (page_id_ p) (guard_dirty_ g) ;;;
      ret tt
  end.

(** [FetchPageBasic], [FetchPageRead] and [FetchPageWrite] *)
Definition FetchPageGuarded (page_id : Z) : M PageGuard :=
  page <- FetchPage page_id ;;
  ret (mkGuard page false).

(** [NewPageGuarded]: the guard and the id stored through [page_id]. *)
Definition NewPageGuarded : M (PageGuard * option Z) :=
  r <- NewPage ;;
  match r with
  | None => ret (empty_guard, None)
  | Some (pid, f) => ret (mkGuard (Some f) false, Some pid)
  end.

(** [As<T>()]: the buffer behind the guard. *)
Definition guard_frame (g : PageGuard) : M Z :=
  match page_ g with
  | None => throw NullPointer
  | Some f => ret f
  end.

(** *** Relations between pool states *)

(** The page [page_id] sits in frame [f], whose buffer is [d]. *)
Definition resident (s : BufferPoolManager) (page_id f : Z) (d : Data) : Prop :=
  page_table_ s !! page_id = Some f ∧ 0 <= f ∧
  data_ <$> pages_ s !! Z.to_nat f = Some d ∧
  page_id_ <$> pages_ s !! Z.to_nat f = Some page_id.

(** [s'] holds the same pages as [s]: frame by frame the same buffer and
    page id, the same page table, free list, id counter and disk.  Pin
    counts, dirty flags and the replacer may differ. *)
Definition same_pages (s s' : BufferPoolManager) : Prop :=
  (fun p => (data_ p, page_id_ p)) <$> pages_ s' =
    (fun p => (data_ p, page_id_ p)) <$> pages_ s ∧
  page_table_ s' = page_table_ s ∧
  free_list_ s' = free_list_ s ∧
  next_page_id_ s' = next_page_id_ s ∧
  disk_ s' = disk_ s ∧
  disk_log_ s' = disk_log_ s.

(** [same_pages], and every frame known to the replacer stays known. *)
Definition quiet_step (s s' : BufferPoolManager) : Prop :=
  same_pages s s' ∧
  ∀ g, is_Some (Replacer.node_store_ (replacer_ s) !! g) →
       is_Some (Replacer.node_store_ (replacer_ s') !! g).

(** [s'] is [s] after steps that write no buffer but those of the frames
    [fs] and allocate nothing: outside [fs] every frame holds the same
    buffer; the page ids of the frames, the page table, the free list and
    the id counter are the same.  Pin counts, dirty flags and the replacer
    may differ, but every frame known to the replacer stays known. *)
Definition writes_within (fs : list Z) (s s' : BufferPoolManager) : Prop :=
  (∀ g, 0 <= g → g ∉ fs →
        data_ <$> pages_ s' !! Z.to_nat g = data_ <$> pages_ s !! Z.to_nat g) ∧
  page_id_ <$> pages_ s' = page_id_ <$> pages_ s ∧
  page_table_ s' = page_table_ s ∧
  free_list_ s' = free_list_ s ∧
  next_page_id_ s' = next_page_id_ s ∧
  ∀ g, is_Some (Replacer.node_store_ (replacer_ s) !! g) →
       is_Some (Replacer.node_store_ (replacer_ s') !! g).


End WithData.

Arguments Page : clear implicits.
Arguments DiskRequest : clear implicits.
Arguments BufferPoolManager : clear implicits.
Arguments M : clear implicits.

End BufferPool.

(** ** Copy-on-write trie (src/primer/trie.cpp) *)

Module Trie.

Section WithValue.

(** A stored value carries the C++ type it was put with ([Ty]) next to its
    payload; [Get<T>] answers only when the tag is [T], which is what the
    [dynamic_cast] to [TrieNodeWithValue<T>] decides. *)
Context {Ty Payload : Type} `{EqDecision Ty}.

(** [TrieNode] and [TrieNodeWithValue<T>]: the children map and, for a value
    node, the value.  [is_value_node_] is true exactly for the latter. *)
Inductive TrieNode : Type :=
  | Node (children : gmap ascii TrieNode) (value : option (Ty * Payload)).

Definition children_ (n : TrieNode) : gmap ascii TrieNode :=
  match n with Node c _ => c end.
Definition value_ (n : TrieNode) : option (Ty * Payload) :=
  match n with Node _ v => v end.
Definition is_value_node_ (n : TrieNode) : bool :=
  match value_ n with Some _ => true | None => false end.

(** A [Trie] is its [root_]; [None] is the null root. *)
Definition Trie : Type := option TrieNode.

(** The loop of [Get]: follow the children along the key. *)
Fixpoint walk (key : string) (node : TrieNode) : option TrieNode :=
  match key with
  | EmptyString => Some node
  | String k rest =>
      match children_ node !! k with
      | None => None
      | Some child => walk rest child
      end
  end.

(** [Trie::Get<T>] *)
Definition Get (T : Ty) (key : string) (t : Trie) : option Payload :=
  match t with
  | None => None
  | Some root =>
      match walk key root with
      | None => None
      | Some node =>
          match value_ node with
          | Some (T', v) => if decide (T' = T) then Some v else None
          | None => None
          end
      end
  end.

(** The loop of [Put] from some position of the key on: [node] is the fresh
    copy whose child for the next character is replaced.  The position is the
    last one exactly when the rest of the key is empty. *)
Fixpoint put_loop (key : string) (value_p : Ty * Payload) (node : TrieNode)
  : TrieNode :=
  match key with
  | EmptyString => node
  | String k rest =>
      let is_last := match rest with EmptyString => true | _ => false end in
      let new_node :=
        match children_ node !! k with
        | None =>
            if is_last then Node ∅ (Some value_p) else Node ∅ None
        | Some child =>
            if is_last then Node (children_ child) (Some value_p) else child
        end in
      Node (<[k := put_loop rest value_p new_node]> (children_ node))
           (value_ node)
  end.

(** [Trie::Put<T>] *)
Definition Put (T : Ty) (key : string) (v : Payload) (t : Trie) : Trie :=
  let value_p := (T, v) in
  let node :=
    match key with
    | EmptyString =>
        match t with
        | None => Node ∅ (Some value_p)
        | Some root => Node (children_ root) (Some value_p)
        end
    | _ =>
        match t with
        | None => Node ∅ None
        | Some root => root
        end
    end in
  Some (put_loop key value_p node).

(** [Trie::remove(cur, key, key_index)], with [k = key[key_index]] and
    [rest] the characters after it. *)
Fixpoint remove (cur : TrieNode) (k : ascii) (rest : string)
  : bool * option TrieNode :=
  match children_ cur !! k with
  | None => (false, None)
  | Some child =>
      let '(do_remove, new_child) :=
        match rest with
        | EmptyString =>
            let do_remove := is_value_node_ child in
            (do_remove,
             if do_remove && negb (size (children_ child) =? 0)%nat
             then Some (Node (children_ child) None)
             else None)
        | String k' rest' => remove child k' rest'
        end in
      if do_remove then
        match new_child with
        | None =>
            if (1 <? size (children_ cur))%nat || is_value_node_ cur
            then (true, Some (Node (delete k (children_ cur)) (value_ cur)))
            else (true, None)
        | Some c =>
            (true, Some (Node (<[k := c]> (children_ cur)) (value_ cur)))
        end
      else (false, None)
  end.

(** [Trie::Remove] *)
Definition Remove (key : string) (t : Trie) : Trie :=
  match t with
  | None => t
  | Some root =>
      match key with
      | EmptyString =>
          if is_value_node_ root then Some (Node (children_ root) None) else t
      | String k rest =>
          let '(do_delete, new_node) := remove root k rest in
          if do_delete then new_node else t
      end
  end.

(** *** Reading a trie *)

(** The value stored under a key, whatever its type. *)
Definition find (key : string) (t : Trie) : option (Ty * Payload) :=
  match t with
  | None => None
  | Some root =>
      match walk key root with
      | None => None
      | Some n => value_ n
      end
  end.

(** [Put] seen from the child slot it fills: the node that ends up under a
    character, given what was there before. *)
Fixpoint put_at (key : string) (value_p : Ty * Payload) (o : option TrieNode)
  : TrieNode :=
  match key with
  | EmptyString =>
      match o with
      | None => Node ∅ (Some value_p)
      | Some c => Node (children_ c) (Some value_p)
      end
  | String k rest =>
      let base := match o with None => Node ∅ None | Some c => c end in
      Node (<[k := put_at rest value_p (children_ base !! k)]> (children_ base))
           (value_ base)
  end.

(** *** Pruned tries *)

(** A node is alive when it holds a value or has a child. *)
Definition alive (n : TrieNode) : Prop :=
  is_value_node_ n = true ∨ children_ n ≠ ∅.

(** Every node strictly below [n] is alive. *)
Definition alive_below (n : TrieNode) : Prop :=
  ∀ key m, key ≠ EmptyString → walk key n = Some m → alive m.

(** No branch of the trie ends in a node that carries nothing; the root
    itself may be an empty node. *)
Definition pruned (t : Trie) : Prop :=
  match t with
  | None => True
  | Some root => alive_below root
  end.

End WithValue.

Arguments TrieNode : clear implicits.
Arguments Trie : clear implicits.

End Trie.

(** ** Extendible hash table: page classes

    src/storage/page/extendible_htable_bucket_page.cpp and
    src/storage/page/extendible_htable_directory_page.cpp *)

Module HashTable.

Import BufferPool.

Section WithKeyValue.

Context {K V : Type}.
(** The comparator and the hash function given to the constructor.  [cmp]
    returns a negative number, zero or a positive number. *)
Variable cmp : K -> K -> Z.
Variable hash_fn : K -> Z.
(** The lengths of the arrays inside the header and the directory page
    classes ([HTABLE_HEADER_ARRAY_SIZE], [HTABLE_DIRECTORY_ARRAY_SIZE]). *)
Variable HTABLE_HEADER_ARRAY_SIZE : Z.
Variable HTABLE_DIRECTORY_ARRAY_SIZE : Z.

(** [1 << n] on 32 bits; a shift by 32 or more is undefined. *)
Definition shl1 (n : Z) : result Z :=
  if (0 <=? n) && (n <? 32) then Ok (Z.shiftl 1 n) else Err Undefined.

(** [BUSTUB_ASSERT], taken as compiled in. *)
Definition assert (b : bool) : result unit :=
  if b then Ok tt else Err AssertionFailure.

(** [a[i]] and [a[i] = x] on a C array. *)
Definition arr_get (a : list Z) (i : Z) : result Z :=
  if i <? 0 then Err Undefined
  else match a !! Z.to_nat i with
       | Some x => Ok x
       | None => Err Undefined
       end.
Definition arr_set (a : list Z) (i x : Z) : result (list Z) :=
  if (0 <=? i) && (i <? Z.of_nat (length a))
  then Ok (<[Z.to_nat i := x]> a) else Err Undefined.

(** *** Bucket page *)

(** [array_] holds the first [size_] slots of the C array, so that [size_]
    is its length. *)
Record BucketPage : Type := mkBucket {
  max_size_ : Z;
  array_ : list (K * V)
}.

Definition bucket_Size (b : BucketPage) : Z := Z.of_nat (length (array_ b)).

(** [ExtendibleHTableBucketPage::Init] *)
Definition bucket_Init (max_size : Z) (b : BucketPage) : BucketPage :=
  mkBucket max_size (array_ b).

(** [ExtendibleHTableBucketPage::Lookup]: the value of the first match. *)
Fixpoint lookup_entries (key : K) (l : list (K * V)) : option V :=
  match l with
  | [] => None
  | (k, v) :: rest => if cmp key k =? 0 then Some v else lookup_entries key rest
  end.
Definition bucket_Lookup (key : K) (b : BucketPage) : option V :=
  lookup_entries key (array_ b).

(** [ExtendibleHTableBucketPage::IsFull] *)
Definition bucket_IsFull (b : BucketPage) : bool :=
  bucket_Size b =? max_size_ b.

(** [ExtendibleHTableBucketPage::Insert] *)
Definition bucket_Insert (key : K) (value : V) (b : BucketPage)
  : bool * BucketPage :=
  if bucket_Size b =? max_size_ b then (false, b)
  else match lookup_entries key (array_ b) with
       | Some _ => (false, b)
       | None => (true, mkBucket (max_size_ b) (array_ b ++ [(key, value)]))
       end.

(** The index at which the scan of [Remove] stops. *)
Fixpoint find_index (key : K) (l : list (K * V)) : nat :=
  match l with
  | [] => O
  | (k, _) :: rest => if cmp key k =? 0 then O else S (find_index key rest)
  end.

(** [size_--] followed by [array_[i] = array_[size_]] when [size_ > i]. *)
Definition remove_slot (i : nat) (l : list (K * V)) : list (K * V) :=
  match last l with
  | None => l
  | Some e =>
      let l' := removelast l in
      if (i <? length l')%nat then <[i := e]> l' else l'
  end.

(** [ExtendibleHTableBucketPage::Remove] *)
Definition bucket_Remove (key : K) (b : BucketPage) : bool * BucketPage :=
  let i := find_index key (array_ b) in
  if (i =? length (array_ b))%nat then (false, b)
  else (true, mkBucket (max_size_ b) (remove_slot i (array_ b))).

(** [ExtendibleHTableBucketPage::RemoveAt] *)
Definition bucket_RemoveAt (bucket_idx : Z) (b : BucketPage) : BucketPage :=
  if bucket_Size b <=? bucket_idx then b
  else mkBucket (max_size_ b) (remove_slot (Z.to_nat bucket_idx) (array_ b)).

(** [ExtendibleHTableBucketPage::EntryAt]; only used below [size_]. *)
Definition bucket_EntryAt (bucket_idx : Z) (b : BucketPage) : result (K * V) :=
  if bucket_idx <? 0 then Err Undefined
  else match array_ b !! Z.to_nat bucket_idx with
       | Some e => Ok e
       | None => Err Undefined
       end.

(** Modelled from the spec: [ExtendibleHTableBucketPage::MergeBucket] is
    called by [Remove] but defined outside the sources at hand.  "The current
    bucket can absorb the partner's entries without exceeding max_size":
    when they fit, the partner's entries are appended and the call
    succeeds. *)
Definition bucket_MergeBucket (other : BucketPage) (b : BucketPage)
  : bool * BucketPage :=
  if max_size_ b <? bucket_Size b + bucket_Size other then (false, b)
  else (true, mkBucket (max_size_ b) (array_ b ++ array_ other)).

(** *** Directory page *)

Record DirectoryPage : Type := mkDir {
  max_depth_ : Z;
  global_depth_ : Z;
  local_depths_ : list Z;       (* uint8_t [HTABLE_DIRECTORY_ARRAY_SIZE] *)
  bucket_page_ids_ : list Z     (* page_id_t [HTABLE_DIRECTORY_ARRAY_SIZE] *)
}.

(** [ExtendibleHTableDirectoryPage::Init] *)
Definition dir_Init (max_depth : Z) (d : DirectoryPage) : DirectoryPage :=
  mkDir max_depth (global_depth_ d) (local_depths_ d) (bucket_page_ids_ d).

(** [ExtendibleHTableDirectoryPage::Size] *)
Definition dir_Size (d : DirectoryPage) : result Z := shl1 (global_depth_ d).

(** [ExtendibleHTableDirectoryPage::HashToBucketIndex] *)
Definition dir_HashToBucketIndex (hash : Z) (d : DirectoryPage) : result Z :=
  rbind (dir_Size d) (fun sz => Ok (Z.land hash (wrap32 (sz - 1)))).

Definition check_idx (bucket_idx : Z) (d : DirectoryPage) : result unit :=
  rbind (dir_Size d) (fun sz => assert (bucket_idx <? sz)).

(** [ExtendibleHTableDirectoryPage::GetBucketPageId] *)
Definition dir_GetBucketPageId (bucket_idx : Z) (d : DirectoryPage) : result Z :=
  rbind (check_idx bucket_idx d) (fun _ => arr_get (bucket_page_ids_ d) bucket_idx).

(** [ExtendibleHTableDirectoryPage::SetBucketPageId] *)
Definition dir_SetBucketPageId (bucket_idx bucket_page_id : Z)
    (d : DirectoryPage) : result DirectoryPage :=
  rbind (check_idx bucket_idx d) (fun _ =>
  rbind (arr_set (bucket_page_ids_ d) bucket_idx bucket_page_id) (fun ids =>
  Ok (mkDir (max_depth_ d) (global_depth_ d) (local_depths_ d) ids))).

(** [ExtendibleHTableDirectoryPage::GetGlobalDepth] *)
Definition dir_GetGlobalDepth (d : DirectoryPage) : Z := global_depth_ d.

(** The copy loop of [IncrGlobalDepth]: slot [i + msb] receives slot [i],
    for [i] from [i0] up to [msb]. *)
Fixpoint copy_up (n : nat) (i msb : Z) (d : DirectoryPage)
  : result DirectoryPage :=
  match n with
  | O => Ok d
  | S n' =>
      rbind (arr_get (local_depths_ d) i) (fun ld =>
      rbind (arr_set (local_depths_ d) (i + msb) ld) (fun lds =>
      rbind (arr_get (bucket_page_ids_ d) i) (fun id =>
      rbind (arr_set (bucket_page_ids_ d) (i + msb) id) (fun ids =>
      copy_up n' (i + 1) msb
              (mkDir (max_depth_ d) (global_depth_ d) lds ids)))))
  end.

(** [ExtendibleHTableDirectoryPage::IncrGlobalDepth] *)
Definition dir_IncrGlobalDepth (d : DirectoryPage) : result DirectoryPage :=
  rbind (assert (global_depth_ d <? max_depth_ d)) (fun _ =>
  let d1 := mkDir (max_depth_ d) (wrap32 (global_depth_ d + 1))
                  (local_depths_ d) (bucket_page_ids_ d) in
  rbind (dir_Size d1) (fun sz =>
  let msb := Z.shiftr sz 1 in
  copy_up (Z.to_nat msb) 0 msb d1)).

(** [ExtendibleHTableDirectoryPage::DecrGlobalDepth] *)
Definition dir_DecrGlobalDepth (d : DirectoryPage) : result DirectoryPage :=
  rbind (assert (0 <? global_depth_ d)) (fun _ =>
  Ok (mkDir (max_depth_ d) (wrap32 (global_depth_ d - 1))
            (local_depths_ d) (bucket_page_ids_ d))).

(** The loop of [CanShrink] over the slots [i, i+1, ...]. *)
Fixpoint can_shrink_from (n : nat) (i : Z) (d : DirectoryPage) : result bool :=
  match n with
  | O => Ok true
  | S n' =>
      rbind (arr_get (local_depths_ d) i) (fun ld =>
      if ld =? global_depth_ d then Ok false
      else can_shrink_from n' (i + 1) d)
  end.

(** [ExtendibleHTableDirectoryPage::CanShrink] *)
Definition dir_CanShrink (d : DirectoryPage) : result bool :=
  rbind (dir_Size d) (fun sz => can_shrink_from (Z.to_nat sz) 0 d).

(** [ExtendibleHTableDirectoryPage::GetLocalDepth] *)
Definition dir_GetLocalDepth (bucket_idx : Z) (d : DirectoryPage) : result Z :=
  rbind (check_idx bucket_idx d) (fun _ => arr_get (local_depths_ d) bucket_idx).

Definition set_local_depth (bucket_idx ld : Z) (d : DirectoryPage)
  : result DirectoryPage :=
  rbind (arr_set (local_depths_ d) bucket_idx ld) (fun lds =>
  Ok (mkDir (max_depth_ d) (global_depth_ d) lds (bucket_page_ids_ d))).

(** [ExtendibleHTableDirectoryPage::SetLocalDepth]: the parameter is a
    [uint8_t], so the caller's value arrives modulo 256. *)
Definition dir_SetLocalDepth (bucket_idx local_depth : Z) (d : DirectoryPage)
  : result DirectoryPage :=
  rbind (check_idx bucket_idx d) (fun _ =>
  set_local_depth bucket_idx (local_depth mod 256) d).

(** [ExtendibleHTableDirectoryPage::IncrLocalDepth]: [++] on a [uint8_t]. *)
Definition dir_IncrLocalDepth (bucket_idx : Z) (d : DirectoryPage)
  : result DirectoryPage :=
  rbind (check_idx bucket_idx d) (fun _ =>
  rbind (arr_get (local_depths_ d) bucket_idx) (fun ld =>
  set_local_depth bucket_idx ((ld + 1) mod 256) d)).

(** [ExtendibleHTableDirectoryPage::DecrLocalDepth]: [--] on a [uint8_t]. *)
Definition dir_DecrLocalDepth (bucket_idx : Z) (d : DirectoryPage)
  : result DirectoryPage :=
  rbind (check_idx bucket_idx d) (fun _ =>
  rbind (arr_get (local_depths_ d) bucket_idx) (fun ld =>
  set_local_depth bucket_idx ((ld - 1) mod 256) d)).

(** Modelled from the spec: [CanExpand] and [GetLocalDepthMask] are inline
    members of the directory class, outside the sources at hand.  The
    directory cannot grow once "global_depth == max_depth_d"; the mask keeps
    "the low local_depth bits". *)
Definition dir_CanExpand (d : DirectoryPage) : bool :=
  global_depth_ d <? max_depth_ d.

Definition dir_GetLocalDepthMask (bucket_idx : Z) (d : DirectoryPage)
  : result Z :=
  rbind (dir_GetLocalDepth bucket_idx d) (fun ld =>
  rbind (shl1 ld) (fun m => Ok (m - 1))).

(** *** Header page *)

Record HeaderPage : Type := mkHeader {
  directory_page_ids_ : list Z;
  header_max_depth_ : Z
}.

(** Modelled from the spec: the header page class has no source file here.
    "A fixed max_depth_h; an array of directory page ids (initially
    INVALID).  Hashes are routed to a directory by the top max_depth_h bits
    of the 32-bit hash." *)
Definition header_Init (max_depth : Z) (h : HeaderPage) : HeaderPage :=
  mkHeader (replicate (length (directory_page_ids_ h)) INVALID_PAGE_ID) max_depth.

Definition header_HashToDirectoryIndex (hash : Z) (h : HeaderPage) : Z :=
  if header_max_depth_ h =? 0 then 0
  else Z.shiftr hash (32 - header_max_depth_ h).

Definition header_GetDirectoryPageId (directory_idx : Z) (h : HeaderPage)
  : result Z :=
  arr_get (directory_page_ids_ h) directory_idx.

Definition header_SetDirectoryPageId (directory_idx directory_page_id : Z)
    (h : HeaderPage) : result HeaderPage :=
  rbind (arr_set (directory_page_ids_ h) directory_idx directory_page_id)
        (fun ids => Ok (mkHeader ids (header_max_depth_ h))).

(** *** Page buffers seen through the page classes *)

(** What a page buffer holds: nothing yet (all zero, as [ResetMemory]
    leaves it) or the fields of the page class that was last written to it. *)
Inductive PageData : Type :=
  | Blank
  | Header (h : HeaderPage)
  | Directory (d : DirectoryPage)
  | Bucket (b : BucketPage).

(** Modelled from the spec: the casts [As<T>] / [AsMut<T>] and the layout of
    the page classes are declared in headers outside the sources at hand.
    Every field of a zeroed buffer reads as zero: as a bucket it has
    [size_ = 0] and [max_size_ = 0]; as a directory it has global depth 0,
    local depths 0 and bucket page ids 0, which is not [INVALID_PAGE_ID]
    ([ExtendibleHTableDirectoryPage::Init] writes [max_depth_] only).  A
    buffer written through one page class and read through another is
    outside the model. *)
Definition blank_bucket : BucketPage := mkBucket 0 [].

Definition blank_directory : DirectoryPage :=
  mkDir 0 0
        (replicate (Z.to_nat HTABLE_DIRECTORY_ARRAY_SIZE) 0)
        (replicate (Z.to_nat HTABLE_DIRECTORY_ARRAY_SIZE) 0).

Definition blank_header : HeaderPage :=
  mkHeader (replicate (Z.to_nat HTABLE_HEADER_ARRAY_SIZE) 0) 0.

Definition as_bucket (d : PageData) : result BucketPage :=
  match d with
  | Blank => Ok blank_bucket
  | Bucket b => Ok b
  | _ => Err Undefined
  end.

Definition as_directory (d : PageData) : result DirectoryPage :=
  match d with
  | Blank => Ok blank_directory
  | Directory x => Ok x
  | _ => Err Undefined
  end.

Definition as_header (d : PageData) : result HeaderPage :=
  match d with
  | Blank => Ok blank_header
  | Header h => Ok h
  | _ => Err Undefined
  end.

(** ** Extendible hash table
    (src/container/disk/hash/disk_extendible_hash_table.cpp) *)

Notation "x <- c1 ;; c2" := (bind c1 (fun x => c2))
  (at level 100, c1 at next level, right associativity).
Notation "c1 ;;; c2" := (bind c1 (fun _ => c2))
  (at level 100, right associativity).

Abbreviation HM := (M PageData).

(** The pool calls of the table; the buffers of this pool hold [PageData]
    and a reset buffer is [Blank]. *)
Definition FetchPageRead (page_id : Z) : HM PageGuard :=
  FetchPageGuarded page_id.
Definition FetchPageWrite (page_id : Z) : HM PageGuard :=
  FetchPageGuarded page_id.
Definition bpm_DeletePage (page_id : Z) : HM bool := DeletePage Blank page_id.

(** Calls through a pointer into a page buffer (a frame of the pool): a
    [const] call reads the buffer, any other call also writes it. *)
Definition read_data (f : Z) : HM PageData := read_buffer f.

Definition write_data (f : Z) (d : PageData) : HM unit := write_buffer f d.

Definition bucket_get {A} (f : Z) (op : BucketPage -> A) : HM A :=
  d <- read_data f ;; b <- lift (as_bucket d) ;; ret (op b).

Definition bucket_call {A} (f : Z) (op : BucketPage -> A * BucketPage) : HM A :=
  d <- read_data f ;; b <- lift (as_bucket d) ;;
  write_data f (Bucket (op b).2) ;;; ret (op b).1.

Definition dir_get {A} (f : Z) (op : DirectoryPage -> result A) : HM A :=
  d <- read_data f ;; x <- lift (as_directory d) ;; lift (op x).

Definition dir_set (f : Z) (op : DirectoryPage -> result DirectoryPage)
  : HM unit :=
  d <- read_data f ;; x <- lift (as_directory d) ;;
  x' <- lift (op x) ;; write_data f (Directory x').

Definition header_get {A} (f : Z) (op : HeaderPage -> result A) : HM A :=
  d <- read_data f ;; h <- lift (as_header d) ;; lift (op h).

Definition header_set (f : Z) (op : HeaderPage -> result HeaderPage)
  : HM unit :=
  d <- read_data f ;; h <- lift (as_header d) ;;
  h' <- lift (op h) ;; write_data f (Header h').

(** [guard.As<T>()] and [guard.AsMut<T>()]; the latter marks the guard
    dirty. *)
Definition As (g : PageGuard) : HM Z := guard_frame g.
Definition AsMut (g : PageGuard) : HM (Z * PageGuard) :=
  f <- guard_frame g ;; ret (f, mkGuard (page_ g) true).

Record DiskExtendibleHashTable : Type := mkTable {
  header_page_id_ : Z;
  ht_header_max_depth_ : Z;
  directory_max_depth_ : Z;
  bucket_max_size_ : Z
}.

(** [DiskExtendibleHashTable::DiskExtendibleHashTable] *)
Definition new_table (header_max_depth directory_max_depth bucket_max_size : Z)
  : HM DiskExtendibleHashTable :=
  r <- NewPageGuarded ;;
  p <- AsMut r.1 ;;
  header_set p.1 (fun h => Ok (header_Init header_max_depth h)) ;;;
  Drop p.2 ;;;
  ret (mkTable (default INVALID_PAGE_ID r.2) header_max_depth
               directory_max_depth bucket_max_size).

(** [DiskExtendibleHashTable::Hash] *)
Definition Hash (key : K) : Z := wrap32 (hash_fn key).

(** [DiskExtendibleHashTable::GetValue]: the returned flag and the values
    pushed onto [result]. *)
Definition GetValue (ht : DiskExtendibleHashTable) (key : K)
  : HM (bool * list V) :=
  let hash := Hash key in
  header_page <- FetchPageRead (header_page_id_ ht) ;;
  header <- As header_page ;;
  dir_idx <- header_get header (fun h => Ok (header_HashToDirectoryIndex hash h)) ;;
  dir_page_id <- header_get header (header_GetDirectoryPageId dir_idx) ;;
  if dir_page_id =? INVALID_PAGE_ID then
    Drop header_page ;;; ret (false, [])
  else
    Drop header_page ;;;
    dir_page <- FetchPageRead dir_page_id ;;
    dir <- As dir_page ;;
    bucket_idx <- dir_get dir (dir_HashToBucketIndex hash) ;;
    bucket_page_id <- dir_get dir (dir_GetBucketPageId bucket_idx) ;;
    if bucket_page_id =? INVALID_PAGE_ID then
      Drop dir_page ;;; ret (false, [])
    else
      Drop dir_page ;;;
      bucket_page <- FetchPageRead bucket_page_id ;;
      bucket <- As bucket_page ;;
      found <- bucket_get bucket (bucket_Lookup key) ;;
      Drop bucket_page ;;;
      match found with
      | None => ret (false, [])
      | Some value => ret (true, [value])
      end.

(** The redistribution loop of the split, for [i] from [n - 1] down to 0,
    where [n] is not 0. *)
Fixpoint split_entries (n : nat) (bucket new_bucket : Z) (new_mask : Z)
  : HM unit :=
  match n with
  | O => ret tt
  | S i =>
      e <- bucket_get bucket (bucket_EntryAt (Z.of_nat i)) ;;
      e <- lift e ;;
      (if negb (Z.land (Hash e.1) new_mask =? 0) then
         bucket_call new_bucket (bucket_Insert e.1 e.2) ;;;
         bucket_call bucket (fun b => (tt, bucket_RemoveAt (Z.of_nat i) b))
       else ret tt) ;;;
      split_entries i bucket new_bucket new_mask
  end.

(** A loop [for (idx = start; idx < dir_size; idx += step) body(idx)] over
    a directory page; the counter is a [uint32_t]. *)
Fixpoint for_slots (fuel : nat) (idx step dir_size : Z)
    (body : Z -> DirectoryPage -> result DirectoryPage) (d : DirectoryPage)
  : result DirectoryPage :=
  match fuel with
  | O => Err OutOfFuel
  | S fuel' =>
      if idx <? dir_size then
        rbind (body idx d) (fun d' =>
        for_slots fuel' (wrap32 (idx + step)) step dir_size body d')
      else Ok d
  end.

(** Step 5 of [InsertToDirectory] ("更新directory"). *)
Definition split_update_body (step new_bucket_page_id : Z) (idx : Z)
    (d : DirectoryPage) : result DirectoryPage :=
  rbind (dir_IncrLocalDepth idx d) (fun d1 =>
  if negb (Z.land idx step =? 0)
  then dir_SetBucketPageId idx new_bucket_page_id d1
  else Ok d1).

Definition split_update (hash bucket_idx new_mask new_bucket_page_id : Z)
    (d : DirectoryPage) : result DirectoryPage :=
  rbind (dir_Size d) (fun dir_size =>
  rbind (dir_GetLocalDepthMask bucket_idx d) (fun mask =>
  for_slots (S (Z.to_nat dir_size)) (Z.land hash mask) new_mask dir_size
            (split_update_body new_mask new_bucket_page_id) d)).

(** [DiskExtendibleHashTable::InsertToDirectory].  Every call that splits
    raises the local depth of the slot of [hash], so on a well-formed
    directory the recursion is no deeper than [max_depth_ + 1]; [fuel]
    bounds it in the model.  The redistribution loop starts at
    [int64_t i = bucket->Size() - 1], a subtraction on [uint32_t]: for an
    empty bucket it starts at 4294967295 and [EntryAt] reads outside the
    page. *)
Fixpoint InsertToDirectory (fuel : nat) (ht : DiskExtendibleHashTable)
    (dir : Z) (hash : Z) (key : K) (value : V) : HM bool :=
  match fuel with
  | O => throw OutOfFuel
  | S fuel' =>
      bucket_idx <- dir_get dir (dir_HashToBucketIndex hash) ;;
      bucket_page_id <- dir_get dir (dir_GetBucketPageId bucket_idx) ;;
      gp <- (if bucket_page_id =? INVALID_PAGE_ID then
               sz <- dir_get dir dir_Size ;;
               lift (assert (sz =? 1)) ;;;
               lift (assert (bucket_idx =? 0)) ;;;
               r <- NewPageGuarded ;;
               let bucket_page_id := default bucket_page_id r.2 in
               dir_set dir (dir_SetBucketPageId bucket_idx bucket_page_id) ;;;
               ret (r.1, bucket_page_id, true)
             else
               g <- FetchPageWrite bucket_page_id ;;
               ret (g, bucket_page_id, false)) ;;
      let is_new_bucket := gp.2 in
      p <- AsMut gp.1.1 ;;
      let bucket := p.1 in
      let bucket_page := p.2 in
      (if is_new_bucket
       then bucket_call bucket (fun b => (tt, bucket_Init (bucket_max_size_ ht) b))
       else ret tt) ;;;
      full <- bucket_get bucket bucket_IsFull ;;
      if negb full then
        ok <- bucket_call bucket (bucket_Insert key value) ;;
        Drop bucket_page ;;; ret ok
      else
        ld <- dir_get dir (dir_GetLocalDepth bucket_idx) ;;
        gd <- dir_get dir (fun d => Ok (dir_GetGlobalDepth d)) ;;
        stuck <- (if ld =? gd then
                    can <- dir_get dir (fun d => Ok (dir_CanExpand d)) ;;
                    if negb can then ret true
                    else dir_set dir dir_IncrGlobalDepth ;;; ret false
                  else ret false) ;;
        if stuck then
          Drop bucket_page ;;; ret false
        else
          r <- NewPageGuarded ;;
          let new_bucket_page_id := default 0 r.2 in
          q <- AsMut r.1 ;;
          let new_bucket := q.1 in
          let new_bucket_page := q.2 in
          bucket_call new_bucket (fun b => (tt, bucket_Init (bucket_max_size_ ht) b)) ;;;
          ld' <- dir_get dir (dir_GetLocalDepth bucket_idx) ;;
          new_mask <- lift (shl1 ld') ;;
          n <- bucket_get bucket bucket_Size ;;
          (if n =? 0 then throw Undefined
           else split_entries (Z.to_nat n) bucket new_bucket new_mask) ;;;
          dir_set dir (split_update hash bucket_idx new_mask new_bucket_page_id) ;;;
          Drop bucket_page ;;;
          Drop new_bucket_page ;;;
          InsertToDirectory fuel' ht dir hash key value
  end.

(** The bound on the recursion of [InsertToDirectory] used by [Insert]:
    a local depth is a [uint8_t]. *)
Definition insert_fuel : nat := 257.

(** [DiskExtendibleHashTable::Insert] *)
Definition Insert (ht : DiskExtendibleHashTable) (key : K) (value : V)
  : HM bool :=
  let hash := Hash key in
  header_page <- FetchPageWrite (header_page_id_ ht) ;;
  p <- AsMut header_page ;;
  let header := p.1 in
  let header_page := p.2 in
  dir_idx <- header_get header (fun h => Ok (header_HashToDirectoryIndex hash h)) ;;
  dir_page_id <- header_get header (header_GetDirectoryPageId dir_idx) ;;
  gp <- (if dir_page_id =? INVALID_PAGE_ID then
           r <- NewPageGuarded ;;
           let dir_page_id := default dir_page_id r.2 in
           header_set header (header_SetDirectoryPageId dir_idx dir_page_id) ;;;
           ret (r.1, true)
         else
           g <- FetchPageWrite dir_page_id ;;
           ret (g, false)) ;;
  let is_new_dir := gp.2 in
  Drop header_page ;;;
  q <- AsMut gp.1 ;;
  let dir := q.1 in
  let dir_page := q.2 in
  (if is_new_dir
   then dir_set dir (fun d => Ok (dir_Init (directory_max_depth_ ht) d))
   else ret tt) ;;;
  ok <- InsertToDirectory insert_fuel ht dir hash key value ;;
  Drop dir_page ;;;
  ret ok.

(** The directory update after a merge ("更新directory" in [Remove]). *)
Definition merge_update_body (bucket_page_id : Z) (idx : Z)
    (d : DirectoryPage) : result DirectoryPage :=
  rbind (dir_DecrLocalDepth idx d) (fun d1 =>
  dir_SetBucketPageId idx bucket_page_id d1).

Definition merge_update (hash bucket_idx merge_mask bucket_page_id : Z)
    (d : DirectoryPage) : result DirectoryPage :=
  rbind (dir_Size d) (fun dir_size =>
  rbind (dir_GetLocalDepthMask bucket_idx d) (fun mask =>
  for_slots (S (Z.to_nat dir_size)) (Z.land hash mask) merge_mask dir_size
            (merge_update_body bucket_page_id) d)).

(** The merge loop of [Remove] ("合并bucket").  Every round that merges
    lowers the local depth of [bucket_idx]. *)
Fixpoint merge_loop (fuel : nat) (dir bucket : Z)
    (hash bucket_idx bucket_page_id : Z) : HM unit :=
  match fuel with
  | O => throw OutOfFuel
  | S fuel' =>
      bucket_depth <- dir_get dir (dir_GetLocalDepth bucket_idx) ;;
      if bucket_depth =? 0 then ret tt
      else
        merge_mask <- lift (shl1 (bucket_depth - 1)) ;;
        let merge_bucket_idx := Z.lxor bucket_idx merge_mask in
        merge_bucket_page_id <- dir_get dir (dir_GetBucketPageId merge_bucket_idx) ;;
        merge_bucket_page <- FetchPageRead merge_bucket_page_id ;;
        merge_bucket <- As merge_bucket_page ;;
        other <- bucket_get merge_bucket (fun b => b) ;;
        merged <- bucket_call bucket (bucket_MergeBucket other) ;;
        if negb merged then
          Drop merge_bucket_page ;;; ret tt
        else
          Drop merge_bucket_page ;;;
          deleted <- bpm_DeletePage merge_bucket_page_id ;;
          lift (assert deleted) ;;;
          dir_set dir (merge_update hash bucket_idx merge_mask bucket_page_id) ;;;
          merge_loop fuel' dir bucket hash bucket_idx bucket_page_id
  end.

(** The shrink loop of [Remove] ("收缩direcotry"). *)
Fixpoint shrink_loop (fuel : nat) (dir : Z) : HM unit :=
  match fuel with
  | O => throw OutOfFuel
  | S fuel' =>
      can <- dir_get dir dir_CanShrink ;;
      if can then dir_set dir dir_DecrGlobalDepth ;;; shrink_loop fuel' dir
      else ret tt
  end.

(** Bounds on the two loops of [Remove] in the model: a merge lowers a
    [uint8_t] local depth, a shrink lowers a global depth below 32. *)
Definition merge_fuel : nat := 257.
Definition shrink_fuel : nat := 34.

(** [DiskExtendibleHashTable::Remove] *)
Definition Remove (ht : DiskExtendibleHashTable) (key : K) : HM bool :=
  let hash := Hash key in
  header_page <- FetchPageRead (header_page_id_ ht) ;;
  header <- As header_page ;;
  dir_idx <- header_get header (fun h => Ok (header_HashToDirectoryIndex hash h)) ;;
  dir_page_id <- header_get header (header_GetDirectoryPageId dir_idx) ;;
  if dir_page_id =? INVALID_PAGE_ID then
    Drop header_page ;;; ret false
  else
    Drop header_page ;;;
    dir_page <- FetchPageWrite dir_page_id ;;
    q <- AsMut dir_page ;;
    let dir := q.1 in
    let dir_page := q.2 in
    bucket_idx <- dir_get dir (dir_HashToBucketIndex hash) ;;
    bucket_page_id <- dir_get dir (dir_GetBucketPageId bucket_idx) ;;
    if bucket_page_id =? INVALID_PAGE_ID then
      Drop dir_page ;;; ret false
    else
      bucket_page <- FetchPageWrite bucket_page_id ;;
      p <- AsMut bucket_page ;;
      let bucket := p.1 in
      let bucket_page := p.2 in
      removed <- bucket_call bucket (bucket_Remove key) ;;
      if negb removed then
        Drop bucket_page ;;; Drop dir_page ;;; ret false
      else
        merge_loop merge_fuel dir bucket hash bucket_idx bucket_page_id ;;;
        shrink_loop shrink_fuel dir ;;;
        Drop bucket_page ;;; Drop dir_page ;;; ret true.

(** *** The directory invariant *)

(** The low [n] bits of a slot index. *)
Definition low_bits (i n : Z) : Z := Z.land i (Z.ones n).

(** Local depth and bucket page id of slot [i]. *)
Definition slot (d : DirectoryPage) (i : Z) : option (Z * Z) :=
  match local_depths_ d !! Z.to_nat i, bucket_page_ids_ d !! Z.to_nat i with
  | Some ld, Some id => Some (ld, id)
  | _, _ => None
  end.

(** Two slots that agree in the low [local_depth[i]] bits hold the same
    bucket page id and the same local depth. *)
Definition dir_invariant (d : DirectoryPage) : Prop :=
  ∀ i j ldi idi ldj idj,
    0 <= i < 2 ^ global_depth_ d → 0 <= j < 2 ^ global_depth_ d →
    slot d i = Some (ldi, idi) → slot d j = Some (ldj, idj) →
    low_bits i ldi = low_bits j ldi →
    idi = idj ∧ ldi = ldj.

(** The slots of the group that a merge of the bucket at [bucket_idx], of
    local depth [ld], combines: those that agree with [bucket_idx] in the
    low [ld - 1] bits. *)
Definition in_combined_group (bucket_idx ld i : Z) : Prop :=
  low_bits i (ld - 1) = low_bits bucket_idx (ld - 1).

(** *** Well-formed directories *)

(** The shape that the directory operations keep: depths within bounds and
    arrays long enough for the deepest directory. *)
Definition dir_shape (d : DirectoryPage) : Prop :=
  0 <= global_depth_ d <= max_depth_ d ∧ max_depth_ d <= 31 ∧
  2 ^ max_depth_ d <= Z.of_nat (length (local_depths_ d)) ∧
  2 ^ max_depth_ d <= Z.of_nat (length (bucket_page_ids_ d)).

Definition same_shape (d d' : DirectoryPage) : Prop :=
  max_depth_ d' = max_depth_ d ∧ global_depth_ d' = global_depth_ d ∧
  length (local_depths_ d') = length (local_depths_ d) ∧
  length (bucket_page_ids_ d') = length (bucket_page_ids_ d).

(** No slot has a local depth above the global depth. *)
Definition depths_bounded (d : DirectoryPage) : Prop :=
  ∀ i ld id, 0 <= i < 2 ^ global_depth_ d → slot d i = Some (ld, id) →
             0 <= ld <= global_depth_ d.

Definition dir_wf (d : DirectoryPage) : Prop :=
  dir_shape d ∧ depths_bounded d ∧ dir_invariant d.

(** The slot that the split loop and the merge loop write at index [k]. *)
Definition split_slot (step new_bucket_page_id : Z) (k : Z) (s : Z * Z) : Z * Z :=
  ((s.1 + 1) mod 256,
   if Z.land k step =? 0 then s.2 else new_bucket_page_id).

Definition merge_slot (bucket_page_id : Z) (k : Z) (s : Z * Z) : Z * Z :=
  ((s.1 - 1) mod 256, bucket_page_id).

(** What a loop body must do: rewrite the slot it is called on with [g] and
    leave every other slot alone. *)
Definition slot_body (body : Z → DirectoryPage → result DirectoryPage)
    (g : Z → Z * Z → Z * Z) : Prop :=
  ∀ idx d, dir_shape d → 0 <= idx < 2 ^ global_depth_ d →
    ∃ d', body idx d = Ok d' ∧ same_shape d d' ∧
          ∀ k, 0 <= k →
               slot d' k = if decide (k = idx) then g idx <$> slot d idx
                           else slot d k.

(** The slots that [for (idx = start; idx < dir_size; idx += step)]
    visits. *)
Definition visited (start step dir_size k : Z) : Prop :=
  start <= k < dir_size ∧ (k - start) mod step = 0.

(** The buffer of a page as the pool holds it, through the page table. *)
Definition page_data (s : BufferPoolManager PageData) (page_id : Z)
  : option PageData :=
  match page_table_ s !! page_id with
  | Some f => data_ <$> pages_ s !! Z.to_nat f
  | None => None
  end.

Definition directory_of (s : BufferPoolManager PageData) (page_id : Z)
  : option DirectoryPage :=
  match page_data s page_id with
  | Some (Directory d) => Some d
  | _ => None
  end.

Definition bucket_of (s : BufferPoolManager PageData) (page_id : Z)
  : option BucketPage :=
  match page_data s page_id with
  | Some (Bucket b) => Some b
  | _ => None
  end.

End WithKeyValue.

Arguments BucketPage : clear implicits.
Arguments PageData : clear implicits.

End HashTable.

(** ** Concrete runs *)

Module Scenario.

Import BufferPool.

Notation "x <- c1 ;; c2" := (bind c1 (fun x => c2))
  (at level 100, c1 at next level, right associativity).
Notation "c1 ;;; c2" := (bind c1 (fun _ => c2))
  (at level 100, right associativity).

(** The result of a run without the final pool, and the final pool. *)
Definition outcome {Data A} (r : result (A * BufferPoolManager Data))
  : result A :=
  match r with Ok (a, _) => Ok a | Err e => Err e end.

Definition final {Data A} (r : result (A * BufferPoolManager Data))
  : option (BufferPoolManager Data) :=
  match r with Ok (_, s) => Some s | Err _ => None end.

(** *** A replacer with K = 2 after the accesses 1, 2, 3, 1, 2, 3 *)

Definition set_evictable_all (fids : list Z) (r : Replacer.LRUKReplacer)
  : Replacer.LRUKReplacer :=
  foldl (fun r f => match Replacer.SetEvictable f true r with
                    | Ok r' => r'
                    | Err _ => r
                    end) r fids.

Definition replacer_123123 : Replacer.LRUKReplacer :=
  set_evictable_all [1; 2; 3]
    (foldl (fun r f => Replacer.RecordAccess f r) (Replacer.init 7 2)
           [1; 2; 3; 1; 2; 3]).

(** Accesses 1, 2, 1, 2 and then a single access of frame 3. *)
Definition replacer_12123 : Replacer.LRUKReplacer :=
  set_evictable_all [1; 2; 3]
    (foldl (fun r f => Replacer.RecordAccess f r) (Replacer.init 7 2)
           [1; 2; 1; 2; 3]).

(** *** A pool of one frame whose pages are byte buffers *)

Definition BUSTUB_PAGE_SIZE : nat := 4096.
Definition zero_buffer : list Z := replicate BUSTUB_PAGE_SIZE 0.
Definition pool1 : BufferPoolManager (list Z) := init zero_buffer 1 2.

(** [NewPage], fill the page with 0x41, unpin it dirty, [NewPage] again:
    the two results and the buffer of the second page. *)
Definition new_page_twice
  : M (list Z) (option (Z * Z) * option (Z * Z) * list Z) :=
  p0 <- NewPage ;;
  write_buffer 0 (replicate BUSTUB_PAGE_SIZE 65) ;;;
  UnpinPage 0 true ;;;
  p1 <- NewPage ;;
  d <- read_buffer 0 ;;
  ret (p0, p1, d).

(** *** A hash table on integers *)

(** [IntComparator] *)
Definition int_cmp (lhs rhs : Z) : Z :=
  if lhs <? rhs then -1 else if rhs <? lhs then 1 else 0.

(** The hash function handed to the table: the key itself. *)
Definition id_hash (key : Z) : Z := key.

Abbreviation PD := (HashTable.PageData Z Z).
Abbreviation Table := HashTable.DiskExtendibleHashTable.

Definition pool : BufferPoolManager PD := init HashTable.Blank 50 10.

Definition new_table (header_max_depth directory_max_depth bucket_max_size : Z)
  : M PD Table :=
  HashTable.new_table (K:=Z) (V:=Z) 512
    header_max_depth directory_max_depth bucket_max_size.
Definition Insert (ht : Table) (key value : Z) : M PD bool :=
  HashTable.Insert int_cmp id_hash 512 512 ht key value.
Definition Remove (ht : Table) (key : Z) : M PD bool :=
  HashTable.Remove (V:=Z) int_cmp id_hash 512 512 ht key.
Definition GetValue (ht : Table) (key : Z) : M PD (bool * list Z) :=
  HashTable.GetValue int_cmp id_hash 512 512 ht key.

(** *** Tables in a given state

    A table whose directory has split is set up page by page, the way a
    test drives the page classes: a page from [NewPageGuarded], then the
    methods of the page class on its buffer under a write guard, then the
    guard dropped. *)

(** A new page, unpinned at once; the result is its page id. *)
Definition new_page : M PD Z :=
  r <- NewPageGuarded ;;
  Drop r.1 ;;;
  ret (default INVALID_PAGE_ID r.2).

(** [Init(max_size)] and one [Insert] per pair on the bucket page
    [page_id]. *)
Definition fill_bucket (page_id max_size : Z) (entries : list (Z * Z))
  : M PD unit :=
  g <- HashTable.FetchPageWrite page_id ;;
  p <- HashTable.AsMut g ;;
  HashTable.bucket_call p.1
    (fun b => (tt, HashTable.bucket_Init max_size b)) ;;;
  foldr (fun e k =>
           HashTable.bucket_call p.1 (HashTable.bucket_Insert int_cmp e.1 e.2) ;;;
           k)
        (ret tt) entries ;;;
  Drop p.2.

(** [Init(max_depth)] and the calls [ops], in order, on the directory page
    [page_id]. *)
Definition fill_directory (page_id max_depth : Z)
    (ops : list (HashTable.DirectoryPage -> result HashTable.DirectoryPage))
  : M PD unit :=
  g <- HashTable.FetchPageWrite page_id ;;
  p <- HashTable.AsMut g ;;
  HashTable.dir_set 512 p.1 (fun d => Ok (HashTable.dir_Init max_depth d)) ;;;
  foldr (fun op k => HashTable.dir_set 512 p.1 op ;;; k) (ret tt) ops ;;;
  Drop p.2.

(** [SetDirectoryPageId] on the header page of the table. *)
Definition set_directory (ht : Table) (directory_idx directory_page_id : Z)
  : M PD unit :=
  g <- HashTable.FetchPageWrite (HashTable.header_page_id_ ht) ;;
  p <- HashTable.AsMut g ;;
  HashTable.header_set 512 p.1
    (HashTable.header_SetDirectoryPageId directory_idx directory_page_id) ;;;
  Drop p.2.

(** A table with [directory_max_depth = 3] and [bucket_max_size = 2] whose
    directory (page 1) has global depth 1: slot 0 has local depth 1 and
    points to the bucket on page 2, which holds [low]; slot 1 has local depth
    1 and points to the bucket on page 3, which holds [high]. *)
Definition build_depth_1 (low high : list (Z * Z)) : M PD Table :=
  ht <- new_table 0 3 2 ;;
  dir <- new_page ;;
  b0 <- new_page ;;
  b1 <- new_page ;;
  fill_bucket b0 2 low ;;;
  fill_bucket b1 2 high ;;;
  fill_directory dir 3
    [HashTable.dir_SetBucketPageId 0 b0;
     HashTable.dir_IncrGlobalDepth;
     HashTable.dir_SetLocalDepth 0 1;
     HashTable.dir_SetLocalDepth 1 1;
     HashTable.dir_SetBucketPageId 1 b1] ;;;
  set_directory ht 0 dir ;;;
  ret ht.

(** A table whose directory (page 1) has global depth 0 and one bucket, on
    page 2, holding [entries]. *)
Definition build_depth_0 (directory_max_depth bucket_max_size : Z)
    (entries : list (Z * Z)) : M PD Table :=
  ht <- new_table 0 directory_max_depth bucket_max_size ;;
  dir <- new_page ;;
  b0 <- new_page ;;
  fill_bucket b0 bucket_max_size entries ;;;
  fill_directory dir directory_max_depth [HashTable.dir_SetBucketPageId 0 b0] ;;;
  set_directory ht 0 dir ;;;
  ret ht.

(** The first slots of the directory stored in page [page_id]: global depth,
    local depths and bucket page ids. *)
Definition directory_summary (n : nat) (s : option (BufferPoolManager PD))
    (page_id : Z) : option (Z * list Z * list Z) :=
  match s with
  | None => None
  | Some s =>
      match HashTable.directory_of s page_id with
      | Some d => Some (HashTable.global_depth_ d,
                        take n (HashTable.local_depths_ d),
                        take n (HashTable.bucket_page_ids_ d))
      | None => None
      end
  end.


(** The table of the three pairs (1,1), (2,2), (3,3): key 2 in the bucket
    of slot 0, keys 1 and 3 in the bucket of slot 1. *)
Definition table_1_2_3 : Table := HashTable.mkTable 0 0 3 2.

Definition pool_1_2_3 : BufferPoolManager PD :=
  default pool (final (build_depth_1 [(2, 2)] [(1, 1); (3, 3)] pool)).

Definition header_1_2_3 : HashTable.HeaderPage :=
  HashTable.mkHeader (1 :: replicate 511 INVALID_PAGE_ID) 0.

Definition directory_1_2_3 : HashTable.DirectoryPage :=
  HashTable.mkDir 3 1 ([1; 1] ++ replicate 510 0) ([2; 3] ++ replicate 510 0).

(** ... followed by [Remove(3)]. *)
Definition pool_1_2_3_removed_3 : BufferPoolManager PD :=
  default pool (final (Remove table_1_2_3 3 pool_1_2_3)).

Definition directory_1_2_3_removed_3 : HashTable.DirectoryPage :=
  HashTable.mkDir 3 1 ([1; 0] ++ replicate 510 0) ([2; 3] ++ replicate 510 0).

(** The same table before key 2 is inserted: the bucket of slot 0 is
    empty. *)
Definition pool_1_3 : BufferPoolManager PD :=
  default pool (final (build_depth_1 [] [(1, 1); (3, 3)] pool)).

(** [Insert(2,2)], [GetValue(2)], [Remove(3)], [GetValue(2)] and
    [GetValue(1)]. *)
Definition insert_2_remove_3
  : M PD (bool * (bool * list Z) * bool * (bool * list Z) * (bool * list Z)) :=
  inserted <- Insert table_1_2_3 2 2 ;;
  before <- GetValue table_1_2_3 2 ;;
  removed <- Remove table_1_2_3 3 ;;
  after <- GetValue table_1_2_3 2 ;;
  other <- GetValue table_1_2_3 1 ;;
  ret (inserted, before, removed, after, other).




(** *** Pools of one frame with page 0 unpinned, clean and dirty *)

Definition pool1_clean : BufferPoolManager (list Z) :=
  default pool1 (final ((NewPage ;;; UnpinPage 0 false) pool1)).

Definition pool1_dirty : BufferPoolManager (list Z) :=
  default pool1
    (final ((NewPage ;;; write_buffer 0 (replicate BUSTUB_PAGE_SIZE 65) ;;;
             UnpinPage 0 true) pool1)).

(** Page 0, filled with 0x41, has been evicted to the disk by the [NewPage]
    of page 1, which sits in the frame, filled with 0x42, dirty and
    unpinned. *)
Definition pool1_swapped : BufferPoolManager (list Z) :=
  default pool1
    (final ((NewPage ;;; write_buffer 0 (replicate BUSTUB_PAGE_SIZE 65) ;;;
             UnpinPage 0 true ;;;
             NewPage ;;; write_buffer 0 (replicate BUSTUB_PAGE_SIZE 66) ;;;
             UnpinPage 1 true) pool1)).

(** ... and with page 0 still pinned. *)
Definition pool1_pinned : BufferPoolManager (list Z) :=
  default pool1 (final (NewPage pool1)).

(** A table that cannot grow: [directory_max_depth = 0] and
    [bucket_max_size = 1], holding the pair (0, 0). *)
Definition table_0_full : Table := HashTable.mkTable 0 0 0 1.

Definition pool_0_full : BufferPoolManager PD :=
  default pool (final (build_depth_0 0 1 [(0, 0)] pool)).

Definition directory_0_full : HashTable.DirectoryPage :=
  HashTable.mkDir 0 0 (replicate 512 0) (2 :: replicate 511 0).

End Scenario.

(** * Properties of the LRU-K replacer *)

Section ReplacerFacts.

Import Replacer.

(** [operator<] is a strict weak order on nodes that carry the same K. *)
Lemma node_lt_asym (a b : LRUKNode) :
  k_ a = k_ b → node_lt a b = true → node_lt b a = false.
Proof.
  unfold node_lt. intros <-.
  destruct (hsize a <? k_ a), (hsize b <? k_ a); try done;
    rewrite Z.ltb_lt, Z.ltb_ge; lia.
Qed.

Lemma node_ge_trans (a b c : LRUKNode) :
  k_ a = k_ b → k_ b = k_ c →
  node_lt b a = false → node_lt c b = false → node_lt c a = false.
Proof.
  unfold node_lt. intros <- <-.
  destruct (hsize a <? k_ a), (hsize b <? k_ a), (hsize c <? k_ a); try done;
    rewrite !Z.ltb_ge; lia.
Qed.

Lemma node_lt_irrefl (a : LRUKNode) : node_lt a a = false.
Proof.
  unfold node_lt. destruct (hsize a <? k_ a); apply Z.ltb_irrefl.
Qed.

(** One round of the scan: the new victim is the old one or the node just
    seen, and neither of the two is below it. *)
Lemma scan_step_spec (k : Z) (acc : option LRUKNode) (p : Z * LRUKNode) :
  k_ p.2 = k →
  (∀ a, acc = Some a → k_ a = k ∧ is_evictable_ a = true) →
  (∀ a', scan_step acc p = Some a' →
     k_ a' = k ∧ is_evictable_ a' = true ∧ (acc = Some a' ∨ a' = p.2)) ∧
  (∀ a, acc = Some a → ∃ a', scan_step acc p = Some a' ∧ node_lt a a' = false) ∧
  (is_evictable_ p.2 = true →
     ∃ a', scan_step acc p = Some a' ∧ node_lt p.2 a' = false) ∧
  (scan_step acc p = None → acc = None ∧ is_evictable_ p.2 = false).
Proof.
  intros Hkp Hacc. unfold scan_step.
  destruct (is_evictable_ p.2) eqn:Hev; simpl.
  - destruct acc as [a|].
    + destruct (Hacc a eq_refl) as [Hka Hea].
      destruct (node_lt p.2 a) eqn:Hlt; refine (conj _ (conj _ (conj _ _))).
      * intros a' [= <-]. auto.
      * intros a' [= <-]. exists p.2. split; [done|].
        apply node_lt_asym; congruence.
      * intros _. exists p.2. split; [done|]. apply node_lt_irrefl.
      * done.
      * intros a' [= <-]. auto.
      * intros a' [= <-]. exists a. split; [done|]. apply node_lt_irrefl.
      * intros _. by exists a.
      * done.
    + refine (conj _ (conj _ (conj _ _))).
      * intros a' [= <-]. auto.
      * done.
      * intros _. exists p.2. split; [done|]. apply node_lt_irrefl.
      * done.
  - refine (conj _ (conj _ (conj _ _))).
    + intros a' Ha'. destruct (Hacc a' Ha'). auto.
    + intros a ->. exists a. split; [done|]. apply node_lt_irrefl.
    + done.
    + auto.
Qed.

(** What the scan of [Evict] leaves in [victim] after a list of nodes. *)
Lemma scan_spec (k : Z) (l : list (Z * LRUKNode)) :
  ∀ acc : option LRUKNode,
    (∀ p, p ∈ l → k_ p.2 = k) →
    (∀ a, acc = Some a → k_ a = k ∧ is_evictable_ a = true) →
    match scan l acc with
    | None => acc = None ∧ ∀ p, p ∈ l → is_evictable_ p.2 = false
    | Some v =>
        k_ v = k ∧ is_evictable_ v = true ∧
        (acc = Some v ∨ ∃ p, p ∈ l ∧ p.2 = v) ∧
        (∀ a, acc = Some a → node_lt a v = false) ∧
        (∀ p, p ∈ l → is_evictable_ p.2 = true → node_lt p.2 v = false)
    end.
Proof.
  induction l as [|p l IH]; intros acc Hk Hacc.
  - unfold scan; simpl. destruct acc as [a|].
    + destruct (Hacc a eq_refl) as [? ?]. repeat split; auto.
      * intros a' [= <-]. apply node_lt_irrefl.
      * intros q Hq. by apply elem_of_nil in Hq.
    + split; [done|]. intros q Hq. by apply elem_of_nil in Hq.
  - assert (Hkp : k_ p.2 = k) by (apply Hk; left).
    assert (Hkl : ∀ q, q ∈ l → k_ q.2 = k) by (intros q Hq; apply Hk; by right).
    destruct (scan_step_spec k acc p Hkp Hacc) as (HA & HB & HC & HD).
    change (scan (p :: l) acc) with (scan l (scan_step acc p)).
    specialize (IH (scan_step acc p) Hkl).
    lapply IH; [clear IH; intros IH | intros a' Ha'; by apply HA in Ha' as (? & ? & ?)].
    destruct (scan l (scan_step acc p)) as [v|].
    + destruct IH as (Hkv & Hev & Hin & Hmin & Hall).
      split; [done|]. split; [done|]. split; [|split].
      * destruct Hin as [Hin|(q & Hq & Hqv)].
        -- apply HA in Hin as (_ & _ & [?| ->]); [by left|].
           right. exists p. split; [left|done].
        -- right. exists q. split; [by right|done].
      * intros a Ha. destruct (HB a Ha) as (a' & Ha' & Hlt).
        destruct (Hacc a Ha) as [Hka _].
        destruct (HA a' Ha') as (Hka' & _ & _).
        apply (node_ge_trans v a' a); try congruence. by apply Hmin.
      * intros q Hq Hqe. apply elem_of_cons in Hq as [->|Hq]; [|by auto].
        destruct (HC Hqe) as (a' & Ha' & Hlt).
        destruct (HA a' Ha') as (Hka' & _ & _).
        apply (node_ge_trans v a' p.2); try congruence. by apply Hmin.
    + destruct IH as [Hnone Hall]. destruct (HD Hnone) as [-> Hp].
      split; [done|]. intros q Hq.
      apply elem_of_cons in Hq as [->|Hq]; auto.
Qed.

(** A node that is not below the victim is no farther back than it. *)
Lemma not_lt_kdist (now : Z) (n v : LRUKNode) :
  k_ n = k_ v → node_lt n v = false →
  kdist_le (kdist now n) (kdist now v) ∧
  (kdist now n = None → kdist now v = None → back v <= back n) ∧
  (kdist now n ≠ None → kdist now v ≠ None → front v <= front n).
Proof.
  unfold node_lt, kdist, kdist_le. intros ->.
  destruct (hsize n <? k_ v), (hsize v <? k_ v); try done;
    rewrite Z.ltb_ge; intros; repeat split; try done; lia.
Qed.

(** C6: with an evictable node in the store, [Evict] removes and returns an
    evictable node of largest backward K-distance, fewer than K accesses
    counting as +infinity; among nodes of infinite distance it is one with
    the smallest most recent timestamp and among nodes of finite distance
    one with the smallest earliest kept timestamp.  Without an evictable
    node [Evict] fails and changes nothing. *)
Theorem Evict_largest_backward_k_distance (r : LRUKReplacer) :
  store_wf r →
  (¬ has_evictable r → Evict r = (false, INVALID_PAGE_ID, r)) ∧
  (has_evictable r →
   ∃ v,
     node_store_ r !! fid_ v = Some v ∧ is_evictable_ v = true ∧
     Evict r = (true, fid_ v,
                with_store r (delete (fid_ v) (node_store_ r))
                           (wrap64 (curr_size_ r - 1))) ∧
     node_store_ (Evict r).2 !! fid_ v = None ∧
     ∀ i n, node_store_ r !! i = Some n → is_evictable_ n = true →
       kdist_le (kdist (current_timestamp_ r) n) (kdist (current_timestamp_ r) v) ∧
       (kdist (current_timestamp_ r) n = None →
        kdist (current_timestamp_ r) v = None → back v <= back n) ∧
       (kdist (current_timestamp_ r) n ≠ None →
        kdist (current_timestamp_ r) v ≠ None → front v <= front n)).
Proof.
  intros Hwf.
  pose proof (scan_spec (rk_ r) (map_to_list (node_store_ r)) None) as Hscan.
  lapply Hscan; [clear Hscan; intros Hscan|].
  2:{ intros [i n] Hin. apply elem_of_map_to_list in Hin.
      by destruct (Hwf i n Hin) as (_ & ? & _). }
  specialize (Hscan ltac:(done)).
  unfold Evict.
  destruct (scan (map_to_list (node_store_ r)) None) as [v|].
  - destruct Hscan as (Hkv & Hev & Hin & _ & Hall).
    destruct Hin as [?|([i n] & Hin & Hqv)]; [done|]. simpl in Hqv; subst n.
    apply elem_of_map_to_list in Hin.
    destruct (Hwf i v Hin) as (Hfid & _ & _).
    split.
    + intros Hno. exfalso. apply Hno. by exists i, v.
    + intros _. exists v. rewrite Hfid.
      split; [done|]. split; [done|]. split; [done|]. split.
      * simpl. apply lookup_delete_eq.
      * intros j n Hn Hne.
        destruct (Hwf j n Hn) as (_ & Hkn & _).
        apply not_lt_kdist; [congruence|].
        apply (Hall (j, n)); [by apply elem_of_map_to_list|done].
  - destruct Hscan as [_ Hall]. split; [done|].
    intros (i & n & Hin & Hev). exfalso.
    specialize (Hall (i, n)). simpl in Hall.
    rewrite Hall in Hev; [done|]. by apply elem_of_map_to_list.
Qed.

(** C10: [Remove] of a frame id without a node returns without touching the
    replacer, [curr_size_] included; it throws exactly when the frame has a
    node that is not evictable. *)
Theorem Remove_unknown_frame_is_noop (r : LRUKReplacer) (frame_id : Z) :
  (node_store_ r !! frame_id = None → Remove frame_id r = Ok r) ∧
  ((∃ e, Remove frame_id r = Err e) ↔
   (∃ n, node_store_ r !! frame_id = Some n ∧ is_evictable_ n = false)) ∧
  (∀ e, Remove frame_id r = Err e → e = ExecutionException).
Proof.
  unfold Remove. destruct (node_store_ r !! frame_id) as [n|] eqn:Hn.
  - destruct (is_evictable_ n) eqn:Hev; simpl.
    + split; [done|]. split; [|done]. split.
      * by intros [e ?].
      * intros (n' & [= <-] & ?). congruence.
    + split; [done|]. split; [|by intros e [= <-]]. split.
      * intros _. by exists n.
      * intros _. by exists ExecutionException.
  - split; [done|]. split; [|done]. split.
    + by intros [e ?].
    + by intros (n' & ? & ?).
Qed.

End ReplacerFacts.

(** * Properties of the buffer pool manager *)

Section BufferPoolFacts.

Import BufferPool.

Context {Data : Type}.
Variable zero_data : Data.

Implicit Types s : BufferPoolManager Data.

Lemma frame_at_ok s (f : Z) (pg : Page Data) :
  0 <= f → pages_ s !! Z.to_nat f = Some pg → frame_at f s = Ok (pg, s).
Proof.
  intros Hf Hpg. unfold frame_at.
  destruct (f <? 0) eqn:E; [apply Z.ltb_lt in E; lia|]. by rewrite Hpg.
Qed.

(** After [RecordAccess] the frame has a node, so [SetEvictable] does not
    throw. *)
Lemma SetEvictable_after_RecordAccess (f : Z) (b : bool) (r : Replacer.LRUKReplacer) :
  ∃ r', Replacer.SetEvictable f b (Replacer.RecordAccess f r) = Ok r'.
Proof.
  unfold Replacer.SetEvictable, Replacer.RecordAccess; simpl.
  rewrite lookup_insert_eq. eauto.
Qed.

(** The page-table-hit path of [FetchPage]: the pin count goes up by one
    and the replacer is told; nothing else changes. *)
Lemma FetchPage_hit s (page_id f : Z) (pg : Page Data) :
  page_table_ s !! page_id = Some f →
  0 <= f →
  pages_ s !! Z.to_nat f = Some pg →
  ∃ r',
    FetchPage page_id s =
      Ok (Some f,
          set_replacer r'
            (set_pages (<[Z.to_nat f :=
                            mkPage (data_ pg) (page_id_ pg)
                                   (wrap_int (pin_count_ pg + 1)) (is_dirty_ pg)]>
                          (pages_ s)) s)) ∧
    is_Some (Replacer.node_store_ r' !! f) ∧
    ∀ g, is_Some (Replacer.node_store_ (replacer_ s) !! g) →
         is_Some (Replacer.node_store_ r' !! g).
Proof.
  intros Hpt Hf Hpg.
  unfold FetchPage, bind, get. rewrite Hpt.
  rewrite (frame_at_ok s f pg Hf Hpg).
  unfold set_frame, modify, replacer_RecordAccess, replacer_SetEvictable, ret; simpl.
  unfold Replacer.SetEvictable, Replacer.RecordAccess; simpl.
  rewrite lookup_insert_eq. simpl.
  eexists. split; [reflexivity|]. simpl. split.
  - rewrite lookup_insert_eq. eauto.
  - intros g Hg. rewrite !lookup_insert. repeat case_decide; eauto.
Qed.

(** C8: [DeletePage] of a mapped page that is not pinned succeeds and
    leaves the page-table entry of the page in place; only the frame is
    cleared and put on the free list.  A following [FetchPage] of the same id
    therefore finds the entry, hands out the freed frame, which stays on the
    free list, and issues no disk request. *)
Theorem DeletePage_leaves_page_table_entry
    s (page_id f : Z) (pg : Page Data) :
  page_table_ s !! page_id = Some f →
  0 <= f →
  pages_ s !! Z.to_nat f = Some pg →
  pin_count_ pg <= 0 →
  (∀ n, Replacer.node_store_ (replacer_ s) !! f = Some n →
        Replacer.is_evictable_ n = true) →
  ∃ s1,
    DeletePage zero_data page_id s = Ok (true, s1) ∧
    page_table_ s1 = page_table_ s ∧
    page_table_ s1 !! page_id = Some f ∧
    f ∈ free_list_ s1 ∧
    pages_ s1 !! Z.to_nat f = Some (mkPage zero_data INVALID_PAGE_ID 0 false) ∧
    disk_log_ s1 = disk_log_ s ∧
    ∃ s2,
      FetchPage page_id s1 = Ok (Some f, s2) ∧
      disk_log_ s2 = disk_log_ s1 ∧
      f ∈ free_list_ s2 ∧
      pages_ s2 !! Z.to_nat f = Some (mkPage zero_data INVALID_PAGE_ID 1 false).
Proof.
  intros Hpt Hf Hpg Hpin Hrep.
  assert (Hlt : (Z.to_nat f < length (pages_ s))%nat)
    by (eapply lookup_lt_Some; eauto).
  assert (∃ r1, Replacer.Remove f (replacer_ s) = Ok r1) as [r1 Hr1].
  { unfold Replacer.Remove.
    destruct (Replacer.node_store_ (replacer_ s) !! f) as [n|] eqn:Hn; [|eauto].
    rewrite (Hrep n eq_refl); simpl. eauto. }
  unfold DeletePage, bind, get. rewrite Hpt.
  rewrite (frame_at_ok s f pg Hf Hpg).
  destruct (0 <? pin_count_ pg) eqn:E; [apply Z.ltb_lt in E; lia|].
  unfold set_frame, modify, replacer_Remove, DeallocatePage, ret; simpl.
  rewrite Hr1.
  eexists. split; [reflexivity|]. simpl.
  split; [done|]. split; [done|]. split; [set_solver|].
  split; [by apply list_lookup_insert_eq|]. split; [done|].
  match goal with
  | |- ∃ s2, FetchPage _ ?s1 = _ ∧ _ =>
      destruct (FetchPage_hit s1 page_id f
                  (mkPage zero_data INVALID_PAGE_ID 0 false))
        as (r' & Hfetch & _);
        [done | done | by apply list_lookup_insert_eq |]
  end.
  rewrite Hfetch. eexists. split; [reflexivity|]. simpl.
  split; [done|]. split; [set_solver|].
  rewrite list_insert_insert_eq. by apply list_lookup_insert_eq.
Qed.

(** C9: [FlushPage] of a mapped page sends a snapshot of the buffer to the
    disk and changes nothing in the pool: the frame keeps its dirty flag, pin
    count, page id and buffer.  So when the frame was dirty and is the next
    victim, [NewPage] writes the same page to the disk once more. *)
Theorem FlushPage_keeps_dirty_flag s (page_id f : Z) (pg : Page Data) :
  page_table_ s !! page_id = Some f →
  0 <= f →
  pages_ s !! Z.to_nat f = Some pg →
  ∃ s1,
    FlushPage page_id s = Ok (true, s1) ∧
    pages_ s1 = pages_ s ∧
    page_table_ s1 = page_table_ s ∧
    replacer_ s1 = replacer_ s ∧
    free_list_ s1 = free_list_ s ∧
    next_page_id_ s1 = next_page_id_ s ∧
    disk_ s1 = <[page_id_ pg := data_ pg]> (disk_ s) ∧
    disk_log_ s1 = disk_log_ s ++ [mkRequest true (page_id_ pg) (data_ pg)] ∧
    (is_dirty_ pg = true →
     free_list_ s = [] →
     (Replacer.Evict (replacer_ s)).1 = (true, f) →
     ∃ s2,
       NewPage s1 = Ok (Some (next_page_id_ s, f), s2) ∧
       disk_log_ s2 =
         disk_log_ s ++ [mkRequest true (page_id_ pg) (data_ pg);
                         mkRequest true (page_id_ pg) (data_ pg)]).
Proof.
  intros Hpt Hf Hpg.
  unfold FlushPage, bind, get. rewrite Hpt.
  rewrite (frame_at_ok s f pg Hf Hpg).
  unfold disk_write, modify, ret; simpl.
  eexists. split; [reflexivity|]. simpl.
  do 7 (split; [done|]).
  intros Hdirty Hfree Hevict.
  unfold NewPage, choose_frame, bind, get; simpl. rewrite Hfree.
  unfold replacer_Evict; simpl.
  destruct (Replacer.Evict (replacer_ s)) as [[ok fid] r'] eqn:Hev.
  simpl in Hevict. injection Hevict as -> ->. simpl.
  unfold ret, frame_at; simpl.
  destruct (f <? 0) eqn:E'; [apply Z.ltb_lt in E'; lia|].
  rewrite Hpg. simpl.
  unfold modify, write_back; simpl. rewrite Hdirty.
  unfold disk_write, modify, AllocatePage, set_frame, modify; simpl.
  unfold replacer_RecordAccess, replacer_SetEvictable, modify; simpl.
  destruct (SetEvictable_after_RecordAccess f false r') as [r'' ->].
  eexists. split; [reflexivity|]. simpl.
  by rewrite <- app_assoc.
Qed.

(** What a successful [NewPage] does to the chosen frame, whether it comes
    from the free list or from the replacer: the metadata is set, the id is
    the next fresh one, the mapping is installed, the replacer has recorded
    an access and holds the frame as not evictable.  The buffer is the one
    the frame had before: [NewPage] never resets it. *)
Lemma NewPage_success s s' (page_id f : Z) :
  NewPage s = Ok (Some (page_id, f), s') →
  ∃ old r,
    (r = replacer_ s ∨ r = (Replacer.Evict (replacer_ s)).2) ∧
    pages_ s !! Z.to_nat f = Some old ∧
    pages_ s' !! Z.to_nat f = Some (mkPage (data_ old) page_id 1 false) ∧
    page_id = next_page_id_ s ∧
    next_page_id_ s' = wrap_int (page_id + 1) ∧
    page_table_ s' !! page_id = Some f ∧
    Replacer.SetEvictable f false (Replacer.RecordAccess f r) = Ok (replacer_ s') ∧
    (∃ n, Replacer.node_store_ (replacer_ s') !! f = Some n ∧
          Replacer.is_evictable_ n = false).
Proof.
  unfold NewPage, choose_frame, bind, get.
  destruct (free_list_ s) as [|f0 rest] eqn:Hfree; simpl.
  - unfold replacer_Evict.
    destruct (Replacer.Evict (replacer_ s)) as [[ok fid] r'] eqn:Hev; simpl.
    destruct ok; simpl; [|done].
    unfold frame_at; simpl. destruct (fid <? 0) eqn:E; [done|].
    destruct (pages_ s !! Z.to_nat fid) as [old|] eqn:Hold; [|done]. simpl.
    unfold write_back, disk_write, modify, ret, AllocatePage, set_frame, modify,
      replacer_RecordAccess, replacer_SetEvictable.
    destruct (SetEvictable_after_RecordAccess fid false r') as [r'' Hr''].
    destruct (is_dirty_ old); simpl; rewrite Hr''; simpl;
      intros [= <- <- <-]; simpl;
      (exists old, r'; split; [by right|]; split; [done|];
       split; [apply list_lookup_insert_eq; by eapply lookup_lt_Some|];
       split; [done|]; split; [done|];
       split; [apply lookup_insert_eq|]; split; [done|];
       revert Hr''; unfold Replacer.SetEvictable, Replacer.RecordAccess; simpl;
       rewrite lookup_insert_eq; simpl; intros [= <-]; simpl;
       rewrite lookup_insert_eq; eauto).
  - unfold modify, ret, frame_at; simpl. destruct (f0 <? 0) eqn:E; [done|].
    destruct (pages_ s !! Z.to_nat f0) as [old|] eqn:Hold; [|done]. simpl.
    unfold write_back, disk_write, modify, ret, AllocatePage, set_frame, modify,
      replacer_RecordAccess, replacer_SetEvictable.
    destruct (SetEvictable_after_RecordAccess f0 false (replacer_ s)) as [r'' Hr''].
    destruct (is_dirty_ old); simpl; rewrite Hr''; simpl;
      intros [= <- <- <-]; simpl;
      (exists old, (replacer_ s); split; [by left|]; split; [done|];
       split; [apply list_lookup_insert_eq; by eapply lookup_lt_Some|];
       split; [done|]; split; [done|];
       split; [apply lookup_insert_eq|]; split; [done|];
       revert Hr''; unfold Replacer.SetEvictable, Replacer.RecordAccess; simpl;
       rewrite lookup_insert_eq; simpl; intros [= <-]; simpl;
       rewrite lookup_insert_eq; eauto).
Qed.

End BufferPoolFacts.

(** * Pool operations that leave the pages alone *)

Section QuietSteps.

Import BufferPool.

Context {Data : Type}.
Variable zero_data : Data.

Implicit Types s : BufferPoolManager Data.

Lemma bind_ok {A B} (m : M Data A) (k : A → M Data B) s s' (a : A) :
  m s = Ok (a, s') → bind m k s = k a s'.
Proof. unfold bind. by intros ->. Qed.

Lemma bind_ret_l {A B} (a : A) (k : A → M Data B) s :
  bind (ret a) k s = k a s.
Proof. done. Qed.

Lemma bind_assoc {A B C} (m : M Data A) (f : A → M Data B) (g : B → M Data C) s :
  bind (bind m f) g s = bind m (λ x, bind (f x) g) s.
Proof. unfold bind. by destruct (m s) as [[a s']|]. Qed.

Lemma quiet_step_refl s : quiet_step s s.
Proof. by repeat split. Qed.

Lemma quiet_step_trans s1 s2 s3 :
  quiet_step s1 s2 → quiet_step s2 s3 → quiet_step s1 s3.
Proof.
  intros [(?&?&?&?&?&?) Hn1] [(?&?&?&?&?&?) Hn2].
  split; [repeat split; congruence|]. auto.
Qed.

Lemma same_pages_lookup s s' (i : nat) :
  same_pages s s' →
  data_ <$> pages_ s' !! i = data_ <$> pages_ s !! i ∧
  page_id_ <$> pages_ s' !! i = page_id_ <$> pages_ s !! i.
Proof.
  intros (Hp & _).
  apply (f_equal (λ l, l !! i)) in Hp. rewrite !list_lookup_fmap in Hp.
  destruct (pages_ s' !! i), (pages_ s !! i); simpl in *; try done.
  by injection Hp as -> ->.
Qed.

Lemma resident_quiet s s' (page_id f : Z) (d : Data) :
  quiet_step s s' → resident s page_id f d → resident s' page_id f d.
Proof.
  intros [Hs _] (Hpt & Hf & Hd & Hid).
  destruct (same_pages_lookup s s' (Z.to_nat f) Hs) as [Hd' Hid'].
  destruct Hs as (_ & Hpt' & _).
  repeat split; congruence.
Qed.

Lemma resident_frame s (page_id f : Z) (d : Data) :
  resident s page_id f d →
  ∃ pg, pages_ s !! Z.to_nat f = Some pg ∧ data_ pg = d ∧ page_id_ pg = page_id.
Proof.
  intros (_ & _ & Hd & Hid).
  destruct (pages_ s !! Z.to_nat f) as [pg|]; [|done].
  exists pg. simpl in *. split; [done|]. split; congruence.
Qed.

(** Replacing the metadata of a frame keeps the pages. *)
Lemma same_pages_set_metadata s (f : Z) (pg : Page Data) (pin : Z) (dirty : bool)
    (r : Replacer.LRUKReplacer) :
  pages_ s !! Z.to_nat f = Some pg →
  same_pages s
    (set_replacer r
       (set_pages (<[Z.to_nat f := mkPage (data_ pg) (page_id_ pg) pin dirty]>
                     (pages_ s)) s)).
Proof.
  intros Hpg. repeat split; simpl.
  rewrite list_fmap_insert. simpl.
  apply list_insert_id. by rewrite list_lookup_fmap, Hpg.
Qed.

(** [FetchPageRead] / [FetchPageWrite] of a resident page. *)
Lemma FetchPageGuarded_resident s (page_id f : Z) (d : Data) :
  resident s page_id f d →
  ∃ s',
    FetchPageGuarded page_id s = Ok (mkGuard (Some f) false, s') ∧
    quiet_step s s' ∧
    is_Some (Replacer.node_store_ (replacer_ s') !! f).
Proof.
  intros Hres. destruct (resident_frame s _ _ _ Hres) as (pg & Hpg & _ & _).
  destruct Hres as (Hpt & Hf & _).
  unfold FetchPageGuarded, bind, get, ret; simpl.
  unfold FetchPage, bind, get. rewrite Hpt.
  unfold frame_at. destruct (f <? 0) eqn:E; [apply Z.ltb_lt in E; lia|].
  rewrite Hpg.
  unfold set_frame, modify, replacer_RecordAccess, replacer_SetEvictable, ret; simpl.
  unfold Replacer.SetEvictable, Replacer.RecordAccess; simpl.
  rewrite lookup_insert_eq. simpl.
  eexists. split; [reflexivity|]. split; [split|].
  - by apply same_pages_set_metadata.
  - intros g Hg. simpl. rewrite !lookup_insert. repeat case_decide; eauto.
  - simpl. rewrite lookup_insert_eq. eauto.
Qed.

(** [UnpinPage] of a resident page whose frame the replacer knows. *)
Lemma UnpinPage_resident s (page_id f : Z) (d : Data) (is_dirty : bool) :
  resident s page_id f d →
  is_Some (Replacer.node_store_ (replacer_ s) !! f) →
  ∃ b s', UnpinPage page_id is_dirty s = Ok (b, s') ∧ quiet_step s s'.
Proof.
  intros Hres [n Hn]. destruct (resident_frame s _ _ _ Hres) as (pg & Hpg & _ & _).
  destruct Hres as (Hpt & Hf & _).
  unfold UnpinPage, bind, get. rewrite Hpt.
  unfold frame_at. destruct (f <? 0) eqn:E; [apply Z.ltb_lt in E; lia|].
  rewrite Hpg.
  destruct (pin_count_ pg =? 0).
  { exists false, s. split; [done|]. apply quiet_step_refl. }
  unfold set_frame, modify, replacer_SetEvictable, ret; simpl.
  destruct (wrap_int (pin_count_ pg - 1) =? 0); simpl.
  - unfold Replacer.SetEvictable. rewrite Hn. simpl.
    eexists _, _. split; [reflexivity|]. split.
    + by apply same_pages_set_metadata.
    + intros g Hg. simpl. rewrite lookup_insert. case_decide; eauto.
  - eexists _, _. split; [reflexivity|]. split.
    + pose proof (same_pages_set_metadata s f pg
                    (wrap_int (pin_count_ pg - 1)) (is_dirty_ pg || is_dirty)
                    (replacer_ s) Hpg) as H.
      by destruct s.
    + done.
Qed.

(** Dropping a guard on a resident page. *)
Lemma Drop_resident s (page_id f : Z) (d : Data) (dirty : bool) :
  resident s page_id f d →
  is_Some (Replacer.node_store_ (replacer_ s) !! f) →
  ∃ s', Drop (mkGuard (Some f) dirty) s = Ok (tt, s') ∧ quiet_step s s'.
Proof.
  intros Hres Hn. destruct (resident_frame s _ _ _ Hres) as (pg & Hpg & _ & Hid).
  destruct (UnpinPage_resident s page_id f d dirty Hres Hn) as (b & s' & Hu & Hq).
  unfold Drop; simpl. unfold bind, frame_at.
  destruct Hres as (_ & Hf & _).
  destruct (f <? 0) eqn:E; [apply Z.ltb_lt in E; lia|].
  rewrite Hpg, Hid, Hu. eauto.
Qed.

Lemma read_buffer_resident s (page_id f : Z) (d : Data) :
  resident s page_id f d → read_buffer f s = Ok (d, s).
Proof.
  intros Hres. destruct (resident_frame s _ _ _ Hres) as (pg & Hpg & Hd & _).
  destruct Hres as (_ & Hf & _).
  unfold read_buffer, bind, frame_at, ret.
  destruct (f <? 0) eqn:E; [apply Z.ltb_lt in E; lia|].
  by rewrite Hpg, Hd.
Qed.

(** Writing back the buffer a frame already holds. *)
Lemma write_buffer_same s (page_id f : Z) (d : Data) :
  resident s page_id f d →
  ∃ s', write_buffer f d s = Ok (tt, s') ∧ quiet_step s s'.
Proof.
  intros Hres. destruct (resident_frame s _ _ _ Hres) as (pg & Hpg & Hd & _).
  destruct Hres as (_ & Hf & _).
  unfold write_buffer, bind, frame_at, set_frame, modify.
  destruct (f <? 0) eqn:E; [apply Z.ltb_lt in E; lia|].
  rewrite Hpg. eexists. split; [reflexivity|]. split; [|done].
  pose proof (same_pages_set_metadata s f pg (pin_count_ pg) (is_dirty_ pg)
                (replacer_ s) Hpg) as H.
  rewrite Hd in H. by destruct s.
Qed.

End QuietSteps.

(** * Properties of the copy-on-write trie *)

Section TrieFacts.

Import Trie.

Context {Ty Payload : Type} `{EqDecision Ty}.

Abbreviation node := (TrieNode Ty Payload).
Implicit Types (o : option node).
Abbreviation trie := (Trie Ty Payload).

Lemma Get_find (T : Ty) (key : string) (t : trie) :
  Get T key t =
  match find key t with
  | Some (T', v) => if decide (T' = T) then Some v else None
  | None => None
  end.
Proof.
  unfold Get, find. destruct t as [root|]; [|done].
  by destruct (walk key root).
Qed.

Lemma put_loop_put_at (rest : string) :
  ∀ (k : ascii) (value_p : Ty * Payload) (n : node),
    put_loop (String k rest) value_p n =
    Node (<[k := put_at rest value_p (children_ n !! k)]> (children_ n))
         (value_ n).
Proof.
  induction rest as [|k' rest IH]; intros k value_p n.
  - simpl. by destruct (children_ n !! k).
  - change (put_loop (String k (String k' rest)) value_p n)
      with (Node (<[k := put_loop (String k' rest) value_p
                            (match children_ n !! k with
                             | None => Node ∅ None
                             | Some child => child
                             end)]> (children_ n)) (value_ n)).
    rewrite IH. by destruct (children_ n !! k).
Qed.

Lemma Put_put_at (T : Ty) (key : string) (v : Payload) (t : trie) :
  Put T key v t = Some (put_at key (T, v) t).
Proof.
  unfold Put. destruct key as [|k rest].
  - by destruct t.
  - rewrite put_loop_put_at. by destruct t.
Qed.

(** After a put, the key holds the new value and every other key holds what
    it held. *)
Lemma find_put_at (key : string) :
  ∀ (key' : string) (value_p : Ty * Payload) (o : option node),
    find key' (Some (put_at key value_p o)) =
    if decide (key' = key) then Some value_p else find key' o.
Proof.
  induction key as [|k rest IH]; intros key' value_p o.
  - destruct key' as [|k' rest'].
    + by destruct o.
    + rewrite decide_False by done. by destruct o.
  - destruct key' as [|k' rest'].
    + rewrite decide_False by done. by destruct o.
    + simpl. rewrite lookup_insert. destruct (decide (k = k')) as [<-|Hk].
      * specialize (IH rest' value_p
                       (children_ (match o with
                                   | None => Node ∅ None
                                   | Some c => c
                                   end) !! k)).
        unfold find in IH at 1. rewrite IH.
        destruct (decide (rest' = rest)) as [->|Hr].
        -- by rewrite decide_True.
        -- rewrite decide_False by congruence.
           destruct o as [c|]; simpl; [|done].
           by destruct (children_ c !! k).
      * rewrite decide_False by congruence. by destruct o.
Qed.

(** [remove] reports a removal whenever the key holds a value, and then the
    returned subtree no longer holds one under the key. *)
Lemma remove_spec (rest : string) :
  ∀ (cur : node) (k : ascii),
    (is_Some (find (String k rest) (Some cur)) → (remove cur k rest).1 = true) ∧
    ((remove cur k rest).1 = true →
     find (String k rest) (remove cur k rest).2 = None).
Proof.
  induction rest as [|k' rest IH]; intros cur k; simpl.
  - destruct (children_ cur !! k) as [child|] eqn:Hc; simpl.
    + destruct (is_value_node_ child) eqn:Hiv; simpl.
      * destruct (negb (size (children_ child) =? 0)%nat); simpl.
        -- split; [done|]. intros _. by rewrite lookup_insert_eq.
        -- destruct ((1 <? size (children_ cur))%nat || is_value_node_ cur);
             simpl; (split; [done|]); intros _;
             [by rewrite lookup_delete_eq|done].
      * split; [|done]. intros [vp Hvp]. unfold is_value_node_ in Hiv.
        by rewrite Hvp in Hiv.
    + split; [by intros [? ?]|done].
  - destruct (children_ cur !! k) as [child|] eqn:Hc; simpl.
    + destruct (IH child k') as [IH1 IH2]. simpl in IH1.
      destruct (remove child k' rest) as [do_remove new_child] eqn:Hr.
      simpl in *.
      destruct do_remove; simpl.
      * specialize (IH2 eq_refl).
        destruct new_child as [c|]; simpl.
        -- split; [done|]. intros _.
           rewrite lookup_insert_eq. simpl in IH2. exact IH2.
        -- destruct ((1 <? size (children_ cur))%nat || is_value_node_ cur);
             simpl; (split; [done|]); intros _;
             [by rewrite lookup_delete_eq|done].
      * split; [|done]. intros Hs. by apply IH1 in Hs.
    + split; [by intros [? ?]|done].
Qed.

Lemma find_Remove (key : string) (t : trie) :
  is_Some (find key t) → find key (Remove key t) = None.
Proof.
  intros Hs. destruct t as [root|]; [|by destruct Hs].
  destruct key as [|k rest].
  - simpl in *. unfold is_value_node_.
    destruct (value_ root) eqn:Hv; [done|by destruct Hs].
  - destruct (remove_spec rest root k) as [H1 H2].
    unfold Remove.
    destruct (remove root k rest) as [do_delete new_node].
    simpl in H1, H2. pose proof (H1 Hs) as ->. by apply H2.
Qed.

(** C7: a key reads back the value it was put with; after a put and a remove
    of the same key it reads as null; a put of another key leaves it
    alone. *)
Theorem Put_Get_Remove_laws (t : trie) :
  (∀ T k v, Get T k (Put T k v t) = Some v) ∧
  (∀ T T' k v, Get T' k (Remove k (Put T k v t)) = None) ∧
  (∀ T1 T2 k1 k2 v1 v2,
     k1 ≠ k2 → Get T1 k1 (Put T2 k2 v2 (Put T1 k1 v1 t)) = Some v1).
Proof.
  split; [|split].
  - intros T k v. rewrite Get_find, Put_put_at, find_put_at.
    by rewrite !decide_True.
  - intros T T' k v. rewrite Get_find, find_Remove; [done|].
    rewrite Put_put_at, find_put_at. rewrite decide_True by done. eauto.
  - intros T1 T2 k1 k2 v1 v2 Hne.
    rewrite Get_find, !Put_put_at, find_put_at.
    rewrite decide_False by done. rewrite find_put_at.
    by rewrite !decide_True.
Qed.

End TrieFacts.

(** * Directory updates of split and merge *)

Section DirectoryFacts.

Import HashTable.

(** ** Low bits *)

Lemma low_bits_mod (i n : Z) : 0 <= n → low_bits i n = i mod 2 ^ n.
Proof. intros Hn. unfold low_bits. by apply Z.land_ones. Qed.

Lemma low_bits_range (i n : Z) : 0 <= n → 0 <= low_bits i n < 2 ^ n.
Proof.
  intros Hn. rewrite low_bits_mod by done. apply Z.mod_pos_bound. lia.
Qed.

Lemma low_bits_weaken (i j n m : Z) :
  0 <= n <= m → low_bits i m = low_bits j m → low_bits i n = low_bits j n.
Proof.
  intros Hnm H. unfold low_bits in *.
  apply Z.bits_inj'. intros b Hb.
  rewrite !Z.land_spec.
  destruct (decide (b < n)) as [Hlt|Hge].
  - apply (f_equal (λ x, Z.testbit x b)) in H.
    rewrite !Z.land_spec, !Z.ones_spec_low in H by lia.
    rewrite !Z.ones_spec_low by lia. exact H.
  - rewrite !Z.ones_spec_high by lia. by rewrite !andb_false_r.
Qed.

Lemma low_bits_testbit (i j n : Z) :
  0 <= n → low_bits i (n + 1) = low_bits j (n + 1) →
  Z.testbit i n = Z.testbit j n.
Proof.
  intros Hn. rewrite !low_bits_mod by lia. intros H.
  rewrite <- (Z.mod_pow2_bits_low i (n + 1) n) by lia.
  rewrite <- (Z.mod_pow2_bits_low j (n + 1) n) by lia.
  by rewrite H.
Qed.

Lemma low_bits_succ (i j n : Z) :
  0 <= n → low_bits i n = low_bits j n → Z.testbit i n = Z.testbit j n →
  low_bits i (n + 1) = low_bits j (n + 1).
Proof.
  intros Hn Hlow Hbit. unfold low_bits in *.
  apply Z.bits_inj'. intros m Hm.
  rewrite !Z.land_spec.
  destruct (decide (m < n)) as [Hlt|Hge].
  - apply (f_equal (λ x, Z.testbit x m)) in Hlow.
    rewrite !Z.land_spec, !Z.ones_spec_low in Hlow by lia.
    rewrite !Z.ones_spec_low by lia. exact Hlow.
  - destruct (decide (m = n)) as [->|Hne].
    + rewrite !Z.ones_spec_low by lia. by rewrite Hbit.
    + rewrite !Z.ones_spec_high by lia. by rewrite !andb_false_r.
Qed.

Lemma land_shl1_testbit (k n : Z) :
  0 <= n → (Z.land k (Z.shiftl 1 n) =? 0) = negb (Z.testbit k n).
Proof.
  intros Hn. rewrite Z.shiftl_1_l.
  destruct (Z.testbit k n) eqn:Hb; simpl.
  - apply Z.eqb_neq. intros H0.
    apply (f_equal (λ x, Z.testbit x n)) in H0.
    rewrite Z.land_spec, Hb, Z.pow2_bits_true, Z.bits_0 in H0 by done. done.
  - apply Z.eqb_eq. apply Z.bits_inj'. intros m Hm.
    rewrite Z.land_spec, Z.bits_0, Z.pow2_bits_eqb by done.
    destruct (Z.eqb_spec n m) as [<-|?]; [by rewrite Hb|by rewrite andb_false_r].
Qed.

(** Membership in the slots visited by a loop that starts at the low [n]
    bits of some index and steps by [2 ^ n]. *)
Lemma visited_low_bits (k start n : Z) :
  0 <= n → 0 <= k → 0 <= start < 2 ^ n →
  (start <= k ∧ (k - start) mod 2 ^ n = 0) ↔ low_bits k n = start.
Proof.
  intros Hn Hk Hs. rewrite low_bits_mod by done.
  assert (Hp : 0 < 2 ^ n) by lia.
  split.
  - intros [Hle Hmod].
    apply Z.mod_divide in Hmod as [q Hq]; [|lia].
    replace k with (start + q * 2 ^ n) by lia.
    rewrite Z.mod_add by lia. apply Z.mod_small. lia.
  - intros <-. pose proof (Z.mod_pos_bound k (2 ^ n) Hp).
    pose proof (Z.div_mod k (2 ^ n) ltac:(lia)) as Hdm.
    pose proof (Z.div_pos k (2 ^ n) Hk Hp).
    split; [lia|].
    replace (k - k mod 2 ^ n) with (k / 2 ^ n * 2 ^ n) by lia.
    apply Z.mod_mul. lia.
Qed.

(** ** Array accesses inside the directory *)

Lemma same_shape_refl (d : DirectoryPage) : same_shape d d.
Proof. by repeat split. Qed.

Lemma same_shape_trans (d1 d2 d3 : DirectoryPage) :
  same_shape d1 d2 → same_shape d2 d3 → same_shape d1 d3.
Proof. intros (?&?&?&?) (?&?&?&?). repeat split; congruence. Qed.

Lemma dir_shape_same (d d' : DirectoryPage) :
  same_shape d d' → dir_shape d → dir_shape d'.
Proof.
  intros (Hm & Hg & Hl & Hb) (? & ? & ? & ?). unfold dir_shape.
  rewrite Hm, Hg, Hl, Hb. done.
Qed.

Lemma shape_pow (d : DirectoryPage) :
  dir_shape d →
  0 < 2 ^ global_depth_ d ∧ 2 ^ global_depth_ d <= 2 ^ max_depth_ d ∧
  2 ^ max_depth_ d <= 2 ^ 31.
Proof.
  intros ((? & ?) & ? & _). split; [lia|].
  split; apply Z.pow_le_mono_r; lia.
Qed.

Lemma dir_Size_shape (d : DirectoryPage) :
  dir_shape d → dir_Size d = Ok (2 ^ global_depth_ d).
Proof.
  intros ((? & ?) & ? & _). unfold dir_Size, shl1.
  rewrite (proj2 (Z.leb_le _ _)) by lia.
  rewrite (proj2 (Z.ltb_lt _ _)) by lia. simpl.
  by rewrite Z.shiftl_1_l.
Qed.

Lemma check_idx_shape (d : DirectoryPage) (idx : Z) :
  dir_shape d → idx < 2 ^ global_depth_ d → check_idx idx d = Ok tt.
Proof.
  intros Hs Hi. unfold check_idx. rewrite (dir_Size_shape d Hs). simpl.
  unfold assert. by rewrite (proj2 (Z.ltb_lt _ _)).
Qed.

Lemma arr_get_ok (a : list Z) (i : Z) :
  0 <= i < Z.of_nat (length a) →
  ∃ x, a !! Z.to_nat i = Some x ∧ arr_get a i = Ok x.
Proof.
  intros Hi. unfold arr_get.
  rewrite (proj2 (Z.ltb_ge _ _)) by lia.
  destruct (lookup_lt_is_Some_2 a (Z.to_nat i)) as [x Hx]; [lia|].
  exists x. by rewrite Hx.
Qed.

Lemma arr_set_ok (a : list Z) (i x : Z) :
  0 <= i < Z.of_nat (length a) →
  arr_set a i x = Ok (<[Z.to_nat i := x]> a).
Proof.
  intros Hi. unfold arr_set.
  rewrite (proj2 (Z.leb_le _ _)) by lia.
  by rewrite (proj2 (Z.ltb_lt _ _)) by lia.
Qed.

Lemma slot_in_range (d : DirectoryPage) (i : Z) :
  dir_shape d → 0 <= i < 2 ^ global_depth_ d →
  ∃ ld id, local_depths_ d !! Z.to_nat i = Some ld ∧
           bucket_page_ids_ d !! Z.to_nat i = Some id ∧
           slot d i = Some (ld, id).
Proof.
  intros Hs Hi. pose proof (shape_pow d Hs) as (? & ? & ?).
  destruct Hs as (_ & _ & Hl & Hb).
  destruct (lookup_lt_is_Some_2 (local_depths_ d) (Z.to_nat i)) as [ld Hld]; [lia|].
  destruct (lookup_lt_is_Some_2 (bucket_page_ids_ d) (Z.to_nat i)) as [id Hid]; [lia|].
  exists ld, id. unfold slot. by rewrite Hld, Hid.
Qed.

(** A slot after the two arrays were written at [idx]. *)
Lemma slot_update (d : DirectoryPage) (idx k ld id : Z) (lds ids : list Z) :
  0 <= idx → 0 <= k →
  lds = <[Z.to_nat idx := ld]> (local_depths_ d) →
  ids = <[Z.to_nat idx := id]> (bucket_page_ids_ d) →
  is_Some (slot d idx) →
  slot (mkDir (max_depth_ d) (global_depth_ d) lds ids) k =
  if decide (k = idx) then Some (ld, id) else slot d k.
Proof.
  intros Hidx Hk -> -> [[ld0 id0] Hs]. unfold slot in *; simpl.
  destruct (local_depths_ d !! Z.to_nat idx) as [x|] eqn:Hx; [|done].
  destruct (bucket_page_ids_ d !! Z.to_nat idx) as [y|] eqn:Hy; [|done].
  case_decide as Hki.
  - subst k. rewrite !list_lookup_insert_eq; [done| |];
      eapply lookup_lt_Some; eauto.
  - rewrite !list_lookup_insert_ne by lia. done.
Qed.

(** ** The bodies of the two update loops *)

Lemma split_update_body_slot (step new_bucket_page_id : Z) :
  slot_body (split_update_body step new_bucket_page_id)
            (split_slot step new_bucket_page_id).
Proof.
  intros idx d Hs Hi.
  pose proof (shape_pow d Hs) as (? & ? & ?).
  destruct (slot_in_range d idx Hs Hi) as (ld & id & Hld & Hid & Hslot).
  pose proof Hs as (_ & _ & Hl & Hb).
  unfold split_update_body, dir_IncrLocalDepth.
  rewrite (check_idx_shape d idx Hs) by lia. simpl.
  destruct (arr_get_ok (local_depths_ d) idx) as (x & Hx & ->); [lia|].
  rewrite Hld in Hx. injection Hx as <-. simpl.
  unfold set_local_depth. rewrite arr_set_ok by lia. simpl.
  set (d1 := mkDir _ _ _ _).
  assert (Hs1 : dir_shape d1).
  { apply (dir_shape_same d); [|done]. repeat split; simpl.
    by rewrite length_insert. }
  unfold split_slot. rewrite Hslot. simpl.
  destruct (Z.land idx step =? 0); simpl.
  - exists d1. split; [done|]. split.
    { repeat split; simpl. by rewrite length_insert. }
    intros k Hk. unfold d1.
    rewrite (slot_update d idx k ((ld + 1) mod 256) id
               _ _ ltac:(lia) Hk eq_refl
               (eq_sym (list_insert_id _ _ _ Hid))); [done|eauto].
  - unfold dir_SetBucketPageId.
    rewrite (check_idx_shape d1 idx Hs1) by (simpl; lia). simpl.
    rewrite arr_set_ok by lia. simpl.
    eexists. split; [done|]. split.
    { repeat split; simpl; by rewrite length_insert. }
    intros k Hk.
    rewrite (slot_update d idx k ((ld + 1) mod 256) new_bucket_page_id
               _ _ ltac:(lia) Hk eq_refl eq_refl); [done|eauto].
Qed.

Lemma merge_update_body_slot (bucket_page_id : Z) :
  slot_body (merge_update_body bucket_page_id) (merge_slot bucket_page_id).
Proof.
  intros idx d Hs Hi.
  pose proof (shape_pow d Hs) as (? & ? & ?).
  destruct (slot_in_range d idx Hs Hi) as (ld & id & Hld & Hid & Hslot).
  pose proof Hs as (_ & _ & Hl & Hb).
  unfold merge_update_body, dir_DecrLocalDepth.
  rewrite (check_idx_shape d idx Hs) by lia. simpl.
  destruct (arr_get_ok (local_depths_ d) idx) as (x & Hx & ->); [lia|].
  rewrite Hld in Hx. injection Hx as <-. simpl.
  unfold set_local_depth. rewrite arr_set_ok by lia. simpl.
  set (d1 := mkDir _ _ _ _).
  assert (Hs1 : dir_shape d1).
  { apply (dir_shape_same d); [|done]. repeat split; simpl.
    by rewrite length_insert. }
  unfold dir_SetBucketPageId.
  rewrite (check_idx_shape d1 idx Hs1) by (simpl; lia). simpl.
  rewrite arr_set_ok by lia. simpl.
  eexists. split; [done|]. split.
  { repeat split; simpl; by rewrite length_insert. }
  intros k Hk. unfold merge_slot. rewrite Hslot. simpl.
  rewrite (slot_update d idx k ((ld - 1) mod 256) bucket_page_id
             _ _ ltac:(lia) Hk eq_refl eq_refl); [done|eauto].
Qed.

(** ** The loop over the slots *)

Lemma visited_first (start step dir_size : Z) :
  0 < step → start < dir_size → visited start step dir_size start.
Proof.
  intros ? ?. split; [lia|]. by rewrite Z.sub_diag, Z.mod_0_l by lia.
Qed.

Lemma visited_next (start step dir_size k : Z) :
  0 < step → k ≠ start →
  visited start step dir_size k ↔ visited (start + step) step dir_size k.
Proof.
  intros Hstep Hne. unfold visited. split.
  - intros [[Hle Hlt] Hmod].
    apply Z.mod_divide in Hmod as [q Hq]; [|lia].
    assert (1 <= q) by nia.
    split; [nia|].
    replace (k - (start + step)) with ((q - 1) * step) by lia.
    apply Z.mod_mul. lia.
  - intros [[Hle Hlt] Hmod].
    apply Z.mod_divide in Hmod as [q Hq]; [|lia].
    split; [lia|].
    replace (k - start) with ((q + 1) * step) by lia.
    apply Z.mod_mul. lia.
Qed.

Lemma for_slots_spec (body : Z → DirectoryPage → result DirectoryPage)
    (g : Z → Z * Z → Z * Z) (step dir_size : Z) :
  slot_body body g →
  0 < step → dir_size + step <= 2 ^ 32 →
  ∀ (fuel : nat) (idx : Z) (d : DirectoryPage),
    dir_shape d → 2 ^ global_depth_ d = dir_size → 0 <= idx →
    (Z.to_nat (dir_size - idx) < fuel)%nat →
    ∃ d', for_slots fuel idx step dir_size body d = Ok d' ∧
          same_shape d d' ∧
          ∀ k, 0 <= k →
               slot d' k = if decide (visited idx step dir_size k)
                           then g k <$> slot d k else slot d k.
Proof.
  intros Hbody Hstep Hbound.
  induction fuel as [|fuel IH]; intros idx d Hs Hsize Hidx Hfuel; [lia|].
  simpl. destruct (idx <? dir_size) eqn:Hlt.
  - apply Z.ltb_lt in Hlt.
    destruct (Hbody idx d Hs ltac:(lia)) as (d1 & -> & Hsame1 & Hslot1). simpl.
    assert (Hw : wrap32 (idx + step) = idx + step).
    { unfold wrap32, uint32_max. apply Z.mod_small. lia. }
    rewrite Hw.
    destruct (IH (idx + step) d1) as (d' & Hrun & Hsame & Hslot).
    + by apply (dir_shape_same d).
    + destruct Hsame1 as (_ & -> & _). done.
    + lia.
    + lia.
    + exists d'. split; [done|]. split; [by eapply same_shape_trans|].
      intros k Hk. rewrite (Hslot k Hk), (Hslot1 k Hk).
      destruct (decide (k = idx)) as [->|Hne].
      * rewrite decide_False by (unfold visited; lia).
        rewrite decide_True by (by apply visited_first). done.
      * pose proof (visited_next idx step dir_size k Hstep Hne) as Hnext.
        destruct (decide (visited (idx + step) step dir_size k)) as [Hv|Hv].
        -- by rewrite decide_True by (by apply Hnext).
        -- rewrite decide_False; [done|].
           intros Hv'. apply Hv. by apply Hnext.
  - apply Z.ltb_ge in Hlt. exists d. split; [done|].
    split; [apply same_shape_refl|].
    intros k Hk. rewrite decide_False; [done|]. unfold visited. lia.
Qed.

(** ** The update after a merge *)

Lemma GetLocalDepthMask_shape (d : DirectoryPage) (bucket_idx ld id : Z) :
  dir_shape d → 0 <= bucket_idx < 2 ^ global_depth_ d →
  slot d bucket_idx = Some (ld, id) → 0 <= ld < 32 →
  dir_GetLocalDepthMask bucket_idx d = Ok (Z.ones ld).
Proof.
  intros Hs Hi Hslot Hld.
  destruct (slot_in_range d bucket_idx Hs Hi) as (ld' & id' & Hl & _ & Hslot').
  rewrite Hslot in Hslot'. injection Hslot' as <- <-.
  pose proof (shape_pow d Hs) as (? & ? & ?).
  pose proof Hs as (_ & _ & Hlen & _).
  unfold dir_GetLocalDepthMask, dir_GetLocalDepth.
  rewrite (check_idx_shape d bucket_idx Hs) by lia. simpl.
  destruct (arr_get_ok (local_depths_ d) bucket_idx) as (x & Hx & ->); [lia|].
  rewrite Hl in Hx. injection Hx as <-. simpl.
  unfold shl1. rewrite (proj2 (Z.leb_le _ _)) by lia.
  rewrite (proj2 (Z.ltb_lt _ _)) by lia. simpl.
  unfold Z.ones. by rewrite Z.sub_1_r.
Qed.

(** [merge_update] rewrites exactly the slots from the low [ld] bits of the
    hash upwards in steps of [2 ^ (ld - 1)]. *)
Lemma merge_update_spec (d : DirectoryPage)
    (hash bucket_idx ld id bucket_page_id : Z) :
  dir_shape d → 0 <= bucket_idx < 2 ^ global_depth_ d →
  slot d bucket_idx = Some (ld, id) → 1 <= ld < 32 →
  ∃ d',
    merge_update hash bucket_idx (Z.shiftl 1 (ld - 1)) bucket_page_id d = Ok d' ∧
    same_shape d d' ∧
    ∀ k, 0 <= k →
      slot d' k =
      if decide (visited (low_bits hash ld) (2 ^ (ld - 1))
                         (2 ^ global_depth_ d) k)
      then merge_slot bucket_page_id k <$> slot d k else slot d k.
Proof.
  intros Hs Hi Hslot Hld.
  pose proof (shape_pow d Hs) as (? & ? & ?).
  unfold merge_update. rewrite (dir_Size_shape d Hs). cbn [rbind].
  rewrite (GetLocalDepthMask_shape d bucket_idx ld id) by (done || lia).
  cbn [rbind]. rewrite Z.shiftl_1_l.
  assert (2 ^ (ld - 1) <= 2 ^ 31) by (apply Z.pow_le_mono_r; lia).
  pose proof (low_bits_range hash ld ltac:(lia)).
  apply (for_slots_spec _ _ _ _ (merge_update_body_slot bucket_page_id));
    try done; lia.
Qed.

(** X28: the combined group of a merge and the slots that the update of
    [Remove] reaches.  When bit [ld - 1] of the bucket index is clear, every
    slot of the group gets its local depth lowered and the surviving page id.
    When the bit is set, the loop starts above the slot whose index is the
    low [ld - 1] bits of the bucket index: that slot belongs to the group
    and is left as it was. *)
Lemma merge_update_combined_group (d : DirectoryPage)
    (hash bucket_idx ld id bucket_page_id : Z) :
  dir_shape d → 0 <= bucket_idx < 2 ^ global_depth_ d →
  low_bits hash ld = low_bits bucket_idx ld →
  slot d bucket_idx = Some (ld, id) → 1 <= ld <= global_depth_ d →
  ∃ d',
    merge_update hash bucket_idx (Z.shiftl 1 (ld - 1)) bucket_page_id d = Ok d' ∧
    (Z.testbit bucket_idx (ld - 1) = false →
     ∀ k ldk idk,
       0 <= k < 2 ^ global_depth_ d → in_combined_group bucket_idx ld k →
       slot d k = Some (ldk, idk) →
       slot d' k = Some ((ldk - 1) mod 256, bucket_page_id)) ∧
    (Z.testbit bucket_idx (ld - 1) = true →
     0 <= low_bits bucket_idx (ld - 1) < 2 ^ global_depth_ d ∧
     in_combined_group bucket_idx ld (low_bits bucket_idx (ld - 1)) ∧
     slot d' (low_bits bucket_idx (ld - 1)) =
       slot d (low_bits bucket_idx (ld - 1))).
Proof.
  intros Hs Hi Hhash Hslot Hld.
  pose proof Hs as ((? & ?) & ? & _).
  destruct (merge_update_spec d hash bucket_idx ld id bucket_page_id)
    as (d' & Hrun & _ & Hslots); try done; try lia.
  exists d'. split; [done|].
  pose proof (low_bits_range bucket_idx (ld - 1) ltac:(lia)) as Hr.
  assert (Hpow : 2 ^ (ld - 1) <= 2 ^ global_depth_ d)
    by (apply Z.pow_le_mono_r; lia).
  assert (Hsplit : low_bits bucket_idx ld =
            low_bits bucket_idx (ld - 1) +
            2 ^ (ld - 1) * Z.b2z (Z.testbit bucket_idx (ld - 1))).
  { rewrite !low_bits_mod by lia.
    assert (Hp2 : 2 ^ ld = 2 ^ (ld - 1) * 2).
    { replace ld with (ld - 1 + 1) at 1 by lia.
      rewrite Z.pow_add_r by lia. lia. }
    rewrite Hp2, Z.rem_mul_r by lia.
    by rewrite Z.testbit_spec' by lia. }
  split.
  - intros Hbit k ldk idk Hk Hgroup Hk_slot.
    rewrite Hbit in Hsplit. cbn [Z.b2z] in Hsplit.
    rewrite (Hslots k (proj1 Hk)), Hhash, Hsplit, Z.mul_0_r, Z.add_0_r.
    rewrite decide_True; [by rewrite Hk_slot|].
    assert (Hn : 0 <= ld - 1) by lia.
    destruct (proj2 (visited_low_bits k (low_bits bucket_idx (ld - 1)) (ld - 1)
                       Hn (proj1 Hk) Hr) Hgroup) as [Hle Hmod].
    split; [lia|done].
  - intros Hbit. rewrite Hbit in Hsplit. cbn [Z.b2z] in Hsplit.
    split; [lia|]. split.
    + unfold in_combined_group.
      rewrite (low_bits_mod (low_bits _ _)) by lia.
      rewrite Z.mod_small by lia. done.
    + rewrite (Hslots _ (proj1 Hr)), Hhash, Hsplit.
      rewrite decide_False; [done|]. unfold visited. lia.
Qed.

(** ** The update after a split *)

(** [split_update] rewrites exactly the slots that agree with the hash in
    the low [ld] bits. *)
Lemma split_update_spec (d : DirectoryPage)
    (hash bucket_idx ld id new_bucket_page_id : Z) :
  dir_shape d → 0 <= bucket_idx < 2 ^ global_depth_ d →
  slot d bucket_idx = Some (ld, id) → 0 <= ld < 32 →
  ∃ d',
    split_update hash bucket_idx (Z.shiftl 1 ld) new_bucket_page_id d = Ok d' ∧
    same_shape d d' ∧
    ∀ k, 0 <= k < 2 ^ global_depth_ d →
      slot d' k =
      if decide (low_bits k ld = low_bits hash ld)
      then split_slot (Z.shiftl 1 ld) new_bucket_page_id k <$> slot d k
      else slot d k.
Proof.
  intros Hs Hi Hslot Hld.
  pose proof (shape_pow d Hs) as (? & ? & ?).
  assert (2 ^ ld <= 2 ^ 31) by (apply Z.pow_le_mono_r; lia).
  pose proof (low_bits_range hash ld ltac:(lia)) as Hr.
  unfold split_update. rewrite (dir_Size_shape d Hs). cbn [rbind].
  rewrite (GetLocalDepthMask_shape d bucket_idx ld id) by (done || lia).
  cbn [rbind].
  destruct (for_slots_spec _ _ (Z.shiftl 1 ld) (2 ^ global_depth_ d)
              (split_update_body_slot (Z.shiftl 1 ld) new_bucket_page_id)
              ltac:(rewrite Z.shiftl_1_l; lia) ltac:(rewrite Z.shiftl_1_l; lia)
              (S (Z.to_nat (2 ^ global_depth_ d))) (low_bits hash ld) d
              Hs eq_refl (proj1 Hr) ltac:(lia))
    as (d' & Hrun & Hsame & Hslots).
  exists d'. split; [exact Hrun|]. split; [done|].
  intros k Hk. rewrite (Hslots k (proj1 Hk)).
  rewrite Z.shiftl_1_l.
  pose proof (visited_low_bits k (low_bits hash ld) ld ltac:(lia) (proj1 Hk) Hr)
    as Hv.
  destruct (decide (low_bits k ld = low_bits hash ld)) as [He|He].
  - rewrite decide_True; [done|]. apply Hv in He as [? ?]. split; [lia|done].
  - rewrite decide_False; [done|]. intros [[? ?] ?]. apply He, Hv. done.
Qed.

(** The split step of [InsertToDirectory] keeps the directory well formed:
    it raises the local depth of the slots of the split bucket, which was
    below the global depth, and points those with the split bit set to the
    new page. *)
Lemma split_update_wf (d : DirectoryPage)
    (hash bucket_idx ld id new_bucket_page_id : Z) :
  dir_wf d → 0 <= bucket_idx < 2 ^ global_depth_ d →
  low_bits hash ld = low_bits bucket_idx ld →
  slot d bucket_idx = Some (ld, id) → ld < global_depth_ d →
  ∃ d',
    split_update hash bucket_idx (Z.shiftl 1 ld) new_bucket_page_id d = Ok d' ∧
    dir_wf d'.
Proof.
  intros (Hs & Hbounded & Hinv) Hi Hhash Hslot Hlt.
  pose proof Hs as ((? & ?) & ? & _).
  pose proof (Hbounded _ _ _ Hi Hslot) as [Hld0 _].
  destruct (split_update_spec d hash bucket_idx ld id new_bucket_page_id)
    as (d' & Hrun & Hsame & Hslots); try done; try lia.
  exists d'. split; [done|].
  pose proof Hsame as (_ & Hgd & _).
  (* every slot of the group had the depth and the page of [bucket_idx] *)
  assert (Hgroup : ∀ k ldk idk, 0 <= k < 2 ^ global_depth_ d →
            low_bits k ld = low_bits hash ld → slot d k = Some (ldk, idk) →
            idk = id ∧ ldk = ld).
  { intros k ldk idk Hk Hlow Hk_slot.
    destruct (Hinv bucket_idx k ld id ldk idk Hi Hk Hslot Hk_slot) as [-> ->];
      [congruence|done]. }
  (* a slot outside the group agrees with none of the group in its own bits *)
  assert (Houtside : ∀ i j ldi idi ldj idj,
            0 <= i < 2 ^ global_depth_ d → 0 <= j < 2 ^ global_depth_ d →
            slot d i = Some (ldi, idi) → slot d j = Some (ldj, idj) →
            low_bits i ld ≠ low_bits hash ld →
            low_bits j ld = low_bits hash ld →
            low_bits i ldi ≠ low_bits j ldi).
  { intros i j ldi idi ldj idj Hi' Hj' Hsi Hsj Hout Hin Hagree.
    destruct (Hinv i j ldi idi ldj idj Hi' Hj' Hsi Hsj Hagree) as [_ ->].
    destruct (Hgroup j ldj idj Hj' Hin Hsj) as [_ ->].
    congruence. }
  split; [by apply (dir_shape_same d)|]. split.
  - intros k ldk idk Hk. rewrite Hgd in Hk. rewrite (Hslots k Hk), Hgd.
    destruct (slot_in_range d k Hs Hk) as (l0 & i0 & _ & _ & Hk_slot).
    rewrite Hk_slot. case_decide as Hin; simpl.
    + destruct (Hgroup k l0 i0 Hk Hin Hk_slot) as [-> ->].
      intros [= <- _]. rewrite Z.mod_small by lia. lia.
    + intros [= <- <-]. exact (Hbounded k l0 i0 Hk Hk_slot).
  - intros i j ldi idi ldj idj Hi' Hj'. rewrite Hgd in Hi', Hj'.
    rewrite (Hslots i Hi'), (Hslots j Hj').
    destruct (slot_in_range d i Hs Hi') as (li & ii & _ & _ & Hsi).
    destruct (slot_in_range d j Hs Hj') as (lj & ij & _ & _ & Hsj).
    rewrite Hsi, Hsj.
    destruct (decide (low_bits i ld = low_bits hash ld)) as [Hin_i|Hout_i];
      destruct (decide (low_bits j ld = low_bits hash ld)) as [Hin_j|Hout_j];
      simpl.
    + destruct (Hgroup i li ii Hi' Hin_i Hsi) as [-> ->].
      destruct (Hgroup j lj ij Hj' Hin_j Hsj) as [-> ->].
      intros [= <- <-] [= <- <-]. rewrite Z.mod_small by lia.
      intros Hagree. split; [|done].
      rewrite !land_shl1_testbit by lia.
      by rewrite (low_bits_testbit i j ld Hld0 Hagree).
    + destruct (Hgroup i li ii Hi' Hin_i Hsi) as [-> ->].
      intros [= <- <-] [= <- <-]. rewrite Z.mod_small by lia.
      intros Hagree. exfalso. apply Hout_j.
      rewrite <- Hin_i. symmetry.
      apply (low_bits_weaken i j ld (ld + 1)); [lia|done].
    + intros [= <- <-] [= <- <-] Hagree. exfalso.
      exact (Houtside i j li ii lj ij Hi' Hj' Hsi Hsj Hout_i Hin_j Hagree).
    + intros [= <- <-] [= <- <-] Hagree.
      exact (Hinv i j li ii lj ij Hi' Hj' Hsi Hsj Hagree).
Qed.

(** ** Doubling the directory *)

Lemma low_bits_low_bits (i n m : Z) :
  0 <= n <= m → low_bits (low_bits i m) n = low_bits i n.
Proof.
  intros Hnm. unfold low_bits. apply Z.bits_inj'. intros b Hb.
  rewrite !Z.land_spec.
  destruct (decide (b < n)).
  - rewrite !Z.ones_spec_low by lia. by rewrite !andb_true_r.
  - rewrite (Z.ones_spec_high n) by lia. by rewrite !andb_false_r.
Qed.

Lemma low_bits_small (i n : Z) : 0 <= i < 2 ^ n → low_bits i n = i.
Proof.
  intros Hi. assert (0 <= n).
  { destruct (decide (0 <= n)); [done|]. rewrite Z.pow_neg_r in Hi; lia. }
  rewrite low_bits_mod by done. by apply Z.mod_small.
Qed.

(** The copy loop of [IncrGlobalDepth]: slot [k] of the new upper half is
    slot [k - msb]. *)
Lemma copy_up_spec (msb : Z) (n : nat) :
  ∀ (i : Z) (d : DirectoryPage),
    0 <= i → i + Z.of_nat n <= msb →
    2 * msb <= Z.of_nat (length (local_depths_ d)) →
    2 * msb <= Z.of_nat (length (bucket_page_ids_ d)) →
    ∃ d', copy_up n i msb d = Ok d' ∧ same_shape d d' ∧
          ∀ k, 0 <= k →
               slot d' k = if decide (msb + i <= k < msb + i + Z.of_nat n)
                           then slot d (k - msb) else slot d k.
Proof.
  induction n as [|n IH]; intros i d Hi Hn Hl Hb.
  - exists d. split; [done|]. split; [apply same_shape_refl|].
    intros k Hk. rewrite decide_False; [done|lia].
  - cbn [copy_up].
    destruct (arr_get_ok (local_depths_ d) i) as (ld & Hld & ->); [lia|].
    cbn [rbind]. rewrite arr_set_ok by lia. cbn [rbind].
    destruct (arr_get_ok (bucket_page_ids_ d) i) as (id & Hid & ->); [lia|].
    cbn [rbind]. rewrite arr_set_ok by lia. cbn [rbind].
    set (d1 := mkDir _ _ _ _).
    assert (Hsame1 : same_shape d d1)
      by (repeat split; simpl; by rewrite length_insert).
    assert (Hslot1 : ∀ k, 0 <= k →
              slot d1 k = if decide (k = i + msb) then Some (ld, id)
                          else slot d k).
    { intros k Hk. unfold d1.
      apply (slot_update d (i + msb) k ld id); try done; try lia.
      unfold slot.
      destruct (lookup_lt_is_Some_2 (local_depths_ d) (Z.to_nat (i + msb)))
        as [x ->]; [lia|].
      destruct (lookup_lt_is_Some_2 (bucket_page_ids_ d) (Z.to_nat (i + msb)))
        as [y ->]; [lia|]. eauto. }
    destruct (IH (i + 1) d1) as (d' & Hrun & Hsame & Hslots); try lia.
    { destruct Hsame1 as (_ & _ & -> & _). lia. }
    { destruct Hsame1 as (_ & _ & _ & ->). lia. }
    exists d'. split; [done|]. split; [by eapply same_shape_trans|].
    intros k Hk. rewrite (Hslots k Hk).
    destruct (decide (msb + (i + 1) <= k < msb + (i + 1) + Z.of_nat n)).
    + rewrite (Hslot1 (k - msb)) by lia.
      rewrite decide_False by lia. by rewrite decide_True by lia.
    + rewrite (Hslot1 k Hk). destruct (decide (k = i + msb)) as [->|].
      * rewrite decide_True by lia.
        replace (i + msb - msb) with i by lia.
        unfold slot. by rewrite Hld, Hid.
      * by rewrite decide_False by lia.
Qed.

(** [IncrGlobalDepth] keeps the directory well formed; slot [k] of the
    doubled directory is the old slot of the low bits of [k]. *)
Lemma IncrGlobalDepth_wf (d : DirectoryPage) :
  dir_wf d → global_depth_ d < max_depth_ d →
  ∃ d',
    dir_IncrGlobalDepth d = Ok d' ∧ dir_wf d' ∧
    global_depth_ d' = global_depth_ d + 1 ∧
    ∀ k, 0 <= k < 2 ^ (global_depth_ d + 1) →
         slot d' k = slot d (low_bits k (global_depth_ d)).
Proof.
  intros (Hs & Hbounded & Hinv) Hlt.
  pose proof Hs as ((Hgd0 & _) & Hmax & Hl & Hb).
  pose proof (shape_pow d Hs) as (? & ? & ?).
  assert (Hpow : 2 ^ (global_depth_ d + 1) = 2 * 2 ^ global_depth_ d)
    by (rewrite Z.pow_add_r by lia; lia).
  assert (Hle : 2 ^ (global_depth_ d + 1) <= 2 ^ max_depth_ d)
    by (apply Z.pow_le_mono_r; lia).
  unfold dir_IncrGlobalDepth, assert.
  rewrite (proj2 (Z.ltb_lt _ _)) by done. cbn [rbind].
  assert (Hw : wrap32 (global_depth_ d + 1) = global_depth_ d + 1).
  { unfold wrap32, uint32_max. apply Z.mod_small. lia. }
  rewrite Hw.
  set (d1 := mkDir _ _ _ _).
  assert (Hs1 : dir_shape d1) by (unfold dir_shape, d1; simpl; lia).
  rewrite (dir_Size_shape d1 Hs1). cbn [rbind]. unfold d1 at 1 2. simpl.
  assert (Hmsb : Z.shiftr (2 ^ (global_depth_ d + 1)) 1 = 2 ^ global_depth_ d).
  { rewrite Z.shiftr_div_pow2 by lia. rewrite Hpow.
    change (2 ^ 1) with 2. rewrite Z.mul_comm. apply Z.div_mul. lia. }
  rewrite Hmsb.
  destruct (copy_up_spec (2 ^ global_depth_ d) (Z.to_nat (2 ^ global_depth_ d))
              0 d1) as (d' & Hrun & Hsame & Hslots);
    try (simpl; lia).
  exists d'. split; [exact Hrun|].
  assert (Hslot' : ∀ k, 0 <= k < 2 ^ (global_depth_ d + 1) →
            slot d' k = slot d (low_bits k (global_depth_ d))).
  { intros k Hk. rewrite (Hslots k (proj1 Hk)).
    rewrite Z2Nat.id by lia.
    case_decide as Hup.
    - rewrite low_bits_mod by lia.
      replace k with ((k - 2 ^ global_depth_ d) + 1 * 2 ^ global_depth_ d) at 2
        by lia.
      rewrite Z.mod_add by lia. rewrite Z.mod_small by lia. done.
    - rewrite low_bits_small by lia. done. }
  pose proof Hsame as (_ & Hgd' & _). simpl in Hgd'.
  split; [|split; [exact Hgd'|exact Hslot']].
  split; [by apply (dir_shape_same d1)|]. split.
  - intros k ldk idk Hk. rewrite Hgd' in Hk |- *.
    rewrite (Hslot' k Hk). intros Hk_slot.
    pose proof (low_bits_range k (global_depth_ d) Hgd0).
    pose proof (Hbounded _ _ _ ltac:(done) Hk_slot). lia.
  - intros i j ldi idi ldj idj Hi Hj. rewrite Hgd' in Hi, Hj.
    rewrite (Hslot' i Hi), (Hslot' j Hj). intros Hsi Hsj Hagree.
    pose proof (low_bits_range i (global_depth_ d) Hgd0) as Hri.
    pose proof (low_bits_range j (global_depth_ d) Hgd0) as Hrj.
    pose proof (Hbounded _ _ _ Hri Hsi) as Hldi.
    apply (Hinv _ _ _ _ _ _ Hri Hrj Hsi Hsj).
    rewrite !low_bits_low_bits by lia. done.
Qed.

(** X29: steps 3 and 5 of [InsertToDirectory] on a well-formed directory: the
    directory grows when the full bucket is as deep as the directory and may
    still expand, then the slots of the bucket are split.  Both calls
    succeed and the directory stays well formed; in particular the invariant
    on local depths and bucket ids holds again. *)
Lemma Insert_split_keeps_directory_wf (d : DirectoryPage)
    (hash bucket_idx ld id new_bucket_page_id : Z) :
  dir_wf d →
  dir_HashToBucketIndex hash d = Ok bucket_idx →
  slot d bucket_idx = Some (ld, id) →
  (ld = global_depth_ d → dir_CanExpand d = true) →
  ∃ d1 d2,
    (if ld =? global_depth_ d then dir_IncrGlobalDepth d else Ok d) = Ok d1 ∧
    dir_GetLocalDepth bucket_idx d1 = Ok ld ∧
    split_update hash bucket_idx (Z.shiftl 1 ld) new_bucket_page_id d1 = Ok d2 ∧
    dir_wf d2.
Proof.
  intros Hwf Hidx Hslot Hexpand.
  pose proof Hwf as (Hs & Hbounded & Hinv).
  pose proof Hs as ((Hgd0 & _) & Hmax & Hl & Hb).
  pose proof (shape_pow d Hs) as (? & ? & ?).
  assert (Hb_idx : bucket_idx = low_bits hash (global_depth_ d)).
  { unfold dir_HashToBucketIndex in Hidx.
    rewrite (dir_Size_shape d Hs) in Hidx. simpl in Hidx.
    injection Hidx as <-. unfold low_bits, wrap32, uint32_max.
    rewrite Z.mod_small by lia. f_equal.
    rewrite Z.ones_equiv. lia. }
  pose proof (low_bits_range hash (global_depth_ d) Hgd0) as Hr.
  rewrite <- Hb_idx in Hr.
  pose proof (Hbounded _ _ _ Hr Hslot) as Hld.
  assert (Hlow : low_bits hash ld = low_bits bucket_idx ld)
    by (rewrite Hb_idx, low_bits_low_bits by lia; done).
  assert (Hget : ∀ d1, dir_shape d1 → 0 <= bucket_idx < 2 ^ global_depth_ d1 →
            slot d1 bucket_idx = Some (ld, id) →
            dir_GetLocalDepth bucket_idx d1 = Ok ld).
  { intros d1 Hs1 Hi1 Hslot1.
    destruct (slot_in_range d1 bucket_idx Hs1 Hi1) as (l & i & Hl1 & _ & Hsl).
    rewrite Hslot1 in Hsl. injection Hsl as <- <-.
    pose proof (shape_pow d1 Hs1) as (? & ? & ?).
    pose proof Hs1 as (_ & _ & Hlen & _).
    unfold dir_GetLocalDepth.
    rewrite (check_idx_shape d1 bucket_idx Hs1) by lia. simpl.
    destruct (arr_get_ok (local_depths_ d1) bucket_idx) as (x & Hx & ->); [lia|].
    congruence. }
  destruct (Z.eqb_spec ld (global_depth_ d)) as [Heq|Hne].
  - assert (Hlt : global_depth_ d < max_depth_ d).
    { specialize (Hexpand Heq). unfold dir_CanExpand in Hexpand.
      by apply Z.ltb_lt. }
    destruct (IncrGlobalDepth_wf d Hwf Hlt) as (d1 & Hgrow & Hwf1 & Hgd1 & Hslot1).
    assert (Hi1 : 0 <= bucket_idx < 2 ^ global_depth_ d1).
    { rewrite Hgd1, Z.pow_add_r by lia. lia. }
    assert (Hs1 : slot d1 bucket_idx = Some (ld, id)).
    { rewrite Hslot1 by (rewrite <- Hgd1; done).
      by rewrite low_bits_small. }
    destruct (split_update_wf d1 hash bucket_idx ld id new_bucket_page_id)
      as (d2 & Hsplit & Hwf2); try done; try lia.
    exists d1, d2. split; [done|]. split; [|done].
    apply Hget; try done. by destruct Hwf1.
  - destruct (split_update_wf d hash bucket_idx ld id new_bucket_page_id)
      as (d2 & Hsplit & Hwf2); try done; try lia.
    exists d, d2. split; [done|]. split; [|done]. by apply Hget.
Qed.

End DirectoryFacts.

(** * Properties of the extendible hash table *)

Section HashTableFacts.

Import BufferPool HashTable.

Context {K V : Type}.
Variable cmp : K → K → Z.
Variable hash_fn : K → Z.
Variable HTABLE_HEADER_ARRAY_SIZE : Z.
Variable HTABLE_DIRECTORY_ARRAY_SIZE : Z.

Abbreviation PD := (PageData K V).
Implicit Types s : BufferPoolManager PD.

(** One step of a run: [H] tells how the first call ends. *)
Local Ltac step H :=
  first [ rewrite (bind_ok _ _ _ _ _ H)
        | rewrite bind_assoc, (bind_ok _ _ _ _ _ H) ];
  cbn beta; rewrite ?bind_ret_l; cbn beta; cbn [fst snd].

Lemma AsMut_guard (f : Z) (dirty : bool) s :
  AsMut (K:=K) (V:=V) (mkGuard (Some f) dirty) s =
    Ok ((f, mkGuard (Some f) true), s).
Proof. done. Qed.


Lemma header_get_resident {A} s (page_id f : Z) (h : HeaderPage)
    (op : HeaderPage → result A) (a : A) :
  resident s page_id f (Header h) → op h = Ok a →
  header_get HTABLE_HEADER_ARRAY_SIZE f op s = Ok (a, s).
Proof.
  intros Hres Hop. unfold header_get, read_data.
  rewrite (bind_ok _ _ _ _ _ (read_buffer_resident _ _ _ _ Hres)).
  unfold bind, lift; simpl. by rewrite Hop.
Qed.

Lemma dir_get_resident {A} s (page_id f : Z) (d : DirectoryPage)
    (op : DirectoryPage → result A) (a : A) :
  resident s page_id f (Directory d) → op d = Ok a →
  dir_get HTABLE_DIRECTORY_ARRAY_SIZE f op s = Ok (a, s).
Proof.
  intros Hres Hop. unfold dir_get, read_data.
  rewrite (bind_ok _ _ _ _ _ (read_buffer_resident _ _ _ _ Hres)).
  unfold bind, lift; simpl. by rewrite Hop.
Qed.

Lemma bucket_get_resident {A} s (page_id f : Z) (b : BucketPage K V)
    (op : BucketPage K V → A) :
  resident s page_id f (Bucket b) →
  bucket_get f op s = Ok (op b, s).
Proof.
  intros Hres. unfold bucket_get, read_data.
  by rewrite (bind_ok _ _ _ _ _ (read_buffer_resident _ _ _ _ Hres)).
Qed.

(** A call that returns the bucket as it found it. *)
Lemma bucket_call_unchanged {A} s (page_id f : Z) (b : BucketPage K V)
    (op : BucketPage K V → A * BucketPage K V) (a : A) :
  resident s page_id f (Bucket b) → op b = (a, b) →
  ∃ s', bucket_call f op s = Ok (a, s') ∧ quiet_step s s'.
Proof.
  intros Hres Hop. unfold bucket_call, read_data.
  rewrite (bind_ok _ _ _ _ _ (read_buffer_resident _ _ _ _ Hres)).
  unfold bind at 1, lift; simpl. rewrite Hop. simpl.
  destruct (write_buffer_same s page_id f (Bucket b) Hres) as (s' & Hw & Hq).
  unfold write_data. rewrite (bind_ok _ _ _ _ _ Hw). eauto.
Qed.



End HashTableFacts.

(** * More on the LRU-K replacer *)

Section ReplacerInvariants.

Import Replacer.

Lemma Access_history (ts : Z) (n : LRUKNode) :
  history_ (Access ts n) =
  if k_ n <? Z.of_nat (length (history_ n ++ [ts]))
  then tl (history_ n ++ [ts]) else history_ n ++ [ts].
Proof. done. Qed.

Lemma Access_last (ts : Z) (n : LRUKNode) :
  1 <= k_ n → last (history_ (Access ts n)) = Some ts.
Proof.
  intros Hk. rewrite Access_history.
  destruct (k_ n <? _) eqn:E.
  - destruct (history_ n) as [|t h]; simpl in *.
    + apply Z.ltb_lt in E. lia.
    + by rewrite last_snoc.
  - by rewrite last_snoc.
Qed.

Lemma Access_hsize (ts : Z) (n : LRUKNode) :
  0 <= k_ n → hsize n <= k_ n → hsize (Access ts n) <= k_ n.
Proof.
  unfold hsize. intros Hk Hn. rewrite Access_history.
  destruct (k_ n <? _) eqn:E.
  - rewrite length_app in E. simpl in E.
    destruct (history_ n) as [|t h]; simpl in *; [lia|].
    rewrite length_app. simpl. lia.
  - apply Z.ltb_ge in E. done.
Qed.

(** What [RecordAccess] does to the node store, the clock and the
    invariants. *)
Lemma RecordAccess_facts (frame_id : Z) (r : LRUKReplacer) :
  1 <= rk_ r → store_wf r → history_bounded r →
  store_wf (RecordAccess frame_id r) ∧
  history_bounded (RecordAccess frame_id r) ∧
  (∃ n, node_store_ (RecordAccess frame_id r) !! frame_id = Some n ∧
        last (history_ n) = Some (current_timestamp_ r) ∧
        is_evictable_ n =
          match node_store_ r !! frame_id with
          | Some old => is_evictable_ old
          | None => false
          end) ∧
  (∀ g, g ≠ frame_id →
        node_store_ (RecordAccess frame_id r) !! g = node_store_ r !! g) ∧
  current_timestamp_ (RecordAccess frame_id r) =
    wrap64 (current_timestamp_ r + 1) ∧
  curr_size_ (RecordAccess frame_id r) = curr_size_ r.
Proof.
  intros Hk Hwf Hb.
  set (old := match node_store_ r !! frame_id with
              | Some n => n
              | None => new_node frame_id (rk_ r)
              end).
  assert (Hold : fid_ old = frame_id ∧ k_ old = rk_ r ∧ hsize old <= k_ old).
  { unfold old. destruct (node_store_ r !! frame_id) as [n|] eqn:Hn.
    - destruct (Hwf _ _ Hn) as (? & ? & _). pose proof (Hb _ _ Hn). done.
    - unfold hsize. simpl. lia. }
  destruct Hold as (Hfid & Hko & Hsz).
  assert (Hstore : node_store_ (RecordAccess frame_id r) =
                   <[frame_id := Access (current_timestamp_ r) old]>
                     (node_store_ r)) by done.
  assert (Hlast : last (history_ (Access (current_timestamp_ r) old)) =
                  Some (current_timestamp_ r))
    by (apply Access_last; lia).
  split; [|split; [|split; [|split; [|done]]]].
  - intros i n. rewrite Hstore, lookup_insert.
    case_decide as Hi.
    + intros [= <-]. subst i. simpl. split; [done|]. split; [done|].
      intros Hnil. simpl in Hlast. by rewrite Hnil in Hlast.
    + apply Hwf.
  - intros i n. rewrite Hstore, lookup_insert.
    case_decide as Hi.
    + intros [= <-].
      change (k_ (Access (current_timestamp_ r) old)) with (k_ old).
      apply Access_hsize; lia.
    + apply Hb.
  - exists (Access (current_timestamp_ r) old).
    rewrite Hstore, lookup_insert_eq. split; [done|]. split; [done|].
    unfold old. simpl. by destruct (node_store_ r !! frame_id).
  - intros g Hg. rewrite Hstore. by apply lookup_insert_ne.
Qed.

(** X1: [RecordAccess] creates the node of the frame if there is none and
    appends the clock value to its history, dropping the oldest entry beyond
    K: with [before] the timestamps the frame held (none for a new node),
    the history is [before] followed by the old clock value when [before]
    had fewer than K entries, and [before] without its first entry followed
    by the old clock value when it had K.  So the most recent timestamp is
    the old clock value and the node holds between one and K timestamps; the
    node carries the frame id and K, the evictable flag is kept (false for a
    new node), every other node is untouched, the clock has advanced by one
    and [curr_size_] is as it was. *)
Theorem RecordAccess_appends_clock_value (frame_id : Z) (r : LRUKReplacer) :
  1 <= rk_ r → store_wf r → history_bounded r →
  let before := match node_store_ r !! frame_id with
                | Some old => history_ old
                | None => []
                end in
  (∃ n, node_store_ (RecordAccess frame_id r) !! frame_id = Some n ∧
        history_ n =
          (if Z.of_nat (length before) <? rk_ r
           then before ++ [current_timestamp_ r]
           else tl before ++ [current_timestamp_ r]) ∧
        back n = current_timestamp_ r ∧
        1 <= hsize n <= rk_ r ∧
        fid_ n = frame_id ∧ k_ n = rk_ r ∧
        is_evictable_ n =
          match node_store_ r !! frame_id with
          | Some old => is_evictable_ old
          | None => false
          end) ∧
  (∀ g, g ≠ frame_id →
        node_store_ (RecordAccess frame_id r) !! g = node_store_ r !! g) ∧
  current_timestamp_ (RecordAccess frame_id r) =
    wrap64 (current_timestamp_ r + 1) ∧
  curr_size_ (RecordAccess frame_id r) = curr_size_ r.
Proof.
  intros Hk Hwf Hb before.
  destruct (RecordAccess_facts frame_id r Hk Hwf Hb)
    as (Hwf' & Hb' & (n & Hn & Hlast & Hflag) & Hothers & Hclock & Hsize).
  split; [|done].
  exists n. split; [done|].
  destruct (Hwf' _ _ Hn) as (Hfn & Hkn & Hne).
  pose proof (Hb' _ _ Hn) as Hsz. simpl in Hkn. rewrite Hkn in Hsz.
  set (old := match node_store_ r !! frame_id with
              | Some n => n
              | None => new_node frame_id (rk_ r)
              end).
  assert (Hold : history_ old = before ∧ k_ old = rk_ r ∧
                 Z.of_nat (length before) <= rk_ r).
  { unfold old, before.
    destruct (node_store_ r !! frame_id) as [o|] eqn:Ho; simpl.
    - destruct (Hwf _ _ Ho) as (_ & Hko & _). pose proof (Hb _ _ Ho) as Hbo.
      unfold hsize in Hbo. rewrite Hko in Hbo. done.
    - split; [done|]. split; [done|]. lia. }
  destruct Hold as (Hhist & Hkold & Hlen).
  assert (Hnode : n = Access (current_timestamp_ r) old).
  { assert (Hstore : node_store_ (RecordAccess frame_id r) =
                     <[frame_id := Access (current_timestamp_ r) old]>
                       (node_store_ r)) by done.
    rewrite Hstore, lookup_insert_eq in Hn. by injection Hn as <-. }
  split; [|split; [|split; [|split; [done|split; [done|done]]]]].
  - rewrite Hnode, Access_history, Hhist, Hkold, length_app. simpl.
    destruct (Z.ltb_spec (Z.of_nat (length before)) (rk_ r)) as [Hlt|Hge].
    + rewrite (proj2 (Z.ltb_ge _ _)) by lia. done.
    + rewrite (proj2 (Z.ltb_lt _ _)) by lia.
      destruct before as [|t rest]; [simpl in *; lia|done].
  - apply last_Some in Hlast as [h Hh]. unfold back. rewrite Hh.
    apply List.last_last.
  - unfold hsize in *. destruct (history_ n); [done|].
    rewrite length_cons in *. lia.
Qed.

(** ** [curr_size_] *)

Abbreviation evictable := (λ p : Z * LRUKNode, is_evictable_ p.2 = true).

Lemma wrap64_succ (a : Z) : wrap64 (wrap64 a + 1) = wrap64 (a + 1).
Proof. unfold wrap64. by rewrite Z.add_mod_idemp_l. Qed.

Lemma wrap64_pred (a : Z) : wrap64 (wrap64 a - 1) = wrap64 (a - 1).
Proof. unfold wrap64. by rewrite Zminus_mod_idemp_l. Qed.

Lemma filter_evictable_Some (m : gmap Z LRUKNode) (i : Z) (n : LRUKNode) :
  m !! i = Some n → is_evictable_ n = true →
  filter evictable m !! i = Some n.
Proof. intros. apply map_lookup_filter_Some. eauto. Qed.

Lemma filter_evictable_None (m : gmap Z LRUKNode) (i : Z) :
  (∀ n, m !! i = Some n → is_evictable_ n = false) →
  filter evictable m !! i = None.
Proof.
  intros H. apply map_lookup_filter_None.
  destruct (m !! i) as [n|] eqn:Hi; [|by left].
  right. intros x [= <-]. simpl. by rewrite (H n eq_refl).
Qed.

(** Replacing a node by one with the same flag keeps the count; setting and
    clearing the flag move it by one. *)
Lemma count_insert (m : gmap Z LRUKNode) (i : Z) (n : LRUKNode) :
  size (filter evictable (<[i := n]> m)) =
  match m !! i with
  | Some old =>
      if is_evictable_ old
      then if is_evictable_ n then size (filter evictable m)
           else pred (size (filter evictable m))
      else if is_evictable_ n then S (size (filter evictable m))
           else size (filter evictable m)
  | None =>
      if is_evictable_ n then S (size (filter evictable m))
      else size (filter evictable m)
  end.
Proof.
  destruct (is_evictable_ n) eqn:Hn.
  - rewrite map_filter_insert_True by done.
    destruct (m !! i) as [old|] eqn:Hi.
    + destruct (is_evictable_ old) eqn:Ho.
      * apply map_size_insert_Some.
        exists old. by apply filter_evictable_Some.
      * apply map_size_insert_None, filter_evictable_None.
        intros x. rewrite Hi. by intros [= <-].
    + apply map_size_insert_None, filter_evictable_None.
      intros x. by rewrite Hi.
  - rewrite map_filter_insert_False by (simpl; by rewrite Hn).
    rewrite map_filter_delete.
    destruct (m !! i) as [old|] eqn:Hi.
    + destruct (is_evictable_ old) eqn:Ho.
      * apply map_size_delete_Some.
        exists old. by apply filter_evictable_Some.
      * apply map_size_delete_None, filter_evictable_None.
        intros x. rewrite Hi. by intros [= <-].
    + apply map_size_delete_None, filter_evictable_None.
      intros x. by rewrite Hi.
Qed.

Lemma count_delete (m : gmap Z LRUKNode) (i : Z) (n : LRUKNode) :
  m !! i = Some n → is_evictable_ n = true →
  size (filter evictable (delete i m)) = pred (size (filter evictable m)).
Proof.
  intros Hi Hn. rewrite map_filter_delete.
  apply map_size_delete_Some. exists n. by apply filter_evictable_Some.
Qed.

Lemma count_pos (m : gmap Z LRUKNode) (i : Z) (n : LRUKNode) :
  m !! i = Some n → is_evictable_ n = true →
  (0 < size (filter evictable m))%nat.
Proof.
  intros Hi Hn.
  pose proof (filter_evictable_Some m i n Hi Hn) as Hf.
  destruct (size (filter evictable m)) eqn:Hs; [|lia].
  apply map_size_empty_inv in Hs. rewrite Hs in Hf. done.
Qed.

Lemma wrap64_of_pred (c : nat) :
  (0 < c)%nat → wrap64 (wrap64 (Z.of_nat c) - 1) = wrap64 (Z.of_nat (pred c)).
Proof. intros Hc. rewrite wrap64_pred. f_equal. lia. Qed.

Lemma wrap64_of_succ (c : nat) :
  wrap64 (wrap64 (Z.of_nat c) + 1) = wrap64 (Z.of_nat (S c)).
Proof. rewrite wrap64_succ. f_equal. lia. Qed.

(** The two ways [Evict] can end. *)
Lemma Evict_cases (r : LRUKReplacer) :
  store_wf r →
  Evict r = (false, INVALID_PAGE_ID, r) ∨
  ∃ v, node_store_ r !! fid_ v = Some v ∧ is_evictable_ v = true ∧
       Evict r = (true, fid_ v,
                  with_store r (delete (fid_ v) (node_store_ r))
                             (wrap64 (curr_size_ r - 1))).
Proof.
  intros Hwf.
  pose proof (scan_spec (rk_ r) (map_to_list (node_store_ r)) None) as Hscan.
  lapply Hscan; [clear Hscan; intros Hscan|].
  2:{ intros [i n] Hin. apply elem_of_map_to_list in Hin.
      by destruct (Hwf i n Hin) as (_ & ? & _). }
  specialize (Hscan ltac:(done)).
  unfold Evict.
  destruct (scan (map_to_list (node_store_ r)) None) as [v|]; [|by left].
  right. destruct Hscan as (_ & Hev & Hin & _).
  destruct Hin as [?|([i n] & Hin & Hqv)]; [done|]. simpl in Hqv; subst n.
  apply elem_of_map_to_list in Hin.
  destruct (Hwf i v Hin) as (Hfid & _ & _).
  exists v. rewrite Hfid. done.
Qed.

(** X2: [curr_size_] is the number of evictable nodes (as a 64-bit
    [size_t]).  This holds for a new replacer and is kept by [RecordAccess],
    by every [SetEvictable] and [Remove] that returns, and by [Evict]. *)
Theorem curr_size_counts_evictable_nodes (r : LRUKReplacer) (frame_id : Z)
    (flag : bool) :
  (∀ num_frames k, size_counts_evictable (init num_frames k)) ∧
  (size_counts_evictable r →
   size_counts_evictable (RecordAccess frame_id r) ∧
   (∀ r', SetEvictable frame_id flag r = Ok r' → size_counts_evictable r') ∧
   (∀ r', Remove frame_id r = Ok r' → size_counts_evictable r') ∧
   (store_wf r → size_counts_evictable (Evict r).2)).
Proof.
  unfold size_counts_evictable, evictable_count.
  split; [done|]. intros Hinv. split; [|split; [|split]].
  - simpl. rewrite count_insert.
    destruct (node_store_ r !! frame_id) as [old|] eqn:Hold; simpl.
    + by destruct (is_evictable_ old).
    + done.
  - intros r'. unfold SetEvictable.
    destruct (node_store_ r !! frame_id) as [old|] eqn:Hold; [|done].
    intros [= <-]. simpl. rewrite count_insert, Hold. simpl.
    destruct (is_evictable_ old) eqn:Ho, flag; simpl; try done.
    + rewrite Hinv. apply wrap64_of_pred. by eapply count_pos.
    + rewrite Hinv. apply wrap64_of_succ.
  - intros r'. unfold Remove.
    destruct (node_store_ r !! frame_id) as [old|] eqn:Hold;
      [|by intros [= <-]].
    destruct (is_evictable_ old) eqn:Ho; simpl; [|done].
    intros [= <-]. simpl. rewrite (count_delete _ _ old) by done.
    rewrite Hinv. apply wrap64_of_pred. by eapply count_pos.
  - intros Hwf.
    destruct (Evict_cases r Hwf) as [->|(v & Hv & Hev & ->)]; [done|].
    simpl. rewrite (count_delete _ _ v) by done.
    rewrite Hinv. apply wrap64_of_pred. by eapply count_pos.
Qed.

(** ** Timestamps *)

Lemma StronglySorted_snoc (h : list Z) (t : Z) :
  StronglySorted Z.lt h → Forall (λ x, x < t) h →
  StronglySorted Z.lt (h ++ [t]).
Proof.
  induction 1 as [|x h Hs IH Hx]; intros Hall; simpl.
  - repeat constructor.
  - apply Forall_cons in Hall as [Hxt Hall]. constructor; [by apply IH|].
    apply Forall_app. split; [done|]. by constructor.
Qed.

Lemma StronglySorted_tl (h : list Z) :
  StronglySorted Z.lt h → StronglySorted Z.lt (tl h).
Proof. destruct 1; [constructor|done]. Qed.

Lemma Forall_tl (P : Z → Prop) (h : list Z) : Forall P h → Forall P (tl h).
Proof. destruct 1; [constructor|done]. Qed.

(** X3: as long as the 64-bit clock does not wrap, [RecordAccess] keeps the
    timestamps of every node strictly increasing from front to back and
    below the clock, so [front()] is the oldest kept access and [back()] the
    newest. *)
Theorem RecordAccess_keeps_timestamps_increasing (frame_id : Z)
    (r : LRUKReplacer) :
  current_timestamp_ r + 1 < size_t_max →
  0 <= current_timestamp_ r →
  timestamps_increasing r →
  timestamps_increasing (RecordAccess frame_id r).
Proof.
  intros Hmax Hmin Hinc i n.
  assert (Hclock : current_timestamp_ (RecordAccess frame_id r) =
                   current_timestamp_ r + 1).
  { simpl. unfold wrap64. apply Z.mod_small. lia. }
  rewrite Hclock. simpl. rewrite lookup_insert. case_decide as Hi.
  - intros [= <-]. rewrite Access_history.
    set (old := match node_store_ r !! frame_id with
                | Some n => n | None => new_node frame_id (rk_ r) end).
    assert (Hold : StronglySorted Z.lt (history_ old) ∧
                   Forall (λ t, t < current_timestamp_ r) (history_ old)).
    { unfold old. destruct (node_store_ r !! frame_id) as [n|] eqn:Hn.
      - by apply (Hinc frame_id).
      - simpl. split; constructor. }
    destruct Hold as [Hs Hall].
    assert (Hs' : StronglySorted Z.lt (history_ old ++ [current_timestamp_ r]))
      by (by apply StronglySorted_snoc).
    assert (Hall' : Forall (λ t, t < current_timestamp_ r + 1)
                           (history_ old ++ [current_timestamp_ r])).
    { apply Forall_app. split.
      - eapply Forall_impl; [exact Hall|]. simpl. lia.
      - constructor; [lia|constructor]. }
    destruct (k_ old <? _).
    + split; [by apply StronglySorted_tl|by apply Forall_tl].
    + done.
  - intros Hn. destruct (Hinc i n Hn) as [Hs Hall]. split; [done|].
    eapply Forall_impl; [exact Hall|]. simpl. lia.
Qed.

(** X4: the constructor establishes and every operation keeps the two facts
    that [Evict] relies on: each node is stored under its own frame id with
    the replacer's K and a non-empty history, and no history is longer than
    K, so the assertion at the end of [LRUKNode::Access] cannot fire.
    [SetEvictable], [Remove] and [Evict] only change a flag or erase a
    node. *)
Theorem replacer_operations_keep_store_wf (r : LRUKReplacer) (frame_id : Z)
    (flag : bool) :
  (∀ num_frames k,
     store_wf (init num_frames k) ∧ history_bounded (init num_frames k)) ∧
  (store_wf r ∧ history_bounded r →
   (1 <= rk_ r →
    store_wf (RecordAccess frame_id r) ∧
    history_bounded (RecordAccess frame_id r)) ∧
   (∀ r', SetEvictable frame_id flag r = Ok r' →
          store_wf r' ∧ history_bounded r') ∧
   (∀ r', Remove frame_id r = Ok r' → store_wf r' ∧ history_bounded r') ∧
   store_wf (Evict r).2 ∧ history_bounded (Evict r).2).
Proof.
  split; [by split; intros i n Hn|].
  intros [Hwf Hb].
  assert (Hdel : ∀ g, store_wf (with_store r (delete g (node_store_ r))
                                           (wrap64 (curr_size_ r - 1))) ∧
                      history_bounded (with_store r (delete g (node_store_ r))
                                                  (wrap64 (curr_size_ r - 1)))).
  { intros g. split; intros i n; simpl; rewrite lookup_delete;
      case_decide; try done; [apply Hwf|apply Hb]. }
  split; [|split; [|split]].
  - intros Hk.
    destruct (RecordAccess_facts frame_id r Hk Hwf Hb)
      as (? & ? & _).
    done.
  - intros r'. unfold SetEvictable.
    destruct (node_store_ r !! frame_id) as [n|] eqn:Hn; [|done].
    simpl. intros [= <-].
    split; intros i m; simpl; rewrite lookup_insert; case_decide as Hi.
    + intros [= <-]. subst i. apply (Hwf _ _ Hn).
    + apply Hwf.
    + intros [= <-]. apply (Hb _ _ Hn).
    + apply Hb.
  - intros r'. unfold Remove.
    destruct (node_store_ r !! frame_id) as [n|] eqn:Hn; [|by intros [= <-]].
    destruct (negb (is_evictable_ n)); [done|]. intros [= <-]. apply Hdel.
  - unfold Evict.
    destruct (scan (map_to_list (node_store_ r)) None) as [v|]; [|done].
    apply Hdel.
Qed.

End ReplacerInvariants.

(** * More on the buffer pool manager *)

Section BufferPoolPaths.

Import BufferPool.

Context {Data : Type}.
Variable zero_data : Data.

Implicit Types s : BufferPoolManager Data.

Lemma wrap_int_small (x : Z) : - 2 ^ 31 <= x < 2 ^ 31 → wrap_int x = x.
Proof. unfold wrap_int. intros Hx. rewrite Z.mod_small; lia. Qed.

Lemma set_replacer_id s : set_replacer (replacer_ s) s = s.
Proof. by destruct s. Qed.

(** Without an evictable node the scan of [Evict] finds no victim. *)
Lemma scan_no_evictable (l : list (Z * Replacer.LRUKNode)) :
  (∀ p, p ∈ l → Replacer.is_evictable_ p.2 = false) →
  Replacer.scan l None = None.
Proof.
  unfold Replacer.scan. induction l as [|p l IH]; intros Hall; [done|].
  simpl. unfold Replacer.scan_step at 2.
  rewrite (Hall p) by (apply elem_of_cons; by left). simpl. apply IH.
  intros q Hq. apply Hall. apply elem_of_cons. by right.
Qed.

Lemma Evict_no_evictable (r : Replacer.LRUKReplacer) :
  (∀ i n, Replacer.node_store_ r !! i = Some n →
          Replacer.is_evictable_ n = false) →
  Replacer.Evict r = (false, INVALID_PAGE_ID, r).
Proof.
  intros Hall. unfold Replacer.Evict. rewrite scan_no_evictable; [done|].
  intros [i n] Hin. apply elem_of_map_to_list in Hin. by apply (Hall i n).
Qed.

Lemma SetEvictable_known (f : Z) (b : bool) (r : Replacer.LRUKReplacer) :
  is_Some (Replacer.node_store_ r !! f) →
  ∃ r' n, Replacer.SetEvictable f b r = Ok r' ∧
          Replacer.node_store_ r' !! f = Some n ∧
          Replacer.is_evictable_ n = b.
Proof.
  intros [n Hn]. unfold Replacer.SetEvictable. rewrite Hn. simpl.
  eexists _, _. split; [reflexivity|]. simpl.
  rewrite lookup_insert_eq. done.
Qed.

(** X5: [UnpinPage] returns false and changes nothing for a page that is
    not in the page table or whose pin count is already zero.  Otherwise it
    returns true, lowers the pin count by one and ors the dirty flag with
    its argument, so a clean unpin never clears the flag; the buffer, the
    page id and every other frame stay as they are.  The replacer is told
    that the frame is evictable exactly when the count reaches zero. *)
Theorem UnpinPage_decrements_pin_count s (page_id : Z) (is_dirty : bool) :
  (page_table_ s !! page_id = None →
   UnpinPage page_id is_dirty s = Ok (false, s)) ∧
  (∀ f pg,
     page_table_ s !! page_id = Some f → 0 <= f →
     pages_ s !! Z.to_nat f = Some pg →
     (pin_count_ pg = 0 → UnpinPage page_id is_dirty s = Ok (false, s)) ∧
     (0 < pin_count_ pg < 2 ^ 31 →
      (pin_count_ pg = 1 →
       is_Some (Replacer.node_store_ (replacer_ s) !! f)) →
      ∃ r',
        UnpinPage page_id is_dirty s =
          Ok (true,
              set_replacer r'
                (set_pages
                   (<[Z.to_nat f :=
                        mkPage (data_ pg) (page_id_ pg) (pin_count_ pg - 1)
                               (is_dirty_ pg || is_dirty)]> (pages_ s)) s)) ∧
        if pin_count_ pg =? 1
        then Replacer.SetEvictable f true (replacer_ s) = Ok r'
        else r' = replacer_ s)).
Proof.
  split.
  - intros Hpt. unfold UnpinPage, bind, get. by rewrite Hpt.
  - intros f pg Hpt Hf Hpg. split.
    + intros Hpin. unfold UnpinPage, bind, get. rewrite Hpt.
      rewrite (frame_at_ok s f pg Hf Hpg). by rewrite Hpin.
    + intros Hpin Hnode. unfold UnpinPage, bind, get. rewrite Hpt.
      rewrite (frame_at_ok s f pg Hf Hpg).
      destruct (pin_count_ pg =? 0) eqn:E0; [apply Z.eqb_eq in E0; lia|].
      rewrite wrap_int_small by lia.
      unfold set_frame, modify, replacer_SetEvictable, ret. simpl.
      destruct (pin_count_ pg =? 1) eqn:E1.
      * apply Z.eqb_eq in E1. destruct (Hnode E1) as [n Hn].
        replace (pin_count_ pg - 1 =? 0) with true by (symmetry; apply Z.eqb_eq; lia).
        simpl. unfold Replacer.SetEvictable. rewrite Hn. simpl.
        eexists. split; reflexivity.
      * apply Z.eqb_neq in E1.
        replace (pin_count_ pg - 1 =? 0) with false by (symmetry; apply Z.eqb_neq; lia).
        simpl. exists (replacer_ s). split; reflexivity.
Qed.

(** X6: when the free list is empty and the replacer holds no evictable
    frame, [NewPage] and [FetchPage] of a page that is not in the pool
    return [nullptr] and leave the pool as it was: no page id is consumed,
    no mapping changes and the disk sees no request. *)
Theorem no_frame_available s :
  free_list_ s = [] →
  (∀ i n, Replacer.node_store_ (replacer_ s) !! i = Some n →
          Replacer.is_evictable_ n = false) →
  NewPage s = Ok (None, s) ∧
  ∀ page_id, page_table_ s !! page_id = None →
             FetchPage page_id s = Ok (None, s).
Proof.
  intros Hfree Hnone.
  assert (Hchoose : choose_frame s = Ok (None, s)).
  { unfold choose_frame, bind, get. rewrite Hfree.
    unfold replacer_Evict. rewrite (Evict_no_evictable _ Hnone). simpl.
    unfold ret. by rewrite set_replacer_id. }
  split.
  - unfold NewPage. by rewrite (bind_ok _ _ _ _ _ Hchoose).
  - intros page_id Hpt. unfold FetchPage, bind at 1, get. rewrite Hpt.
    by rewrite (bind_ok _ _ _ _ _ Hchoose).
Qed.

(** How [NewPage] and [FetchPage] get their frame: from the front of the
    free list, else from the replacer. *)
Lemma choose_frame_ok s (f : Z) (is_free : bool) :
  (is_free = true ∧ ∃ rest, free_list_ s = f :: rest) ∨
  (is_free = false ∧ free_list_ s = [] ∧
   (Replacer.Evict (replacer_ s)).1 = (true, f)) →
  choose_frame s =
    Ok (Some (f, is_free),
        if is_free then set_free_list (tl (free_list_ s)) s
        else set_replacer (Replacer.Evict (replacer_ s)).2 s).
Proof.
  intros [[-> [rest Hfree]]|(-> & Hfree & Hev)];
    unfold choose_frame, bind, get; rewrite Hfree; simpl.
  - done.
  - unfold replacer_Evict.
    destruct (Replacer.Evict (replacer_ s)) as [[ok fid] r'].
    simpl in Hev. injection Hev as -> ->. done.
Qed.

(** X7: [FetchPage] of a page that is not in the pool, when a frame is
    available (the front of the free list, else the replacer's victim).  A
    victim loses its page-table entry, and a dirty frame is first written
    to the disk under its old page id.  Then the page is read from the disk,
    which after that write-back holds the buffer [d] for it: the frame
    holds [d], whatever it held before, with pin count 1 and a clean flag;
    the page is mapped to the frame and the replacer has the frame as
    accessed and not evictable.  The read is logged after the write-back and
    the page-id counter is not touched. *)
Theorem FetchPage_miss_loads_page_from_disk
    s (page_id f : Z) (is_free : bool) (old : Page Data) (d : Data) :
  page_table_ s !! page_id = None →
  (is_free = true ∧ ∃ rest, free_list_ s = f :: rest) ∨
  (is_free = false ∧ free_list_ s = [] ∧
   (Replacer.Evict (replacer_ s)).1 = (true, f)) →
  0 <= f →
  pages_ s !! Z.to_nat f = Some old →
  let disk1 := if is_dirty_ old
               then <[page_id_ old := data_ old]> (disk_ s) else disk_ s in
  disk1 !! page_id = Some d →
  ∃ s',
    FetchPage page_id s = Ok (Some f, s') ∧
    pages_ s' = <[Z.to_nat f := mkPage d page_id 1 false]> (pages_ s) ∧
    page_table_ s' =
      <[page_id := f]> (if is_free then page_table_ s
                        else delete (page_id_ old) (page_table_ s)) ∧
    free_list_ s' = tl (free_list_ s) ∧
    next_page_id_ s' = next_page_id_ s ∧
    disk_ s' = disk1 ∧
    disk_log_ s' =
      disk_log_ s ++
      (if is_dirty_ old then [mkRequest true (page_id_ old) (data_ old)]
       else []) ++ [mkRequest false page_id d] ∧
    Replacer.SetEvictable f false
      (Replacer.RecordAccess f
         (if is_free then replacer_ s
          else (Replacer.Evict (replacer_ s)).2)) = Ok (replacer_ s').
Proof.
  intros Hpt Hchoice Hf Hold disk1 Hd.
  pose proof (choose_frame_ok s f is_free Hchoice) as Hchoose.
  unfold FetchPage, bind at 1, get. rewrite Hpt.
  rewrite (bind_ok _ _ _ _ _ Hchoose).
  set (s0 := if is_free then set_free_list (tl (free_list_ s)) s
             else set_replacer (Replacer.Evict (replacer_ s)).2 s).
  assert (Hold0 : pages_ s0 !! Z.to_nat f = Some old)
    by (unfold s0; by destruct is_free).
  rewrite (bind_ok _ _ _ _ _ (frame_at_ok s0 f old Hf Hold0)).
  set (r0 := if is_free then replacer_ s else (Replacer.Evict (replacer_ s)).2).
  destruct (SetEvictable_after_RecordAccess f false r0) as [r'' Hr''].
  assert (Hfl : free_list_ s = [] → tl (free_list_ s) = []) by (by intros ->).
  unfold write_back, disk_write, disk_read, modify, ret, set_frame, modify,
    replacer_RecordAccess, replacer_SetEvictable, bind.
  subst disk1 s0 r0.
  destruct is_free, (is_dirty_ old); simpl in *; rewrite Hd; simpl;
    rewrite Hr''; simpl;
    (eexists; split; [reflexivity|]); simpl;
    rewrite <- ?app_assoc; repeat split; try done.
  all: destruct Hchoice as [[? _]|(_ & Hfree & _)]; [done|]; by rewrite Hfree.
Qed.

(** X8: [NewPage] when a frame is available.  The victim's mapping is
    erased and a dirty frame is written back as in [FetchPage]; the frame
    gets the next page id, pin count 1 and a clean flag and is mapped and
    pinned in the replacer.  The buffer is not read from the disk and not
    reset: it is the buffer the frame held. *)
Theorem NewPage_takes_over_frame s (f : Z) (is_free : bool) (old : Page Data) :
  (is_free = true ∧ ∃ rest, free_list_ s = f :: rest) ∨
  (is_free = false ∧ free_list_ s = [] ∧
   (Replacer.Evict (replacer_ s)).1 = (true, f)) →
  0 <= f →
  pages_ s !! Z.to_nat f = Some old →
  ∃ s',
    NewPage s = Ok (Some (next_page_id_ s, f), s') ∧
    pages_ s' =
      <[Z.to_nat f := mkPage (data_ old) (next_page_id_ s) 1 false]> (pages_ s) ∧
    page_table_ s' =
      <[next_page_id_ s := f]> (if is_free then page_table_ s
                                else delete (page_id_ old) (page_table_ s)) ∧
    free_list_ s' = tl (free_list_ s) ∧
    next_page_id_ s' = wrap_int (next_page_id_ s + 1) ∧
    disk_ s' = (if is_dirty_ old
                then <[page_id_ old := data_ old]> (disk_ s) else disk_ s) ∧
    disk_log_ s' =
      disk_log_ s ++
      (if is_dirty_ old then [mkRequest true (page_id_ old) (data_ old)]
       else []) ∧
    Replacer.SetEvictable f false
      (Replacer.RecordAccess f
         (if is_free then replacer_ s
          else (Replacer.Evict (replacer_ s)).2)) = Ok (replacer_ s').
Proof.
  intros Hchoice Hf Hold.
  pose proof (choose_frame_ok s f is_free Hchoice) as Hchoose.
  unfold NewPage.
  rewrite (bind_ok _ _ _ _ _ Hchoose).
  set (s0 := if is_free then set_free_list (tl (free_list_ s)) s
             else set_replacer (Replacer.Evict (replacer_ s)).2 s).
  assert (Hold0 : pages_ s0 !! Z.to_nat f = Some old)
    by (unfold s0; by destruct is_free).
  rewrite (bind_ok _ _ _ _ _ (frame_at_ok s0 f old Hf Hold0)).
  set (r0 := if is_free then replacer_ s else (Replacer.Evict (replacer_ s)).2).
  destruct (SetEvictable_after_RecordAccess f false r0) as [r'' Hr''].
  unfold write_back, disk_write, AllocatePage, modify, ret, set_frame, modify,
    replacer_RecordAccess, replacer_SetEvictable, bind.
  subst s0 r0.
  destruct is_free, (is_dirty_ old); simpl in *; rewrite Hr''; simpl;
    (eexists; split; [reflexivity|]); simpl;
    rewrite ?app_nil_r; repeat split; try done.
  all: destruct Hchoice as [[? _]|(_ & Hfree & _)]; [done|]; by rewrite Hfree.
Qed.

(** X9: [DeletePage] of an unpinned page throws its buffer away without a
    disk write, even when the frame is dirty, and resets the buffer, so a
    [NewPage] that gets the frame from the free list starts from zeros.  The
    page-table entry of the deleted page survives both calls: the deleted id
    and the new id are mapped to the same frame, and a later [FetchPage] of
    the deleted id pins the frame of the new page instead of reading the disk.
    Stated for an empty free list, so that the freed frame is the next one
    handed out. *)
Theorem DeletePage_then_NewPage_reuses_frame
    s (page_id f : Z) (pg : Page Data) :
  page_table_ s !! page_id = Some f →
  0 <= f →
  pages_ s !! Z.to_nat f = Some pg →
  pin_count_ pg <= 0 →
  (∀ n, Replacer.node_store_ (replacer_ s) !! f = Some n →
        Replacer.is_evictable_ n = true) →
  free_list_ s = [] →
  page_id ≠ next_page_id_ s →
  ∃ s1 s2 s3,
    DeletePage zero_data page_id s = Ok (true, s1) ∧
    disk_log_ s1 = disk_log_ s ∧
    NewPage s1 = Ok (Some (next_page_id_ s, f), s2) ∧
    pages_ s2 !! Z.to_nat f =
      Some (mkPage zero_data (next_page_id_ s) 1 false) ∧
    disk_log_ s2 = disk_log_ s ∧
    page_table_ s2 !! page_id = Some f ∧
    page_table_ s2 !! next_page_id_ s = Some f ∧
    FetchPage page_id s2 = Ok (Some f, s3) ∧
    pages_ s3 !! Z.to_nat f =
      Some (mkPage zero_data (next_page_id_ s) 2 false) ∧
    disk_log_ s3 = disk_log_ s.
Proof.
  intros Hpt Hf Hpg Hpin Hrep Hfree Hne.
  assert (Hlt : (Z.to_nat f < length (pages_ s))%nat)
    by (eapply lookup_lt_Some; eauto).
  assert (∃ r1, Replacer.Remove f (replacer_ s) = Ok r1) as [r1 Hr1].
  { unfold Replacer.Remove.
    destruct (Replacer.node_store_ (replacer_ s) !! f) as [n|] eqn:Hn; [|eauto].
    rewrite (Hrep n eq_refl); simpl. eauto. }
  unfold DeletePage, bind, get. rewrite Hpt.
  rewrite (frame_at_ok s f pg Hf Hpg).
  destruct (0 <? pin_count_ pg) eqn:E; [apply Z.ltb_lt in E; lia|].
  unfold set_frame, modify, replacer_Remove, DeallocatePage, ret; simpl.
  rewrite Hr1, Hfree. simpl.
  destruct (SetEvictable_after_RecordAccess f false r1) as [r2 Hr2].
  destruct (SetEvictable_after_RecordAccess f false r2) as [r3 Hr3].
  eexists _, _, _. split; [reflexivity|]. split; [done|].
  unfold NewPage, choose_frame, bind, get; simpl.
  unfold modify, ret, frame_at; simpl.
  destruct (f <? 0) eqn:E'; [apply Z.ltb_lt in E'; lia|].
  rewrite list_lookup_insert_eq by done. simpl.
  unfold write_back, AllocatePage, set_frame, modify,
    replacer_RecordAccess, replacer_SetEvictable; simpl.
  rewrite Hr2. simpl.
  split; [reflexivity|]. simpl.
  rewrite list_insert_insert_eq.
  split; [by apply list_lookup_insert_eq|]. split; [done|].
  split; [by rewrite lookup_insert_ne|].
  split; [by rewrite lookup_insert_eq|].
  unfold FetchPage, bind, get; simpl.
  rewrite lookup_insert_ne by done. rewrite Hpt.
  unfold frame_at; simpl. rewrite E'.
  rewrite list_lookup_insert_eq by done. simpl.
  unfold set_frame, modify, replacer_RecordAccess, replacer_SetEvictable, ret;
    simpl.
  rewrite Hr3. simpl.
  split; [reflexivity|]. simpl.
  rewrite list_insert_insert_eq.
  split; [by apply list_lookup_insert_eq|done].
Qed.

(** The loop of [FlushAllPages] over a list of page-table entries. *)
Lemma flush_loop (l : list (Z * Z)) :
  ∀ s,
    NoDup l.*1 →
    (∀ p f, (p, f) ∈ l →
            page_table_ s !! p = Some f ∧ 0 <= f ∧
            is_Some (pages_ s !! Z.to_nat f)) →
    ∃ s' reqs,
      foldr (λ p k, bind (FlushPage p.1) (λ _, k)) (ret tt) l s = Ok (tt, s') ∧
      pages_ s' = pages_ s ∧ page_table_ s' = page_table_ s ∧
      replacer_ s' = replacer_ s ∧ free_list_ s' = free_list_ s ∧
      next_page_id_ s' = next_page_id_ s ∧
      disk_log_ s' = disk_log_ s ++ reqs ∧
      Forall2 (λ pf req, ∃ pg, pages_ s !! Z.to_nat pf.2 = Some pg ∧
                               req = mkRequest true (page_id_ pg) (data_ pg))
              l reqs ∧
      ((∀ p f pg, (p, f) ∈ l → pages_ s !! Z.to_nat f = Some pg →
                  page_id_ pg = p) →
       (∀ p f pg, (p, f) ∈ l → pages_ s !! Z.to_nat f = Some pg →
                  disk_ s' !! p = Some (data_ pg)) ∧
       (∀ q, q ∉ l.*1 → disk_ s' !! q = disk_ s !! q)).
Proof.
  induction l as [|[p f] l IH]; intros s Hnd Hall.
  - exists s, []. simpl. rewrite app_nil_r.
    do 7 (split; [done|]). split; [constructor|].
    intros _. split; [|done].
    intros p f pg Hin. by apply elem_of_nil in Hin.
  - apply NoDup_cons in Hnd as [Hp Hnd]. simpl in Hp.
    destruct (Hall p f) as (Hpt & Hf & [pg Hpg]); [apply elem_of_cons; by left|].
    assert (Hflush : FlushPage p s =
              Ok (true, set_disk (<[page_id_ pg := data_ pg]> (disk_ s))
                                 (disk_log_ s ++
                                    [mkRequest true (page_id_ pg) (data_ pg)]) s)).
    { unfold FlushPage, bind, get. rewrite Hpt.
      by rewrite (frame_at_ok s f pg Hf Hpg). }
    simpl. rewrite (bind_ok _ _ _ _ _ Hflush).
    match goal with
    | |- context [foldr _ _ l ?s1] =>
        destruct (IH s1 Hnd) as
          (s' & reqs & Hrun & Hpages & Hptab & Hrep & Hfl & Hnext & Hlog & Hreqs & Hdisk)
    end.
    { intros q g Hin. simpl. apply Hall. apply elem_of_cons. by right. }
    simpl in *.
    exists s', (mkRequest true (page_id_ pg) (data_ pg) :: reqs).
    split; [exact Hrun|].
    do 5 (split; [done|]).
    split; [by rewrite Hlog, <- app_assoc|].
    split; [constructor; [eauto|done]|].
    intros Hid.
    destruct Hdisk as [Hin Hout].
    { intros q g pg' Hq. apply Hid. apply elem_of_cons. by right. }
    assert (Hpid : page_id_ pg = p).
    { apply (Hid p f pg); [apply elem_of_cons; by left|done]. }
    split.
    + intros q g pg' Hq Hpg'. apply elem_of_cons in Hq as [[= -> ->]|Hq].
      * rewrite Hout by done. rewrite Hpid, lookup_insert_eq. congruence.
      * by apply (Hin q g pg').
    + intros q Hq. rewrite not_elem_of_cons in Hq.
      destruct Hq as [Hqp Hq].
      rewrite Hout by done. rewrite Hpid. by apply lookup_insert_ne.
Qed.

(** X10: [FlushAllPages] issues one write request for every entry of the
    page table, in the order the table is iterated, each with the page id
    and a snapshot of the buffer of the frame the entry points to.  Pages,
    dirty flags, pin counts, page table and replacer are left as they are.
    When every entry points to a frame that carries its page id, the disk
    afterwards holds the buffer of every mapped page and what it held for
    every other page. *)
Theorem FlushAllPages_writes_every_mapped_page s :
  (∀ p f, page_table_ s !! p = Some f →
          0 <= f ∧ is_Some (pages_ s !! Z.to_nat f)) →
  ∃ s' reqs,
    FlushAllPages s = Ok (tt, s') ∧
    pages_ s' = pages_ s ∧ page_table_ s' = page_table_ s ∧
    replacer_ s' = replacer_ s ∧ free_list_ s' = free_list_ s ∧
    next_page_id_ s' = next_page_id_ s ∧
    disk_log_ s' = disk_log_ s ++ reqs ∧
    Forall2 (λ pf req, ∃ pg, pages_ s !! Z.to_nat pf.2 = Some pg ∧
                             req = mkRequest true (page_id_ pg) (data_ pg))
            (map_to_list (page_table_ s)) reqs ∧
    ((∀ p f pg, page_table_ s !! p = Some f →
                pages_ s !! Z.to_nat f = Some pg → page_id_ pg = p) →
     (∀ p f pg, page_table_ s !! p = Some f →
                pages_ s !! Z.to_nat f = Some pg →
                disk_ s' !! p = Some (data_ pg)) ∧
     (∀ q, page_table_ s !! q = None → disk_ s' !! q = disk_ s !! q)).
Proof.
  intros Hall.
  destruct (flush_loop (map_to_list (page_table_ s)) s)
    as (s' & reqs & Hrun & Hpages & Hptab & Hrep & Hfl & Hnext & Hlog & Hreqs & Hdisk).
  { apply NoDup_fst_map_to_list. }
  { intros p f Hin. apply elem_of_map_to_list in Hin.
    split; [done|]. exact (Hall p f Hin). }
  exists s', reqs.
  split; [exact Hrun|]. do 7 (split; [done|]).
  intros Hid. destruct Hdisk as [Hin Hout].
  { intros p f pg Hpf. apply Hid. by apply elem_of_map_to_list. }
  split.
  - intros p f pg Hpf. apply Hin. by apply elem_of_map_to_list.
  - intros q Hq. apply Hout. intros Hq'.
    apply list_elem_of_fmap in Hq' as [[q' g] [-> Hq']].
    apply elem_of_map_to_list in Hq'. simpl in Hq. congruence.
Qed.

(** X11: a guard taken with [FetchPageBasic] / [FetchPageRead] /
    [FetchPageWrite] on a page that is in the pool pins the page once, and
    dropping the guard unpins it once: the pin count is back where it was,
    the buffer, the page table, the free list and the disk are untouched,
    and the dirty flag is set exactly when it was set before or the guard
    was used through [AsMut].  The replacer ends with the frame evictable
    exactly when the pin count is zero. *)
Theorem guard_fetch_then_drop
    s (page_id f : Z) (pg : Page Data) (dirty : bool) :
  page_table_ s !! page_id = Some f →
  0 <= f →
  pages_ s !! Z.to_nat f = Some pg →
  page_id_ pg = page_id →
  0 <= pin_count_ pg < 2 ^ 31 - 1 →
  ∃ s1 s2,
    FetchPageGuarded page_id s = Ok (mkGuard (Some f) false, s1) ∧
    pin_count_ <$> pages_ s1 !! Z.to_nat f = Some (pin_count_ pg + 1) ∧
    Drop (mkGuard (Some f) dirty) s1 = Ok (tt, s2) ∧
    pages_ s2 =
      <[Z.to_nat f := mkPage (data_ pg) page_id (pin_count_ pg)
                             (is_dirty_ pg || dirty)]> (pages_ s) ∧
    (dirty = false → pages_ s2 = pages_ s) ∧
    page_table_ s2 = page_table_ s ∧
    free_list_ s2 = free_list_ s ∧
    next_page_id_ s2 = next_page_id_ s ∧
    disk_log_ s2 = disk_log_ s ∧
    ∃ n, Replacer.node_store_ (replacer_ s2) !! f = Some n ∧
         Replacer.is_evictable_ n = bool_decide (pin_count_ pg = 0).
Proof.
  intros Hpt Hf Hpg Hid Hpin.
  assert (Hlt : (Z.to_nat f < length (pages_ s))%nat)
    by (eapply lookup_lt_Some; eauto).
  destruct (SetEvictable_known f false (Replacer.RecordAccess f (replacer_ s)))
    as (r1 & n1 & Hr1 & Hn1 & Hflag1).
  { simpl. rewrite lookup_insert_eq. eauto. }
  set (pg1 := mkPage (data_ pg) (page_id_ pg) (pin_count_ pg + 1) (is_dirty_ pg)).
  set (s1 := set_replacer r1 (set_pages (<[Z.to_nat f := pg1]> (pages_ s)) s)).
  assert (Hfetch : FetchPage page_id s = Ok (Some f, s1)).
  { unfold FetchPage, bind, get. rewrite Hpt.
    rewrite (frame_at_ok s f pg Hf Hpg).
    unfold set_frame, modify, replacer_RecordAccess, replacer_SetEvictable, ret;
      simpl.
    rewrite Hr1. rewrite wrap_int_small by lia. done. }
  assert (Hpg1 : pages_ s1 !! Z.to_nat f = Some pg1)
    by (by apply list_lookup_insert_eq).
  set (pg2 := mkPage (data_ pg) page_id (pin_count_ pg) (is_dirty_ pg || dirty)).
  assert (∃ r2 n2,
            (if pin_count_ pg =? 0
             then Replacer.SetEvictable f true r1 = Ok r2 else r2 = r1) ∧
            Replacer.node_store_ r2 !! f = Some n2 ∧
            Replacer.is_evictable_ n2 = bool_decide (pin_count_ pg = 0))
    as (r2 & n2 & Hr2 & Hn2 & Hflag2).
  { destruct (pin_count_ pg =? 0) eqn:E1.
    - apply Z.eqb_eq in E1.
      destruct (SetEvictable_known f true r1) as (r2 & n2 & ? & ? & ?); [eauto|].
      exists r2, n2. by rewrite bool_decide_eq_true_2.
    - apply Z.eqb_neq in E1. exists r1, n1.
      by rewrite bool_decide_eq_false_2. }
  set (s2 := set_replacer r2 (set_pages (<[Z.to_nat f := pg2]> (pages_ s)) s)).
  assert (Hdrop : Drop (mkGuard (Some f) dirty) s1 = Ok (tt, s2)).
  { unfold Drop; simpl.
    rewrite (bind_ok _ _ _ _ _ (frame_at_ok s1 f pg1 Hf Hpg1)).
    unfold UnpinPage, bind, get. simpl. rewrite Hid, Hpt.
    rewrite (frame_at_ok s1 f pg1 Hf Hpg1). simpl.
    destruct (pin_count_ pg + 1 =? 0) eqn:E0; [apply Z.eqb_eq in E0; lia|].
    replace (pin_count_ pg + 1 - 1) with (pin_count_ pg) by lia.
    rewrite wrap_int_small by lia.
    unfold set_frame, modify, replacer_SetEvictable, ret; simpl.
    rewrite list_insert_insert_eq. rewrite Hid.
    destruct (pin_count_ pg =? 0); simpl.
    - by rewrite Hr2.
    - by subst r2. }
  exists s1, s2.
  split; [unfold FetchPageGuarded; by rewrite (bind_ok _ _ _ _ _ Hfetch)|].
  split; [by rewrite Hpg1|].
  split; [exact Hdrop|].
  split; [done|]. split.
  { intros ->. simpl. apply list_insert_id.
    rewrite Hpg. f_equal. unfold pg2. rewrite orb_false_r.
    destruct pg; simpl in *. congruence. }
  do 4 (split; [done|]).
  by exists n2.
Qed.

End BufferPoolPaths.

(** * Bucket pages as finite maps *)

Section BucketFacts.

Import HashTable.

Context {K V : Type}.
Variable cmp : K → K → Z.

(** The comparator returns zero exactly on equal keys, as [IntComparator]
    and [GenericComparator] do. *)
Hypothesis cmp_eq : ∀ a b : K, cmp a b = 0 ↔ a = b.

Implicit Types (l : list (K * V)) (b : BucketPage K V).

Lemma cmp_eqb_true (a : K) : (cmp a a =? 0) = true.
Proof. apply Z.eqb_eq. by apply cmp_eq. Qed.

Lemma cmp_eqb_false (a c : K) : a ≠ c → (cmp a c =? 0) = false.
Proof. intros Hne. apply Z.eqb_neq. by rewrite cmp_eq. Qed.

Lemma lookup_entries_None (key : K) l :
  lookup_entries cmp key l = None ↔ key ∉ l.*1.
Proof.
  induction l as [|[k v] l IH]; simpl.
  - split; [intros _ Hin; by apply elem_of_nil in Hin|done].
  - rewrite not_elem_of_cons. destruct (cmp key k =? 0) eqn:E.
    + apply Z.eqb_eq, cmp_eq in E. split; [done|]. by intros [? _].
    + apply Z.eqb_neq in E. rewrite cmp_eq in E. rewrite IH.
      split; [done|]. by intros [_ ?].
Qed.

Lemma lookup_entries_Some (key : K) (v : V) l :
  NoDup l.*1 → lookup_entries cmp key l = Some v ↔ (key, v) ∈ l.
Proof.
  induction l as [|[k v0] l IH]; simpl; intros Hnd.
  - split; [done|]. intros Hin. by apply elem_of_nil in Hin.
  - apply NoDup_cons in Hnd as [Hk Hnd]. rewrite elem_of_cons.
    destruct (cmp key k =? 0) eqn:E.
    + apply Z.eqb_eq, cmp_eq in E. subst k. split.
      * intros [= ->]. by left.
      * intros [[= ->]|Hin]; [done|].
        exfalso. apply Hk. apply list_elem_of_fmap. by exists (key, v).
    + apply Z.eqb_neq in E. rewrite cmp_eq in E. rewrite (IH Hnd).
      split; [by right|]. intros [[= -> ->]|Hin]; done.
Qed.

Lemma lookup_entries_app (key : K) l1 l2 :
  lookup_entries cmp key (l1 ++ l2) =
  match lookup_entries cmp key l1 with
  | Some v => Some v
  | None => lookup_entries cmp key l2
  end.
Proof.
  induction l1 as [|[k v] l1 IH]; simpl; [done|].
  by destruct (cmp key k =? 0).
Qed.

(** On a bucket without duplicate keys a lookup does not depend on the
    order of the slots. *)
Lemma lookup_entries_Permutation (key : K) l l' :
  NoDup l.*1 → l ≡ₚ l' →
  lookup_entries cmp key l = lookup_entries cmp key l'.
Proof.
  intros Hnd Hp.
  assert (Hnd' : NoDup l'.*1) by (by rewrite <- Hp).
  destruct (lookup_entries cmp key l') as [v|] eqn:E.
  - apply lookup_entries_Some; [done|]. rewrite Hp.
    by apply lookup_entries_Some.
  - apply lookup_entries_None. rewrite Hp. by apply lookup_entries_None.
Qed.

(** Where the scan of [Remove] stops. *)
Lemma find_index_spec (key : K) l :
  (find_index cmp key l = length l ∧ lookup_entries cmp key l = None) ∨
  (∃ v, l !! find_index cmp key l = Some (key, v) ∧
        lookup_entries cmp key l = Some v).
Proof.
  induction l as [|[k v] l IH]; simpl; [by left|].
  destruct (cmp key k =? 0) eqn:E.
  - apply Z.eqb_eq, cmp_eq in E. subst k. right. by exists v.
  - destruct IH as [[-> ?]|(v' & ? & ?)]; [by left|right; by exists v'].
Qed.

(** Moving the last entry into slot [i] removes exactly the entry of slot
    [i]. *)
Lemma remove_slot_Permutation (i : nat) l (e : K * V) :
  l !! i = Some e → l ≡ₚ e :: remove_slot i l.
Proof.
  intros Hi. unfold remove_slot.
  destruct (last l) as [x|] eqn:Hlast.
  - apply last_Some in Hlast as [l' ->]. rewrite removelast_last.
    pose proof (lookup_lt_Some _ _ _ Hi) as Hlt. rewrite length_app in Hlt.
    simpl in Hlt.
    destruct (i <? length l')%nat eqn:E.
    + apply Nat.ltb_lt in E. rewrite lookup_app_l in Hi by done.
      rewrite insert_take_drop by done.
      rewrite <- (take_drop_middle l' i e Hi) at 1.
      rewrite <- app_assoc. simpl.
      rewrite <- !Permutation_middle. by rewrite app_nil_r.
    + apply Nat.ltb_ge in E. assert (i = length l') as -> by lia.
      rewrite list_lookup_middle in Hi by done. injection Hi as <-.
      symmetry. apply Permutation_cons_append.
  - apply last_None in Hlast. by subst l.
Qed.

Lemma remove_slot_spec (i : nat) l (k : K) (v : V) :
  NoDup l.*1 → l !! i = Some (k, v) →
  NoDup (remove_slot i l).*1 ∧
  length l = S (length (remove_slot i l)) ∧
  lookup_entries cmp k (remove_slot i l) = None ∧
  ∀ k', k' ≠ k →
        lookup_entries cmp k' (remove_slot i l) = lookup_entries cmp k' l.
Proof.
  intros Hnd Hi.
  pose proof (remove_slot_Permutation i l _ Hi) as Hp.
  assert (Hnd' : NoDup ((k, v) :: remove_slot i l).*1) by (by rewrite <- Hp).
  rewrite fmap_cons in Hnd'. apply NoDup_cons in Hnd' as [Hk Hnd'].
  split; [done|]. split; [by rewrite Hp at 1|].
  split; [by apply lookup_entries_None|].
  intros k' Hne. rewrite (lookup_entries_Permutation k' l _ Hnd Hp). simpl.
  by rewrite cmp_eqb_false.
Qed.

(** X12: [Insert] on a bucket page without duplicate keys.  It returns true
    exactly when the bucket is not full and does not hold the key; then the
    key maps to the new value and the size has grown by one.  A refused
    insert leaves the page untouched.  In both cases every other key maps to
    what it mapped to, the keys stay distinct and the size stays within
    [max_size_]. *)
Theorem bucket_Insert_adds_absent_key (key : K) (value : V) b :
  NoDup (array_ b).*1 →
  let r := bucket_Insert cmp key value b in
  (r.1 = true ↔ bucket_IsFull b = false ∧ bucket_Lookup cmp key b = None) ∧
  (r.1 = false → r.2 = b) ∧
  (r.1 = true → bucket_Lookup cmp key r.2 = Some value ∧
                bucket_Size r.2 = bucket_Size b + 1) ∧
  (∀ k', k' ≠ key → bucket_Lookup cmp k' r.2 = bucket_Lookup cmp k' b) ∧
  NoDup (array_ r.2).*1 ∧
  max_size_ r.2 = max_size_ b ∧
  (bucket_Size b <= max_size_ b → bucket_Size r.2 <= max_size_ b).
Proof.
  intros Hnd. unfold bucket_Insert, bucket_IsFull, bucket_Lookup, bucket_Size.
  destruct (Z.of_nat (length (array_ b)) =? max_size_ b) eqn:Efull; simpl.
  { split; [split; [done|by intros [? _]]|]. done. }
  destruct (lookup_entries cmp key (array_ b)) as [v0|] eqn:Elook; simpl.
  { split; [split; [done|by intros [_ ?]]|]. done. }
  apply Z.eqb_neq in Efull.
  split; [done|]. split; [done|]. split.
  { intros _. rewrite lookup_entries_app, Elook. simpl.
    rewrite cmp_eqb_true. split; [done|]. rewrite length_app. simpl. lia. }
  split.
  { intros k' Hne. rewrite lookup_entries_app. simpl.
    rewrite (cmp_eqb_false k' key Hne).
    by destruct (lookup_entries cmp k' (array_ b)). }
  split.
  { rewrite fmap_app. apply NoDup_app. split; [done|]. split.
    - intros k Hk Hk'. simpl in Hk'. apply list_elem_of_singleton in Hk'.
      subst k. by apply lookup_entries_None in Elook.
    - simpl. apply NoDup_singleton. }
  split; [done|].
  rewrite length_app. simpl. lia.
Qed.

(** [Remove] of a key that is there, on a bucket without duplicate keys. *)
Lemma bucket_Remove_present (key : K) (v : V) b :
  NoDup (array_ b).*1 →
  bucket_Lookup cmp key b = Some v →
  (bucket_Remove cmp key b).1 = true ∧
  bucket_Lookup cmp key (bucket_Remove cmp key b).2 = None.
Proof.
  intros Hnd Hv. unfold bucket_Remove, bucket_Lookup in *.
  destruct (find_index_spec key (array_ b)) as [[_ Hnone]|(v' & Hi & _)];
    [congruence|].
  pose proof (lookup_lt_Some _ _ _ Hi) as Hlt.
  destruct (find_index cmp key (array_ b) =? length (array_ b))%nat eqn:E;
    [apply Nat.eqb_eq in E; lia|].
  simpl. split; [done|].
  by destruct (remove_slot_spec _ _ _ _ Hnd Hi) as (_ & _ & Hgone & _).
Qed.

(** X13: [Remove] on a bucket page without duplicate keys.  It returns true
    exactly when the key is in the bucket; then the key is gone and the size
    has shrunk by one, whichever slot the last entry was moved into.  When
    the key is missing the page is untouched.  Every other key maps to what
    it mapped to and the keys stay distinct. *)
Theorem bucket_Remove_removes_only_the_key (key : K) b :
  NoDup (array_ b).*1 →
  let r := bucket_Remove cmp key b in
  (r.1 = true ↔ is_Some (bucket_Lookup cmp key b)) ∧
  (r.1 = false → r.2 = b) ∧
  (r.1 = true → bucket_Size r.2 = bucket_Size b - 1) ∧
  bucket_Lookup cmp key r.2 = None ∧
  (∀ k', k' ≠ key → bucket_Lookup cmp k' r.2 = bucket_Lookup cmp k' b) ∧
  NoDup (array_ r.2).*1 ∧
  max_size_ r.2 = max_size_ b.
Proof.
  intros Hnd. unfold bucket_Remove, bucket_Lookup, bucket_Size.
  destruct (find_index_spec key (array_ b)) as [[Hi Hnone]|(v & Hi & Hsome)].
  - rewrite Hi, Nat.eqb_refl. simpl. rewrite Hnone.
    split; [split; [done|by intros [? ?]]|]. done.
  - pose proof (lookup_lt_Some _ _ _ Hi) as Hlt.
    destruct (find_index cmp key (array_ b) =? length (array_ b))%nat eqn:E;
      [apply Nat.eqb_eq in E; lia|].
    simpl. rewrite Hsome.
    destruct (remove_slot_spec _ _ _ _ Hnd Hi) as (Hnd' & Hlen & Hgone & Hrest).
    split; [split; [eauto|done]|]. split; [done|].
    split; [intros _; lia|]. done.
Qed.

(** X14: [RemoveAt] with an index at or beyond [size_] does nothing.  With
    an index below [size_] it removes the entry of that slot and nothing
    else: the key of the slot is gone, every other key maps to what it
    mapped to, the size has shrunk by one. *)
Theorem bucket_RemoveAt_removes_the_slot (bucket_idx : Z) b :
  NoDup (array_ b).*1 →
  0 <= bucket_idx →
  (bucket_Size b <= bucket_idx → bucket_RemoveAt bucket_idx b = b) ∧
  (bucket_idx < bucket_Size b →
   ∃ e, bucket_EntryAt bucket_idx b = Ok e ∧
        bucket_Lookup cmp e.1 b = Some e.2 ∧
        bucket_Lookup cmp e.1 (bucket_RemoveAt bucket_idx b) = None ∧
        (∀ k', k' ≠ e.1 →
               bucket_Lookup cmp k' (bucket_RemoveAt bucket_idx b) =
               bucket_Lookup cmp k' b) ∧
        bucket_Size (bucket_RemoveAt bucket_idx b) = bucket_Size b - 1 ∧
        NoDup (array_ (bucket_RemoveAt bucket_idx b)).*1).
Proof.
  intros Hnd Hidx. unfold bucket_RemoveAt, bucket_EntryAt, bucket_Lookup,
    bucket_Size.
  split.
  - intros Hge. apply Z.leb_le in Hge. by rewrite Hge.
  - intros Hlt.
    destruct (Z.of_nat (length (array_ b)) <=? bucket_idx) eqn:E;
      [apply Z.leb_le in E; lia|].
    destruct (bucket_idx <? 0) eqn:E0; [apply Z.ltb_lt in E0; lia|].
    destruct (lookup_lt_is_Some_2 (array_ b) (Z.to_nat bucket_idx))
      as [[k v] Hi]; [lia|].
    rewrite Hi. simpl.
    destruct (remove_slot_spec _ _ _ _ Hnd Hi) as (Hnd' & Hlen & Hgone & Hrest).
    exists (k, v). simpl. split; [done|].
    split; [apply lookup_entries_Some; [done|]; by eapply list_elem_of_lookup_2|].
    split; [done|]. split; [done|]. split; [lia|done].
Qed.

End BucketFacts.

(** * Directory pages: indexing, growing and shrinking *)

Section DirectoryAccess.

Import HashTable.

Lemma HashToBucketIndex_shape (d : DirectoryPage) (hash : Z) :
  dir_shape d →
  dir_HashToBucketIndex hash d = Ok (low_bits hash (global_depth_ d)).
Proof.
  intros Hs. pose proof (shape_pow d Hs) as (? & ? & ?).
  pose proof Hs as ((? & ?) & _).
  unfold dir_HashToBucketIndex. rewrite (dir_Size_shape d Hs). simpl.
  unfold low_bits, wrap32, uint32_max.
  rewrite Z.mod_small by lia. do 2 f_equal. rewrite Z.ones_equiv. lia.
Qed.

(** Below [Size()] the assertions of the getters hold and the arrays are
    read inside their bounds. *)
Lemma getters_in_range (d : DirectoryPage) (idx : Z) :
  dir_shape d → 0 <= idx < 2 ^ global_depth_ d →
  ∃ ld id, slot d idx = Some (ld, id) ∧
           dir_GetLocalDepth idx d = Ok ld ∧
           dir_GetBucketPageId idx d = Ok id.
Proof.
  intros Hs Hi.
  destruct (slot_in_range d idx Hs Hi) as (ld & id & Hld & Hid & Hslot).
  exists ld, id. split; [done|].
  unfold dir_GetLocalDepth, dir_GetBucketPageId.
  rewrite (check_idx_shape d idx Hs) by lia. simpl.
  unfold arr_get. rewrite (proj2 (Z.ltb_ge _ _)) by lia.
  by rewrite Hld, Hid.
Qed.

(** X15: on a directory of valid shape [HashToBucketIndex] never fails and
    returns the low [global_depth_] bits of the hash, an index below
    [Size()], so the assertions of [GetBucketPageId] and [GetLocalDepth]
    hold for it.  On a well-formed directory the bucket found depends only
    on the low local-depth bits of the hash: a second hash that agrees with
    the first in those bits is sent to the same bucket page, with the same
    local depth. *)
Theorem HashToBucketIndex_selects_low_bits (d : DirectoryPage) (hash : Z) :
  dir_shape d →
  ∃ idx ld id,
    dir_HashToBucketIndex hash d = Ok idx ∧
    idx = low_bits hash (global_depth_ d) ∧
    0 <= idx < 2 ^ global_depth_ d ∧
    dir_GetLocalDepth idx d = Ok ld ∧
    dir_GetBucketPageId idx d = Ok id ∧
    (depths_bounded d → dir_invariant d →
     ∀ hash' idx',
       low_bits hash' ld = low_bits hash ld →
       dir_HashToBucketIndex hash' d = Ok idx' →
       dir_GetLocalDepth idx' d = Ok ld ∧ dir_GetBucketPageId idx' d = Ok id).
Proof.
  intros Hs. pose proof Hs as ((Hgd & _) & _).
  pose proof (low_bits_range hash (global_depth_ d) Hgd) as Hr.
  destruct (getters_in_range d _ Hs Hr) as (ld & id & Hslot & Hld & Hid).
  exists (low_bits hash (global_depth_ d)), ld, id.
  split; [by apply HashToBucketIndex_shape|]. do 4 (split; [done|]).
  intros Hb Hinv hash' idx' Hlow Hidx'.
  rewrite (HashToBucketIndex_shape d hash' Hs) in Hidx'. injection Hidx' as <-.
  pose proof (low_bits_range hash' (global_depth_ d) Hgd) as Hr'.
  destruct (getters_in_range d _ Hs Hr') as (ld' & id' & Hslot' & Hld' & Hid').
  pose proof (Hb _ _ _ Hr Hslot) as Hbound.
  destruct (Hinv _ _ _ _ _ _ Hr Hr' Hslot Hslot') as [-> ->]; [|done].
  by rewrite !low_bits_low_bits by lia.
Qed.

Lemma check_idx_out_of_range (d : DirectoryPage) (idx : Z) :
  dir_shape d → 2 ^ global_depth_ d <= idx →
  check_idx idx d = Err AssertionFailure.
Proof.
  intros Hs Hi. unfold check_idx. rewrite (dir_Size_shape d Hs). simpl.
  unfold assert. by rewrite (proj2 (Z.ltb_ge _ _)).
Qed.

(** X16: the slot accessors of the directory page, for a bucket page id
    [page_id] in the range of [page_id_t] and a local depth [depth] as the
    caller passes it.  At an index at or beyond [Size()] every accessor stops
    at its assertion.  Below [Size()], [SetBucketPageId] writes the page id
    of the slot and nothing else, and [GetBucketPageId] reads it back;
    [SetLocalDepth] writes the local depth of the slot and nothing else, and
    what [GetLocalDepth] reads back is [depth] modulo 256, the parameter
    being a [uint8_t] (so [depth] itself exactly when it is below 256);
    [IncrLocalDepth] followed by [DecrLocalDepth] gives back the directory
    as it was. *)
Theorem directory_slot_accessors (d : DirectoryPage) (idx page_id depth : Z) :
  dir_shape d → 0 <= idx → - 2 ^ 31 <= page_id < 2 ^ 31 →
  (2 ^ global_depth_ d <= idx →
   dir_GetBucketPageId idx d = Err AssertionFailure ∧
   dir_SetBucketPageId idx page_id d = Err AssertionFailure ∧
   dir_GetLocalDepth idx d = Err AssertionFailure ∧
   dir_SetLocalDepth idx depth d = Err AssertionFailure ∧
   dir_IncrLocalDepth idx d = Err AssertionFailure ∧
   dir_DecrLocalDepth idx d = Err AssertionFailure) ∧
  (idx < 2 ^ global_depth_ d →
   ∃ ld id d1 d2 d3,
     slot d idx = Some (ld, id) ∧
     dir_SetBucketPageId idx page_id d = Ok d1 ∧
     dir_GetBucketPageId idx d1 = Ok page_id ∧
     (∀ k, 0 <= k →
           slot d1 k = if decide (k = idx) then Some (ld, page_id)
                       else slot d k) ∧
     dir_SetLocalDepth idx depth d = Ok d2 ∧
     dir_GetLocalDepth idx d2 = Ok (depth mod 256) ∧
     (0 <= depth < 256 → dir_GetLocalDepth idx d2 = Ok depth) ∧
     (∀ k, 0 <= k →
           slot d2 k = if decide (k = idx) then Some (depth mod 256, id)
                       else slot d k) ∧
     dir_IncrLocalDepth idx d = Ok d3 ∧
     dir_GetLocalDepth idx d3 = Ok ((ld + 1) mod 256) ∧
     (0 <= ld < 256 → dir_DecrLocalDepth idx d3 = Ok d)).
Proof.
  intros Hs Hidx _. split.
  - intros Hge.
    unfold dir_GetBucketPageId, dir_SetBucketPageId, dir_GetLocalDepth,
      dir_SetLocalDepth, dir_IncrLocalDepth, dir_DecrLocalDepth.
    by rewrite (check_idx_out_of_range d idx Hs Hge).
  - intros Hlt.
    pose proof (shape_pow d Hs) as (? & ? & ?).
    pose proof Hs as (Hdepth & Hmax & Hl & Hb).
    destruct (slot_in_range d idx Hs (conj Hidx Hlt))
      as (ld & id & Hld & Hid & Hslot).
    assert (Hset : ∀ ld' id',
              let d' := mkDir (max_depth_ d) (global_depth_ d)
                          (<[Z.to_nat idx := ld']> (local_depths_ d))
                          (<[Z.to_nat idx := id']> (bucket_page_ids_ d)) in
              dir_shape d' ∧
              dir_GetLocalDepth idx d' = Ok ld' ∧
              dir_GetBucketPageId idx d' = Ok id' ∧
              ∀ k, 0 <= k →
                   slot d' k = if decide (k = idx) then Some (ld', id')
                               else slot d k).
    { intros ld' id' d'.
      assert (Hs' : dir_shape d').
      { unfold dir_shape, d'. simpl. rewrite !length_insert. done. }
      assert (Hk : ∀ k, 0 <= k →
                slot d' k = if decide (k = idx) then Some (ld', id')
                            else slot d k).
      { intros k Hk. apply slot_update; eauto. }
      split; [done|].
      destruct (getters_in_range d' idx Hs' (conj Hidx Hlt))
        as (a & c & Hslot' & Hga & Hgc).
      rewrite Hk, decide_True in Hslot' by done. injection Hslot' as <- <-.
      done. }
    assert (Hlid : <[Z.to_nat idx := id]> (bucket_page_ids_ d) =
                   bucket_page_ids_ d) by (by apply list_insert_id).
    assert (Hlld : <[Z.to_nat idx := ld]> (local_depths_ d) =
                   local_depths_ d) by (by apply list_insert_id).
    eexists ld, id, _, _, _. split; [done|].
    split.
    { unfold dir_SetBucketPageId.
      rewrite (check_idx_shape d idx Hs) by lia. simpl.
      rewrite arr_set_ok by lia. simpl. reflexivity. }
    destruct (Hset ld page_id) as (_ & _ & Hgx & Hkx).
    rewrite Hlld in Hgx, Hkx.
    split; [exact Hgx|]. split; [exact Hkx|].
    split.
    { unfold dir_SetLocalDepth, set_local_depth.
      rewrite (check_idx_shape d idx Hs) by lia. simpl.
      rewrite arr_set_ok by lia. simpl. reflexivity. }
    destruct (Hset (depth mod 256) id) as (_ & Hgl & _ & Hkl).
    rewrite Hlid in Hgl, Hkl.
    split; [exact Hgl|].
    split; [intros Hdepth'; by rewrite Hgl, Z.mod_small|].
    split; [exact Hkl|].
    split.
    { unfold dir_IncrLocalDepth, set_local_depth.
      rewrite (check_idx_shape d idx Hs) by lia. simpl.
      unfold arr_get. rewrite (proj2 (Z.ltb_ge _ _)) by lia.
      rewrite Hld. simpl. rewrite arr_set_ok by lia. simpl. reflexivity. }
    destruct (Hset ((ld + 1) mod 256) id) as (Hs3 & Hg3 & _ & _).
    rewrite Hlid in Hs3, Hg3.
    split; [exact Hg3|].
    intros Hrange.
    unfold dir_DecrLocalDepth, set_local_depth.
    rewrite (check_idx_shape _ idx Hs3) by (simpl; lia). simpl.
    unfold arr_get. rewrite (proj2 (Z.ltb_ge _ _)) by lia.
    rewrite list_lookup_insert_eq by (eapply lookup_lt_Some; eauto). simpl.
    rewrite arr_set_ok by (rewrite length_insert; lia). simpl.
    rewrite list_insert_insert_eq.
    replace (((ld + 1) mod 256 - 1) mod 256) with ld.
    + rewrite Hlld. by destruct d.
    + destruct (decide (ld = 255)) as [->|Hne]; [done|].
      rewrite (Z.mod_small (ld + 1)) by lia. rewrite Z.mod_small; lia.
Qed.

(** The loop of [CanShrink]. *)
Lemma can_shrink_from_spec (d : DirectoryPage) (n : nat) :
  ∀ i, 0 <= i → i + Z.of_nat n <= Z.of_nat (length (local_depths_ d)) →
    ∃ b, can_shrink_from n i d = Ok b ∧
         (b = true ↔
          ∀ k ld, i <= k < i + Z.of_nat n →
                  local_depths_ d !! Z.to_nat k = Some ld →
                  ld ≠ global_depth_ d).
Proof.
  induction n as [|n IH]; intros i Hi Hlen.
  - exists true. split; [done|]. split; [|done]. intros _ k ld Hk. lia.
  - cbn [can_shrink_from].
    destruct (arr_get_ok (local_depths_ d) i) as (ld & Hld & ->); [lia|].
    cbn [rbind]. destruct (ld =? global_depth_ d) eqn:E.
    + apply Z.eqb_eq in E. exists false. split; [done|]. split; [done|].
      intros Hall. exfalso. apply (Hall i ld); [lia|done|done].
    + apply Z.eqb_neq in E.
      destruct (IH (i + 1)) as (b & Hrun & Hb); [lia|lia|].
      exists b. split; [done|]. rewrite Hb. split.
      * intros Hall k ld' Hk Hk'.
        destruct (decide (k = i)) as [->|Hne]; [congruence|].
        apply (Hall k ld'); [lia|done].
      * intros Hall k ld' Hk. apply Hall. lia.
Qed.

Lemma CanShrink_spec (d : DirectoryPage) :
  dir_shape d →
  ∃ b, dir_CanShrink d = Ok b ∧
       (b = true ↔
        ∀ k ld id, 0 <= k < 2 ^ global_depth_ d →
                   slot d k = Some (ld, id) → ld ≠ global_depth_ d).
Proof.
  intros Hs. pose proof (shape_pow d Hs) as (? & ? & ?).
  pose proof Hs as (_ & _ & Hl & _).
  unfold dir_CanShrink. rewrite (dir_Size_shape d Hs). cbn [rbind].
  destruct (can_shrink_from_spec d (Z.to_nat (2 ^ global_depth_ d)) 0)
    as (b & Hrun & Hb); [lia|lia|].
  exists b. split; [done|]. rewrite Hb. split.
  - intros Hall k ld id Hk Hslot.
    destruct (slot_in_range d k Hs Hk) as (ld' & id' & Hld & _ & Hslot').
    rewrite Hslot in Hslot'. injection Hslot' as <- <-.
    apply (Hall k ld); [lia|done].
  - intros Hall k ld Hk Hld.
    destruct (slot_in_range d k Hs) as (ld' & id' & Hld' & _ & Hslot'); [lia|].
    rewrite Hld in Hld'. injection Hld' as <-.
    apply (Hall k ld id'); [lia|done].
Qed.

(** Halving a well-formed directory none of whose slots is at full depth. *)
Lemma DecrGlobalDepth_wf (d : DirectoryPage) :
  dir_wf d →
  (∀ k ld id, 0 <= k < 2 ^ global_depth_ d →
              slot d k = Some (ld, id) → ld ≠ global_depth_ d) →
  ∃ d', dir_DecrGlobalDepth d = Ok d' ∧ dir_wf d' ∧
        global_depth_ d' = global_depth_ d - 1 ∧
        ∀ k, slot d' k = slot d k.
Proof.
  intros (Hs & Hbounded & Hinv) Hall.
  pose proof (shape_pow d Hs) as (? & ? & ?).
  pose proof Hs as ((Hgd0 & Hgdmax) & Hmax & Hl & Hb).
  assert (Hpos : 0 < global_depth_ d).
  { destruct (slot_in_range d 0 Hs) as (ld & id & _ & _ & Hslot); [lia|].
    pose proof (Hbounded 0 ld id ltac:(lia) Hslot).
    pose proof (Hall 0 ld id ltac:(lia) Hslot). lia. }
  assert (Hw : wrap32 (global_depth_ d - 1) = global_depth_ d - 1).
  { unfold wrap32, uint32_max. apply Z.mod_small. lia. }
  assert (Hhalf : 2 ^ (global_depth_ d - 1) <= 2 ^ global_depth_ d)
    by (apply Z.pow_le_mono_r; lia).
  unfold dir_DecrGlobalDepth, assert.
  rewrite (proj2 (Z.ltb_lt _ _)) by lia. cbn [rbind]. rewrite Hw.
  eexists. split; [reflexivity|]. split; [|done].
  split; [|split].
  - repeat split; simpl; try done; lia.
  - intros k ld id Hk Hslot. simpl in *.
    change (slot d k = Some (ld, id)) in Hslot.
    pose proof (Hbounded k ld id ltac:(lia) Hslot).
    pose proof (Hall k ld id ltac:(lia) Hslot). lia.
  - intros i j ldi idi ldj idj Hi Hj Hsi Hsj Hlow. simpl in *.
    apply (Hinv i j ldi idi ldj idj); try done; lia.
Qed.

(** X17: [CanShrink] is true exactly when no slot below [Size()] has a
    local depth equal to the global depth.  On a well-formed directory a
    true answer means that the global depth is positive, so the assertion of
    [DecrGlobalDepth] holds, and that the halved directory is well-formed
    again with every slot unchanged. *)
Theorem CanShrink_allows_DecrGlobalDepth (d : DirectoryPage) :
  dir_shape d →
  ∃ b,
    dir_CanShrink d = Ok b ∧
    (b = true ↔
     ∀ k ld id, 0 <= k < 2 ^ global_depth_ d →
                slot d k = Some (ld, id) → ld ≠ global_depth_ d) ∧
    (b = true → depths_bounded d → dir_invariant d →
     ∃ d', dir_DecrGlobalDepth d = Ok d' ∧ dir_wf d' ∧
           global_depth_ d' = global_depth_ d - 1 ∧
           0 <= global_depth_ d' ∧
           ∀ k, slot d' k = slot d k).
Proof.
  intros Hs. destruct (CanShrink_spec d Hs) as (b & Hrun & Hb).
  exists b. split; [done|]. split; [done|].
  intros Htrue Hbounded Hinv.
  destruct (DecrGlobalDepth_wf d) as (d' & Hdec & Hwf' & Hgd & Hslots).
  { done. }
  { by apply Hb. }
  exists d'. do 3 (split; [done|]). split; [|done].
  by destruct Hwf' as (((? & _) & _) & _).
Qed.

(** X18: growing and shrinking again.  After [IncrGlobalDepth] on a
    well-formed directory below its maximal depth, the upper half of the
    slots mirrors the lower half, no slot is at full depth, so [CanShrink]
    answers true, and [DecrGlobalDepth] leads back to a well-formed
    directory of the old depth with the old slots. *)
Theorem IncrGlobalDepth_then_DecrGlobalDepth (d : DirectoryPage) :
  dir_wf d → global_depth_ d < max_depth_ d →
  ∃ d1 d2,
    dir_IncrGlobalDepth d = Ok d1 ∧
    global_depth_ d1 = global_depth_ d + 1 ∧
    (∀ k, 0 <= k < 2 ^ global_depth_ d →
          slot d1 k = slot d k ∧ slot d1 (k + 2 ^ global_depth_ d) = slot d k) ∧
    dir_CanShrink d1 = Ok true ∧
    dir_DecrGlobalDepth d1 = Ok d2 ∧
    dir_wf d2 ∧
    global_depth_ d2 = global_depth_ d ∧
    ∀ k, 0 <= k < 2 ^ global_depth_ d → slot d2 k = slot d k.
Proof.
  intros Hwf Hlt.
  pose proof Hwf as (Hs & Hbounded & Hinv).
  pose proof Hs as ((Hgd0 & _) & _).
  pose proof (shape_pow d Hs) as (? & ? & ?).
  destruct (IncrGlobalDepth_wf d Hwf Hlt) as (d1 & Hgrow & Hwf1 & Hgd1 & Hslot1).
  assert (Hpow : 2 ^ (global_depth_ d + 1) = 2 * 2 ^ global_depth_ d)
    by (rewrite Z.pow_add_r by lia; lia).
  assert (Hnone : ∀ k ld id, 0 <= k < 2 ^ global_depth_ d1 →
                    slot d1 k = Some (ld, id) → ld ≠ global_depth_ d1).
  { intros k ld id Hk Hslot. rewrite Hgd1 in Hk.
    rewrite Hslot1 in Hslot by done.
    pose proof (low_bits_range k (global_depth_ d) Hgd0) as Hr.
    pose proof (Hbounded _ _ _ Hr Hslot). lia. }
  destruct (CanShrink_spec d1) as (b & Hcan & Hb); [by destruct Hwf1|].
  assert (b = true) as -> by (by apply Hb).
  destruct (DecrGlobalDepth_wf d1 Hwf1 Hnone) as (d2 & Hdec & Hwf2 & Hgd2 & Hslot2).
  exists d1, d2. split; [done|]. split; [done|].
  assert (Hlow : ∀ k, 0 <= k < 2 ^ global_depth_ d → slot d1 k = slot d k).
  { intros k Hk. rewrite Hslot1 by lia. by rewrite low_bits_small. }
  split.
  { intros k Hk. split; [by apply Hlow|].
    rewrite Hslot1 by lia. f_equal.
    rewrite low_bits_mod by lia.
    rewrite <- (Z.mul_1_l (2 ^ global_depth_ d)) at 1.
    rewrite Z.mod_add by lia. apply Z.mod_small. lia. }
  split; [done|]. split; [done|]. split; [done|].
  split; [lia|].
  intros k Hk. rewrite Hslot2. by apply Hlow.
Qed.

End DirectoryAccess.

(** * More on the copy-on-write trie *)

Section TrieMore.

Import Trie.

Context {Ty Payload : Type} `{EqDecision Ty}.

Abbreviation node := (TrieNode Ty Payload).
Abbreviation trie := (Trie Ty Payload).

(** A map with at most one entry has no second key. *)
Lemma lookup_single_child (m : gmap ascii node) (k k' : ascii) (c : node) :
  m !! k = Some c → (1 <? size m)%nat = false → k' ≠ k → m !! k' = None.
Proof.
  intros Hk Hsz Hne. apply Nat.ltb_ge in Hsz.
  assert (Hd : size (delete k m) = 0%nat).
  { rewrite map_size_delete_Some by eauto. lia. }
  apply map_size_empty_inv in Hd.
  rewrite <- (lookup_delete_ne m k k') by done. by rewrite Hd.
Qed.

Lemma value_None (n : node) : is_value_node_ n = false → value_ n = None.
Proof. unfold is_value_node_. by destruct (value_ n). Qed.

(** What [remove] does with the child it comes back with: [new_child] takes
    the place of [child] under [k], and [cur] itself is dropped when nothing
    else hangs on it. *)
Lemma rebuild_find (cur child : node) (k : ascii) (rest : string)
    (new_child : option node) :
  children_ cur !! k = Some child →
  (∀ r, r ≠ rest → find r new_child = find r (Some child)) →
  ∀ key', key' ≠ String k rest →
    find key'
      (match new_child with
       | None =>
           if (1 <? size (children_ cur))%nat || is_value_node_ cur
           then (true, Some (Node (delete k (children_ cur)) (value_ cur)))
           else (true, None)
       | Some c => (true, Some (Node (<[k := c]> (children_ cur)) (value_ cur)))
       end).2 = find key' (Some cur).
Proof.
  intros Hc Hsub key' Hne.
  assert (Hsame : ∀ r, String k r ≠ String k rest →
            find r new_child = match walk r child with
                               | Some n => value_ n | None => None end).
  { intros r Hr. apply (Hsub r). congruence. }
  destruct new_child as [c|].
  - destruct key' as [|k' r]; [done|]. simpl.
    rewrite lookup_insert. case_decide as Hk; [subst k'|done].
    rewrite Hc. by apply (Hsame r).
  - destruct ((1 <? size (children_ cur))%nat || is_value_node_ cur) eqn:E.
    + destruct key' as [|k' r]; [done|]. simpl.
      rewrite lookup_delete. case_decide as Hk; [subst k'|done].
      rewrite Hc. by apply (Hsame r).
    + apply orb_false_iff in E as [Hsz Hv].
      destruct key' as [|k' r]; simpl.
      * by rewrite value_None.
      * destruct (decide (k' = k)) as [->|Hk].
        -- rewrite Hc. by apply (Hsame r).
        -- by rewrite (lookup_single_child _ k k' child).
Qed.

(** A removal that takes place touches no other key. *)
Lemma remove_find (rest : string) :
  ∀ (cur : node) (k : ascii),
    (remove cur k rest).1 = true →
    ∀ key', key' ≠ String k rest →
            find key' (remove cur k rest).2 = find key' (Some cur).
Proof.
  induction rest as [|k1 rest IH]; intros cur k; simpl.
  - destruct (children_ cur !! k) as [child|] eqn:Hc; [|done]. simpl.
    destruct (is_value_node_ child) eqn:Hiv; [|done]. simpl. intros _.
    apply (rebuild_find cur child k EmptyString); [done|].
    intros r Hr. destruct (negb (size (children_ child) =? 0)%nat) eqn:Esz.
    + destruct r; [done|]. done.
    + apply negb_false_iff, Nat.eqb_eq, map_size_empty_inv in Esz.
      destruct r as [|c r]; [done|]. simpl. by rewrite Esz.
  - destruct (children_ cur !! k) as [child|] eqn:Hc; [|done]. simpl.
    specialize (IH child k1).
    destruct (remove child k1 rest) as [do_remove new_child]. simpl in IH.
    destruct do_remove; [|done]. intros _.
    apply (rebuild_find cur child k (String k1 rest)); [done|].
    intros r Hr. by apply IH.
Qed.

(** [remove] reports a removal only for a key that holds a value. *)
Lemma remove_true_find (rest : string) :
  ∀ (cur : node) (k : ascii),
    (remove cur k rest).1 = true → is_Some (find (String k rest) (Some cur)).
Proof.
  induction rest as [|k1 rest IH]; intros cur k; simpl.
  - destruct (children_ cur !! k) as [child|] eqn:Hc; [|done]. simpl.
    unfold is_value_node_ at 1 2.
    destruct (value_ child) as [vp|] eqn:Hv; [|done]. eauto.
  - destruct (children_ cur !! k) as [child|] eqn:Hc; [|done]. simpl.
    specialize (IH child k1).
    destruct (remove child k1 rest) as [do_remove new_child]. simpl in IH.
    destruct do_remove; [|done]. intros _. by apply IH.
Qed.

Lemma remove_fst_true (cur : node) (k : ascii) (rest : string) :
  (remove cur k rest).1 = true ∨ remove cur k rest = (false, None).
Proof.
  destruct rest as [|k1 rest]; simpl;
    (destruct (children_ cur !! k) as [child|]; [|by right]).
  - destruct (is_value_node_ child); simpl; [|by right]. left.
    destruct (negb _); simpl; [done|]. by destruct (_ || _).
  - destruct (remove child k1 rest) as [[] new_child]; [|by right].
    left. destruct new_child; [done|]. by destruct (_ || _).
Qed.

(** X19: [Get] after [Put], for every key and every requested type: the
    key that was put reads back the new value when asked for with the type
    it was put with and reads as null under any other type, also when an
    older value of that type is overwritten; every other key reads as
    before. *)
Theorem Get_after_Put (T T' : Ty) (key key' : string) (v : Payload) (t : trie) :
  Get T' key' (Put T key v t) =
  if decide (key' = key)
  then (if decide (T = T') then Some v else None)
  else Get T' key' t.
Proof.
  rewrite !Get_find, Put_put_at, find_put_at.
  by destruct (decide (key' = key)).
Qed.

(** X20: [Remove] touches one key only.  Every other key reads as before,
    although nodes on the path of the removed key may have been dropped; a
    key that holds no value is not removed and the very same trie comes
    back. *)
Theorem Remove_leaves_other_keys (key : string) (t : trie) :
  (∀ T key', key' ≠ key → Get T key' (Remove key t) = Get T key' t) ∧
  (find key t = None → Remove key t = t).
Proof.
  split.
  - intros T key' Hne. rewrite !Get_find.
    assert (Hfind : find key' (Remove key t) = find key' t); [|by rewrite Hfind].
    destruct t as [root|]; [|done].
    destruct key as [|k rest].
    + simpl. destruct (is_value_node_ root); [|done].
      destruct key'; [done|]. done.
    + unfold Remove.
      pose proof (remove_find rest root k) as Hrem.
      destruct (remove root k rest) as [do_delete new_node]. simpl in Hrem.
      destruct do_delete; [|done]. by apply Hrem.
  - intros Hnone. destruct t as [root|]; [|done].
    destruct key as [|k rest].
    + simpl in *. unfold is_value_node_. by rewrite Hnone.
    + unfold Remove.
      destruct (remove_fst_true root k rest) as [Htrue| ->]; [|done].
      apply remove_true_find in Htrue. rewrite Hnone in Htrue.
      by destruct Htrue.
Qed.

(** ** Pruning *)

Lemma walk_same_children (key : string) (n n' : node) :
  key ≠ EmptyString → children_ n' = children_ n → walk key n' = walk key n.
Proof. destruct key as [|k rest]; [done|]. simpl. by intros _ ->. Qed.

Lemma alive_below_child (cur child : node) (k : ascii) :
  alive_below cur → children_ cur !! k = Some child →
  alive child ∧ alive_below child.
Proof.
  intros Hcur Hc. split.
  - apply (Hcur (String k EmptyString)); [done|]. simpl. by rewrite Hc.
  - intros key m Hkey Hm. apply (Hcur (String k key)); [done|].
    simpl. by rewrite Hc.
Qed.

(** A node whose child under [k] is replaced by an alive node with alive
    descendants. *)
Lemma alive_below_insert (cur c : node) (k : ascii) (vp : option (Ty * Payload)) :
  alive_below cur → alive c → alive_below c →
  alive_below (Node (<[k := c]> (children_ cur)) vp).
Proof.
  intros Hcur Hc Hbelow key m Hkey.
  destruct key as [|k' r]; [done|]. simpl.
  rewrite lookup_insert. case_decide as Hk.
  - destruct r as [|k2 r]; [by intros [= <-]|]. by apply Hbelow.
  - intros Hm. apply (Hcur (String k' r)); [done|]. done.
Qed.

Lemma alive_below_delete (cur : node) (k : ascii) (vp : option (Ty * Payload)) :
  alive_below cur → alive_below (Node (delete k (children_ cur)) vp).
Proof.
  intros Hcur key m Hkey.
  destruct key as [|k' r]; [done|]. simpl.
  rewrite lookup_delete. case_decide as Hk; [done|].
  intros Hm. apply (Hcur (String k' r)); [done|]. done.
Qed.

Lemma put_at_alive (key : string) (vp : Ty * Payload) :
  ∀ o : option node,
    (∀ c, o = Some c → alive_below c) →
    alive (put_at key vp o) ∧ alive_below (put_at key vp o).
Proof.
  induction key as [|k rest IH]; intros o Ho.
  - split; [by left; destruct o|].
    intros key m Hkey. destruct o as [c|]; simpl.
    + rewrite (walk_same_children key c _) by done. by apply (Ho c).
    + by destruct key.
  - set (base := match o with None => Node ∅ None | Some c => c end).
    assert (Hbase : alive_below base).
    { unfold base. destruct o as [c|]; [by apply Ho|].
      intros key m Hkey. by destruct key. }
    change (put_at (String k rest) vp o) with
      (Node (<[k := put_at rest vp (children_ base !! k)]> (children_ base))
            (value_ base)).
    destruct (IH (children_ base !! k)) as [Ha Hb].
    { intros c Hc. by apply (alive_below_child base c k). }
    split.
    + right. simpl. apply insert_non_empty.
    + by apply alive_below_insert.
Qed.

Lemma remove_alive (rest : string) :
  ∀ (cur c : node) (k : ascii),
    alive_below cur → remove cur k rest = (true, Some c) →
    alive c ∧ alive_below c.
Proof.
  induction rest as [|k1 rest IH]; intros cur c k Hcur; simpl.
  - destruct (children_ cur !! k) as [child|] eqn:Hc; [|done].
    destruct (alive_below_child cur child k Hcur Hc) as [_ Hchild].
    destruct (is_value_node_ child); [|done]. simpl.
    destruct (negb (size (children_ child) =? 0)%nat) eqn:Esz.
    + intros [= <-]. split; [right; simpl; apply insert_non_empty|].
      apply alive_below_insert; [done| |].
      * right. simpl. intros Hempty. rewrite Hempty in Esz. done.
      * intros key m Hkey. rewrite (walk_same_children key child _) by done.
        by apply Hchild.
    + destruct ((1 <? size (children_ cur))%nat || is_value_node_ cur) eqn:E;
        [|done].
      intros [= <-]. split; [|by apply alive_below_delete].
      apply orb_true_iff in E as [Hsz|Hv]; [|by left].
      right. simpl. intros Hempty. apply Nat.ltb_lt in Hsz.
      assert (Hd : size (delete k (children_ cur)) = Init.Nat.pred (size (children_ cur)))
        by (apply map_size_delete_Some; eauto).
      rewrite Hempty, map_size_empty in Hd. lia.
  - destruct (children_ cur !! k) as [child|] eqn:Hc; [|done].
    destruct (alive_below_child cur child k Hcur Hc) as [_ Hchild].
    specialize (IH child).
    destruct (remove child k1 rest) as [do_remove new_child] eqn:Hr.
    destruct do_remove; [|done].
    destruct new_child as [c'|].
    + intros [= <-]. destruct (IH c' k1 Hchild Hr) as [Ha Hb].
      split; [right; simpl; apply insert_non_empty|].
      by apply alive_below_insert.
    + destruct ((1 <? size (children_ cur))%nat || is_value_node_ cur) eqn:E;
        [|done].
      intros [= <-]. split; [|by apply alive_below_delete].
      apply orb_true_iff in E as [Hsz|Hv]; [|by left].
      right. simpl. intros Hempty. apply Nat.ltb_lt in Hsz.
      assert (Hd : size (delete k (children_ cur)) = Init.Nat.pred (size (children_ cur)))
        by (apply map_size_delete_Some; eauto).
      rewrite Hempty, map_size_empty in Hd. lia.
Qed.

(** Removing the key of a branch that holds nothing else removes the whole
    branch. *)
Lemma remove_single_branch (vp : Ty * Payload) (rest : string) :
  ∀ k : ascii,
    remove (Node (<[k := put_at rest vp None]> ∅) None) k rest = (true, None).
Proof.
  induction rest as [|k1 rest IH]; intros k.
  - simpl. rewrite lookup_insert_eq. simpl.
    rewrite map_size_empty. simpl.
    by rewrite insert_empty, map_size_singleton.
  - cbn [remove]. cbn [children_]. rewrite lookup_insert_eq.
    change (put_at (String k1 rest) vp None) with
      (Node (<[k1 := put_at rest vp None]> ∅) None).
    rewrite IH. simpl. by rewrite insert_empty, map_size_singleton.
Qed.

(** X21: the tries that [Put] and [Remove] build are pruned: below the
    root no node is left that has neither a value nor a child.  The empty
    trie is pruned, [Put] and [Remove] keep a pruned trie pruned, and
    removing the only key of a trie drops every node of its branch: the
    result has a null root, for a non-empty key, and an empty root node for
    the empty key. *)
Theorem Put_and_Remove_keep_trie_pruned (T : Ty) (key : string) (v : Payload)
    (t : trie) :
  pruned (None : trie) ∧
  (pruned t → pruned (Put T key v t) ∧ pruned (Remove key t)) ∧
  Remove key (Put T key v None) =
    match key with
    | EmptyString => Some (Node ∅ None)
    | String _ _ => None
    end.
Proof.
  split; [done|]. split.
  - intros Ht. split.
    + rewrite Put_put_at. simpl.
      apply (put_at_alive key (T, v) t). intros c ->. exact Ht.
    + destruct t as [root|]; [|done]. simpl in Ht.
      destruct key as [|k rest]; simpl.
      * destruct (is_value_node_ root); [|done]. simpl.
        intros key m Hkey. rewrite (walk_same_children key root _) by done.
        by apply Ht.
      * pose proof (remove_alive rest root) as Hrem.
        destruct (remove root k rest) as [do_delete new_node] eqn:Hr.
        destruct do_delete; [|done].
        destruct new_node as [c|]; [|done]. simpl.
        by destruct (Hrem c k Ht Hr).
  - rewrite Put_put_at. destruct key as [|k rest]; [done|].
    unfold Remove.
    change (put_at (String k rest) (T, v) None) with
      (Node (<[k := put_at rest (T, v) None]> ∅) None).
    by rewrite remove_single_branch.
Qed.

End TrieMore.

(** * The hash table on resident pages *)

Section HashTableRuns.

Import BufferPool HashTable.

Context {K V : Type}.
Variable cmp : K → K → Z.
Variable hash_fn : K → Z.
Variable HTABLE_HEADER_ARRAY_SIZE : Z.
Variable HTABLE_DIRECTORY_ARRAY_SIZE : Z.

Abbreviation PD := (PageData K V).
Implicit Types s : BufferPoolManager PD.

Abbreviation GetValue' :=
  (GetValue cmp hash_fn HTABLE_HEADER_ARRAY_SIZE HTABLE_DIRECTORY_ARRAY_SIZE).
Abbreviation Insert' :=
  (Insert cmp hash_fn HTABLE_HEADER_ARRAY_SIZE HTABLE_DIRECTORY_ARRAY_SIZE).
Abbreviation Remove' :=
  (Remove cmp hash_fn HTABLE_HEADER_ARRAY_SIZE HTABLE_DIRECTORY_ARRAY_SIZE).

(** One step of a run: [H] tells how the first call ends. *)
Local Ltac step H :=
  first [ rewrite (bind_ok _ _ _ _ _ H)
        | rewrite bind_assoc, (bind_ok _ _ _ _ _ H) ];
  cbn beta; rewrite ?bind_ret_l; cbn beta; cbn [fst snd].

Lemma As_guard (f : Z) (dirty : bool) s :
  As (K:=K) (V:=V) (mkGuard (Some f) dirty) s = Ok (f, s).
Proof. done. Qed.

(** Taking a guard on a resident page and dropping it again. *)
Lemma fetch_resident s (page_id f : Z) (d : PD) :
  resident s page_id f d →
  ∃ s1,
    FetchPageGuarded page_id s = Ok (mkGuard (Some f) false, s1) ∧
    quiet_step s s1 ∧
    ∀ s2 dirty, quiet_step s1 s2 →
      ∃ s3, Drop (mkGuard (Some f) dirty) s2 = Ok (tt, s3) ∧ quiet_step s2 s3.
Proof.
  intros Hres.
  destruct (FetchPageGuarded_resident s _ _ _ Hres) as (s1 & Hf & Hq & Hn).
  exists s1. split; [done|]. split; [done|].
  intros s2 dirty Hq2.
  apply (Drop_resident s2 page_id f d dirty).
  - eapply resident_quiet; [|exact Hres]. by eapply quiet_step_trans.
  - by apply Hq2.
Qed.

(** The path of [GetValue] down to a bucket page. *)
Lemma GetValue_resident
    (ht : DiskExtendibleHashTable) s
    (header dir_page_id dir bucket_idx bucket_page_id bucket : Z)
    (h : HeaderPage) (d : DirectoryPage) (b : BucketPage K V) (key : K) :
  resident s (header_page_id_ ht) header (Header h) →
  header_GetDirectoryPageId
    (header_HashToDirectoryIndex (Hash hash_fn key) h) h = Ok dir_page_id →
  dir_page_id ≠ INVALID_PAGE_ID →
  resident s dir_page_id dir (Directory d) →
  dir_HashToBucketIndex (Hash hash_fn key) d = Ok bucket_idx →
  dir_GetBucketPageId bucket_idx d = Ok bucket_page_id →
  bucket_page_id ≠ INVALID_PAGE_ID →
  resident s bucket_page_id bucket (Bucket b) →
  ∃ s',
    GetValue' ht key s =
      Ok (match bucket_Lookup cmp key b with
          | Some v => (true, [v])
          | None => (false, [])
          end, s') ∧
    quiet_step s s'.
Proof.
  intros Hh Hdid Hdvalid Hd Hidx Hbid Hbvalid Hb.
  unfold GetValue, FetchPageRead.
  destruct (fetch_resident s _ _ _ Hh) as (s1 & Hf1 & Hq1 & Hdrop1).
  step Hf1. step (As_guard header false s1).
  pose proof (resident_quiet _ _ _ _ _ Hq1 Hh) as Hh1.
  step (header_get_resident HTABLE_HEADER_ARRAY_SIZE s1 _ _ h
          (λ h, Ok (header_HashToDirectoryIndex (Hash hash_fn key) h))
          _ Hh1 eq_refl).
  step (header_get_resident HTABLE_HEADER_ARRAY_SIZE s1 _ _ _ _ _ Hh1 Hdid).
  destruct (dir_page_id =? INVALID_PAGE_ID) eqn:E;
    [apply Z.eqb_eq in E; done|].
  destruct (Hdrop1 s1 false (quiet_step_refl s1)) as (s2 & Hd2 & Hq2).
  step Hd2.
  assert (Hq02 : quiet_step s s2) by (by eapply quiet_step_trans).
  pose proof (resident_quiet _ _ _ _ _ Hq02 Hd) as Hdir2.
  destruct (fetch_resident s2 _ _ _ Hdir2) as (s3 & Hf3 & Hq3 & Hdrop3).
  step Hf3. step (As_guard dir false s3).
  pose proof (resident_quiet _ _ _ _ _ Hq3 Hdir2) as Hdir3.
  step (dir_get_resident HTABLE_DIRECTORY_ARRAY_SIZE s3 _ _ _ _ _ Hdir3 Hidx).
  step (dir_get_resident HTABLE_DIRECTORY_ARRAY_SIZE s3 _ _ _ _ _ Hdir3 Hbid).
  destruct (bucket_page_id =? INVALID_PAGE_ID) eqn:E';
    [apply Z.eqb_eq in E'; done|].
  destruct (Hdrop3 s3 false (quiet_step_refl s3)) as (s4 & Hd4 & Hq4).
  step Hd4.
  assert (Hq04 : quiet_step s s4).
  { eapply quiet_step_trans; [exact Hq02|].
    eapply quiet_step_trans; [exact Hq3|exact Hq4]. }
  pose proof (resident_quiet _ _ _ _ _ Hq04 Hb) as Hb4.
  destruct (fetch_resident s4 _ _ _ Hb4) as (s5 & Hf5 & Hq5 & Hdrop5).
  step Hf5. step (As_guard bucket false s5).
  pose proof (resident_quiet _ _ _ _ _ Hq5 Hb4) as Hb5.
  step (bucket_get_resident s5 _ _ _ (bucket_Lookup cmp key) Hb5).
  destruct (Hdrop5 s5 false (quiet_step_refl s5)) as (s6 & Hd6 & Hq6).
  step Hd6.
  exists s6. split.
  - by destruct (bucket_Lookup cmp key b).
  - eapply quiet_step_trans; [exact Hq04|].
    eapply quiet_step_trans; [exact Hq5|exact Hq6].
Qed.

(** [GetValue] when the header has no directory for the hash. *)
Lemma GetValue_no_directory
    (ht : DiskExtendibleHashTable) s (header : Z) (h : HeaderPage) (key : K) :
  resident s (header_page_id_ ht) header (Header h) →
  header_GetDirectoryPageId
    (header_HashToDirectoryIndex (Hash hash_fn key) h) h = Ok INVALID_PAGE_ID →
  ∃ s', GetValue' ht key s = Ok ((false, []), s') ∧ same_pages s s'.
Proof.
  intros Hh Hdid. unfold GetValue, FetchPageRead.
  destruct (fetch_resident s _ _ _ Hh) as (s1 & Hf1 & Hq1 & Hdrop1).
  step Hf1. step (As_guard header false s1).
  pose proof (resident_quiet _ _ _ _ _ Hq1 Hh) as Hh1.
  step (header_get_resident HTABLE_HEADER_ARRAY_SIZE s1 _ _ h
          (λ h, Ok (header_HashToDirectoryIndex (Hash hash_fn key) h))
          _ Hh1 eq_refl).
  step (header_get_resident HTABLE_HEADER_ARRAY_SIZE s1 _ _ _ _ _ Hh1 Hdid).
  rewrite Z.eqb_refl.
  destruct (Hdrop1 s1 false (quiet_step_refl s1)) as (s2 & Hd2 & Hq2).
  step Hd2. exists s2. split; [done|].
  by destruct (quiet_step_trans _ _ _ Hq1 Hq2).
Qed.

(** X22: [GetValue] on a table whose pages are in the pool.  It walks from
    the header page over the directory page of the hash to the bucket page
    of the hash and answers with the bucket's [Lookup]: one value when the
    key is there, none otherwise.  When the header holds no directory for
    the hash, or the directory no bucket, it answers false at once.  In
    every case it only reads: all buffers, the page table, the page-id
    counter and the disk are as before, and every page is unpinned as often
    as it was pinned. *)
Theorem GetValue_reads_the_bucket
    (ht : DiskExtendibleHashTable) s (header dir_page_id : Z)
    (h : HeaderPage) (key : K) :
  resident s (header_page_id_ ht) header (Header h) →
  header_GetDirectoryPageId
    (header_HashToDirectoryIndex (Hash hash_fn key) h) h = Ok dir_page_id →
  (dir_page_id = INVALID_PAGE_ID →
   ∃ s', GetValue' ht key s = Ok ((false, []), s') ∧ same_pages s s') ∧
  (dir_page_id ≠ INVALID_PAGE_ID →
   ∀ dir bucket_idx bucket_page_id (d : DirectoryPage),
     resident s dir_page_id dir (Directory d) →
     dir_HashToBucketIndex (Hash hash_fn key) d = Ok bucket_idx →
     dir_GetBucketPageId bucket_idx d = Ok bucket_page_id →
     (bucket_page_id = INVALID_PAGE_ID →
      ∃ s', GetValue' ht key s = Ok ((false, []), s') ∧ same_pages s s') ∧
     (bucket_page_id ≠ INVALID_PAGE_ID →
      ∀ bucket (b : BucketPage K V),
        resident s bucket_page_id bucket (Bucket b) →
        ∃ s',
          GetValue' ht key s =
            Ok (match bucket_Lookup cmp key b with
                | Some v => (true, [v])
                | None => (false, [])
                end, s') ∧
          same_pages s s')).
Proof.
  intros Hh Hdid. split.
  - intros ->. by apply (GetValue_no_directory ht s header h key).
  - intros Hdvalid dir bucket_idx bucket_page_id d Hd Hidx Hbid. split.
    + intros ->. unfold GetValue, FetchPageRead.
      destruct (fetch_resident s _ _ _ Hh) as (s1 & Hf1 & Hq1 & Hdrop1).
      step Hf1. step (As_guard header false s1).
      pose proof (resident_quiet _ _ _ _ _ Hq1 Hh) as Hh1.
      step (header_get_resident HTABLE_HEADER_ARRAY_SIZE s1 _ _ h
              (λ h, Ok (header_HashToDirectoryIndex (Hash hash_fn key) h))
              _ Hh1 eq_refl).
      step (header_get_resident HTABLE_HEADER_ARRAY_SIZE s1 _ _ _ _ _ Hh1 Hdid).
      destruct (dir_page_id =? INVALID_PAGE_ID) eqn:E;
        [apply Z.eqb_eq in E; done|].
      destruct (Hdrop1 s1 false (quiet_step_refl s1)) as (s2 & Hd2 & Hq2).
      step Hd2.
      assert (Hq02 : quiet_step s s2) by (by eapply quiet_step_trans).
      pose proof (resident_quiet _ _ _ _ _ Hq02 Hd) as Hdir2.
      destruct (fetch_resident s2 _ _ _ Hdir2) as (s3 & Hf3 & Hq3 & Hdrop3).
      step Hf3. step (As_guard dir false s3).
      pose proof (resident_quiet _ _ _ _ _ Hq3 Hdir2) as Hdir3.
      step (dir_get_resident HTABLE_DIRECTORY_ARRAY_SIZE s3 _ _ _ _ _ Hdir3 Hidx).
      step (dir_get_resident HTABLE_DIRECTORY_ARRAY_SIZE s3 _ _ _ _ _ Hdir3 Hbid).
      rewrite Z.eqb_refl.
      destruct (Hdrop3 s3 false (quiet_step_refl s3)) as (s4 & Hd4 & Hq4).
      step Hd4. exists s4. split; [done|].
      assert (Hq04 : quiet_step s s4).
      { eapply quiet_step_trans; [exact Hq02|].
        eapply quiet_step_trans; [exact Hq3|exact Hq4]. }
      by destruct Hq04.
    + intros Hbvalid bucket b Hb.
      destruct (GetValue_resident ht s _ _ _ _ _ _ h d b key
                  Hh Hdid Hdvalid Hd Hidx Hbid Hbvalid Hb) as (s' & Hrun & Hq).
      exists s'. split; [done|]. by destruct Hq.
Qed.

(** ** Calls that write a buffer *)

Lemma same_pages_trans s1 s2 s3 :
  same_pages s1 s2 → same_pages s2 s3 → same_pages s1 s3.
Proof. intros (?&?&?&?&?&?) (?&?&?&?&?&?). repeat split; congruence. Qed.

Lemma resident_same_pages s s' (page_id f : Z) (d : PD) :
  same_pages s s' → resident s page_id f d → resident s' page_id f d.
Proof.
  intros Hs (Hpt & Hf & Hd & Hid).
  destruct (same_pages_lookup s s' (Z.to_nat f) Hs) as [Hd' Hid'].
  destruct Hs as (_ & Hpt' & _).
  repeat split; congruence.
Qed.

(** Overwriting the buffer of a frame that holds a page. *)
Lemma write_buffer_resident s (page_id f : Z) (d0 d : PD) :
  resident s page_id f d0 →
  ∃ s', write_buffer f d s = Ok (tt, s') ∧
        resident s' page_id f d ∧
        (∀ p g x, g ≠ f → resident s p g x → resident s' p g x) ∧
        replacer_ s' = replacer_ s ∧
        page_table_ s' = page_table_ s ∧
        next_page_id_ s' = next_page_id_ s ∧
        disk_log_ s' = disk_log_ s.
Proof.
  intros Hres. destruct (resident_frame s _ _ _ Hres) as (pg & Hpg & Hd & Hid).
  destruct Hres as (Hpt & Hf & _).
  assert (Hlt : (Z.to_nat f < length (pages_ s))%nat)
    by (eapply lookup_lt_Some; eauto).
  unfold write_buffer. rewrite (bind_ok _ _ _ _ _ (frame_at_ok s f pg Hf Hpg)).
  unfold set_frame, modify. eexists. split; [reflexivity|]. simpl.
  split; [|split; [|done]].
  - repeat split; simpl; try done;
      rewrite list_lookup_insert_eq by done; simpl; congruence.
  - intros p g x Hne (Hp & Hg & Hx & Hi).
    repeat split; simpl; try done;
      rewrite list_lookup_insert_ne by lia; done.
Qed.

(** The same write on two pools that hold the same pages. *)
Lemma write_buffer_same_pages s1 s2 s1' s2' (f : Z) (d : PD) :
  same_pages s1 s2 →
  write_buffer f d s1 = Ok (tt, s1') → write_buffer f d s2 = Ok (tt, s2') →
  same_pages s1' s2'.
Proof.
  intros Hs. pose proof (same_pages_lookup s1 s2 (Z.to_nat f) Hs) as [_ Hid].
  destruct Hs as (Hp & Hpt & Hfl & Hn & Hd & Hl).
  unfold write_buffer, bind, frame_at, set_frame, modify.
  destruct (f <? 0); [done|].
  destruct (pages_ s1 !! Z.to_nat f) as [pg1|]; [|done].
  destruct (pages_ s2 !! Z.to_nat f) as [pg2|]; [|done].
  simpl in Hid. injection Hid as Hid.
  intros [= <-] [= <-]. repeat split; simpl; try done.
  rewrite !list_fmap_insert. simpl. by rewrite Hp, Hid.
Qed.

(** A call through a bucket pointer leaves the pool as a plain write of
    the new bucket would. *)
Lemma bucket_call_resident {A} s (page_id f : Z) (b : BucketPage K V)
    (op : BucketPage K V → A * BucketPage K V) :
  resident s page_id f (Bucket b) →
  ∃ s', bucket_call f op s = Ok ((op b).1, s') ∧
        write_buffer f (Bucket (op b).2) s = Ok (tt, s').
Proof.
  intros Hres. unfold bucket_call, read_data, write_data.
  rewrite (bind_ok _ _ _ _ _ (read_buffer_resident _ _ _ _ Hres)).
  unfold bind at 1, lift; simpl.
  destruct (write_buffer_resident s _ _ _ (Bucket (op b).2) Hres)
    as (s' & Hw & _).
  rewrite (bind_ok _ _ _ _ _ Hw). by exists s'.
Qed.

Lemma find_index_None (key : K) (l : list (K * V)) :
  lookup_entries cmp key l = None → find_index cmp key l = length l.
Proof.
  induction l as [|[k v] l IH]; simpl; [done|].
  destruct (cmp key k =? 0); [done|]. intros Hl. by rewrite IH.
Qed.

(** X23: [Remove] of a key that its bucket does not hold returns false and
    leaves the table as it was: the bucket is scanned and found unchanged,
    nothing is merged, no page is deleted and the directory keeps its
    depth. *)
Theorem Remove_missing_key_changes_nothing
    (ht : DiskExtendibleHashTable) s
    (header dir_page_id dir bucket_idx bucket_page_id bucket : Z)
    (h : HeaderPage) (d : DirectoryPage) (b : BucketPage K V) (key : K) :
  resident s (header_page_id_ ht) header (Header h) →
  header_GetDirectoryPageId
    (header_HashToDirectoryIndex (Hash hash_fn key) h) h = Ok dir_page_id →
  dir_page_id ≠ INVALID_PAGE_ID →
  resident s dir_page_id dir (Directory d) →
  dir_HashToBucketIndex (Hash hash_fn key) d = Ok bucket_idx →
  dir_GetBucketPageId bucket_idx d = Ok bucket_page_id →
  bucket_page_id ≠ INVALID_PAGE_ID →
  resident s bucket_page_id bucket (Bucket b) →
  bucket_Lookup cmp key b = None →
  ∃ s', Remove' ht key s = Ok (false, s') ∧ same_pages s s'.
Proof.
  intros Hh Hdid Hdvalid Hd Hidx Hbid Hbvalid Hb Hmiss.
  unfold Remove, FetchPageRead, FetchPageWrite.
  destruct (fetch_resident s _ _ _ Hh) as (s1 & Hf1 & Hq1 & Hdrop1).
  step Hf1. step (As_guard header false s1).
  pose proof (resident_quiet _ _ _ _ _ Hq1 Hh) as Hh1.
  step (header_get_resident HTABLE_HEADER_ARRAY_SIZE s1 _ _ h
          (λ h, Ok (header_HashToDirectoryIndex (Hash hash_fn key) h))
          _ Hh1 eq_refl).
  step (header_get_resident HTABLE_HEADER_ARRAY_SIZE s1 _ _ _ _ _ Hh1 Hdid).
  destruct (dir_page_id =? INVALID_PAGE_ID) eqn:E;
    [apply Z.eqb_eq in E; done|].
  destruct (Hdrop1 s1 false (quiet_step_refl s1)) as (s2 & Hd2 & Hq2).
  step Hd2.
  assert (Hq02 : quiet_step s s2) by (by eapply quiet_step_trans).
  pose proof (resident_quiet _ _ _ _ _ Hq02 Hd) as Hdir2.
  destruct (fetch_resident s2 _ _ _ Hdir2) as (s3 & Hf3 & Hq3 & Hdrop3).
  step Hf3. step (AsMut_guard dir false s3).
  pose proof (resident_quiet _ _ _ _ _ Hq3 Hdir2) as Hdir3.
  step (dir_get_resident HTABLE_DIRECTORY_ARRAY_SIZE s3 _ _ _ _ _ Hdir3 Hidx).
  step (dir_get_resident HTABLE_DIRECTORY_ARRAY_SIZE s3 _ _ _ _ _ Hdir3 Hbid).
  destruct (bucket_page_id =? INVALID_PAGE_ID) eqn:E';
    [apply Z.eqb_eq in E'; done|].
  assert (Hq03 : quiet_step s s3) by (by eapply quiet_step_trans).
  pose proof (resident_quiet _ _ _ _ _ Hq03 Hb) as Hb3.
  destruct (fetch_resident s3 _ _ _ Hb3) as (s4 & Hf4 & Hq4 & Hdrop4).
  step Hf4. step (AsMut_guard bucket false s4).
  pose proof (resident_quiet _ _ _ _ _ Hq4 Hb3) as Hb4.
  assert (Hrem : bucket_Remove cmp key b = (false, b)).
  { unfold bucket_Remove. unfold bucket_Lookup in Hmiss.
    by rewrite (find_index_None key _ Hmiss), Nat.eqb_refl. }
  destruct (bucket_call_unchanged s4 _ _ _ (bucket_Remove cmp key) false Hb4 Hrem)
    as (s5 & Hc & Hq5).
  step Hc. cbn [negb].
  destruct (Hdrop4 s5 true Hq5) as (s6 & Hd6 & Hq6).
  step Hd6.
  destruct (Hdrop3 s6 true) as (s7 & Hd7 & Hq7).
  { eapply quiet_step_trans; [exact Hq4|].
    eapply quiet_step_trans; [exact Hq5|exact Hq6]. }
  step Hd7.
  exists s7. split; [done|].
  assert (Hq07 : quiet_step s s7).
  { eapply quiet_step_trans; [exact Hq03|].
    eapply quiet_step_trans; [exact Hq4|].
    eapply quiet_step_trans; [exact Hq5|].
    eapply quiet_step_trans; [exact Hq6|exact Hq7]. }
  by destruct Hq07.
Qed.

(** The frame of [Insert] around the call of [InsertToDirectory], for a
    table whose header and directory are in the pool. *)
Lemma Insert_resident
    (ht : DiskExtendibleHashTable) s (header dir_page_id dir : Z)
    (h : HeaderPage) (d : DirectoryPage) (key : K) (value : V) :
  resident s (header_page_id_ ht) header (Header h) →
  header_GetDirectoryPageId
    (header_HashToDirectoryIndex (Hash hash_fn key) h) h = Ok dir_page_id →
  dir_page_id ≠ INVALID_PAGE_ID →
  resident s dir_page_id dir (Directory d) →
  ∃ s3,
    quiet_step s s3 ∧
    ∀ ok s4 dd,
      InsertToDirectory cmp hash_fn HTABLE_DIRECTORY_ARRAY_SIZE insert_fuel
        ht dir (Hash hash_fn key) key value s3 = Ok (ok, s4) →
      resident s4 dir_page_id dir dd →
      (∀ g, is_Some (Replacer.node_store_ (replacer_ s3) !! g) →
            is_Some (Replacer.node_store_ (replacer_ s4) !! g)) →
      ∃ s5, Insert' ht key value s = Ok (ok, s5) ∧ quiet_step s4 s5.
Proof.
  intros Hh Hdid Hdvalid Hd.
  destruct (FetchPageGuarded_resident s _ _ _ Hh) as (s1 & Hf1 & Hq1 & Hn1).
  pose proof (resident_quiet _ _ _ _ _ Hq1 Hh) as Hh1.
  pose proof (resident_quiet _ _ _ _ _ Hq1 Hd) as Hd1.
  destruct (FetchPageGuarded_resident s1 _ _ _ Hd1) as (s2 & Hf2 & Hq2 & Hn2).
  pose proof (resident_quiet _ _ _ _ _ Hq2 Hh1) as Hh2.
  destruct (Drop_resident s2 _ _ _ true Hh2) as (s3 & Hdrop & Hq3).
  { by apply Hq2. }
  exists s3. split.
  { eapply quiet_step_trans; [|exact Hq3].
    eapply quiet_step_trans; [exact Hq1|exact Hq2]. }
  intros ok s4 dd Hins Hd4 Hnodes.
  destruct (Drop_resident s4 _ _ _ true Hd4) as (s5 & Hdrop5 & Hq5).
  { apply Hnodes, Hq3. exact Hn2. }
  exists s5. split; [|done].
  unfold Insert, FetchPageWrite.
  step Hf1. step (AsMut_guard header false s1).
  step (header_get_resident HTABLE_HEADER_ARRAY_SIZE s1 _ _ h
          (λ h, Ok (header_HashToDirectoryIndex (Hash hash_fn key) h))
          _ Hh1 eq_refl).
  step (header_get_resident HTABLE_HEADER_ARRAY_SIZE s1 _ _ _ _ _ Hh1 Hdid).
  destruct (dir_page_id =? INVALID_PAGE_ID) eqn:E;
    [apply Z.eqb_eq in E; done|].
  step Hf2. step Hdrop.
  step (AsMut_guard dir false s3).
  step Hins. step Hdrop5. done.
Qed.



(** Two pages in one frame are the same buffer. *)
Lemma resident_frame_eq s (p q f : Z) (x y : PD) :
  resident s p f x → resident s q f y → x = y.
Proof. intros (_ & _ & Hx & _) (_ & _ & Hy & _). congruence. Qed.

(** The directory-local insert of a new key into a bucket with room: the
    pair is appended to the bucket and nothing else is written. *)
Lemma InsertToDirectory_with_room
    (fuel : nat) (ht : DiskExtendibleHashTable) s
    (dir_page_id dir bucket_idx bucket_page_id bucket : Z)
    (d : DirectoryPage) (b : BucketPage K V) (key : K) (value : V) :
  resident s dir_page_id dir (Directory d) →
  dir_HashToBucketIndex (Hash hash_fn key) d = Ok bucket_idx →
  dir_GetBucketPageId bucket_idx d = Ok bucket_page_id →
  bucket_page_id ≠ INVALID_PAGE_ID →
  resident s bucket_page_id bucket (Bucket b) →
  bucket_IsFull b = false →
  bucket_Lookup cmp key b = None →
  ∃ s4 s5 s6,
    quiet_step s s4 ∧
    write_buffer bucket
      (Bucket (mkBucket (max_size_ b) (array_ b ++ [(key, value)]))) s4 =
      Ok (tt, s5) ∧
    replacer_ s5 = replacer_ s4 ∧
    quiet_step s5 s6 ∧
    InsertToDirectory cmp hash_fn HTABLE_DIRECTORY_ARRAY_SIZE (S fuel) ht dir
      (Hash hash_fn key) key value s = Ok (true, s6).
Proof.
  intros Hd Hidx Hbid Hbvalid Hb Hroom Hnew.
  set (b' := mkBucket (max_size_ b) (array_ b ++ [(key, value)])).
  assert (Hop : bucket_Insert cmp key value b = (true, b')).
  { unfold bucket_Insert. unfold bucket_IsFull in Hroom.
    unfold bucket_Lookup in Hnew. by rewrite Hroom, Hnew. }
  destruct (FetchPageGuarded_resident s _ _ _ Hb)
    as (s4 & Hf4 & Hq4 & Hn4).
  pose proof (resident_quiet _ _ _ _ _ Hq4 Hb) as Hb4.
  destruct (bucket_call_resident s4 _ _ _ (bucket_Insert cmp key value) Hb4)
    as (s5 & Hcall & Hw5).
  rewrite Hop in Hcall, Hw5. cbn [fst snd] in Hcall, Hw5.
  destruct (write_buffer_resident s4 _ _ _ (Bucket b') Hb4)
    as (s5' & Hw5' & Hb5 & _ & Hrep5 & _).
  rewrite Hw5 in Hw5'. injection Hw5' as <-.
  destruct (Drop_resident s5 _ _ _ true Hb5) as (s6 & Hd6 & Hq6).
  { by rewrite Hrep5. }
  exists s4, s5, s6. do 4 (split; [done|]).
  cbn [InsertToDirectory].
  step (dir_get_resident HTABLE_DIRECTORY_ARRAY_SIZE s _ _ _ _ _ Hd Hidx).
  step (dir_get_resident HTABLE_DIRECTORY_ARRAY_SIZE s _ _ _ _ _ Hd Hbid).
  destruct (bucket_page_id =? INVALID_PAGE_ID) eqn:E;
    [apply Z.eqb_eq in E; done|].
  unfold FetchPageWrite. step Hf4.
  step (AsMut_guard bucket false s4).
  step (bucket_get_resident s4 _ _ _ bucket_IsFull Hb4).
  rewrite Hroom. cbn [negb].
  step Hcall. step Hd6. done.
Qed.

(** X25: [Insert] of a key that its bucket does not hold, into a bucket
    with room, returns true and changes one thing: the buffer of the bucket
    page, where the pair is appended.  Header, directory, page table and
    page-id counter are as before, so no page is allocated and nothing is
    split.  A [GetValue] of the key on the resulting table then returns
    exactly the inserted value. *)
Theorem Insert_then_GetValue
    (ht : DiskExtendibleHashTable) s
    (header dir_page_id dir bucket_idx bucket_page_id bucket : Z)
    (h : HeaderPage) (d : DirectoryPage) (b : BucketPage K V)
    (key : K) (value : V) :
  resident s (header_page_id_ ht) header (Header h) →
  header_GetDirectoryPageId
    (header_HashToDirectoryIndex (Hash hash_fn key) h) h = Ok dir_page_id →
  dir_page_id ≠ INVALID_PAGE_ID →
  resident s dir_page_id dir (Directory d) →
  dir_HashToBucketIndex (Hash hash_fn key) d = Ok bucket_idx →
  dir_GetBucketPageId bucket_idx d = Ok bucket_page_id →
  bucket_page_id ≠ INVALID_PAGE_ID →
  resident s bucket_page_id bucket (Bucket b) →
  bucket_IsFull b = false →
  bucket_Lookup cmp key b = None →
  cmp key key = 0 →
  ∃ s1 s' s'',
    write_buffer bucket
      (Bucket (mkBucket (max_size_ b) (array_ b ++ [(key, value)]))) s =
      Ok (tt, s1) ∧
    Insert' ht key value s = Ok (true, s') ∧
    same_pages s1 s' ∧
    GetValue' ht key s' = Ok ((true, [value]), s'') ∧
    same_pages s' s''.
Proof.
  intros Hh Hdid Hdvalid Hd Hidx Hbid Hbvalid Hb Hroom Hnew Hrefl.
  set (b' := mkBucket (max_size_ b) (array_ b ++ [(key, value)])).
  assert (Hdb : dir ≠ bucket).
  { intros ->. by pose proof (resident_frame_eq _ _ _ _ _ _ Hd Hb). }
  assert (Hhb : header ≠ bucket).
  { intros ->. by pose proof (resident_frame_eq _ _ _ _ _ _ Hh Hb). }
  destruct (write_buffer_resident s _ _ _ (Bucket b') Hb)
    as (s1 & Hw1 & Hb1 & Hothers1 & _).
  destruct (Insert_resident ht s _ _ _ h d key value Hh Hdid Hdvalid Hd)
    as (s3 & Hq03 & Hrest).
  pose proof (resident_quiet _ _ _ _ _ Hq03 Hd) as Hd3.
  pose proof (resident_quiet _ _ _ _ _ Hq03 Hb) as Hb3.
  destruct (InsertToDirectory_with_room 256 ht s3 _ _ _ _ _ d b key value
              Hd3 Hidx Hbid Hbvalid Hb3 Hroom Hnew)
    as (s4 & s5 & s6 & Hq4 & Hw5 & Hrep5 & Hq6 & Hins).
  fold b' in Hw5.
  pose proof (resident_quiet _ _ _ _ _ Hq4 Hb3) as Hb4.
  pose proof (resident_quiet _ _ _ _ _ Hq4 Hd3) as Hd4.
  destruct (write_buffer_resident s4 _ _ _ (Bucket b') Hb4)
    as (s5' & Hw5' & Hb5 & Hothers5 & _).
  rewrite Hw5 in Hw5'. injection Hw5' as <-.
  destruct (Hrest true s6 (Directory d)) as (s7 & Hins7 & Hq7).
  - exact Hins.
  - eapply resident_quiet; [exact Hq6|]. by apply Hothers5.
  - intros g Hg. apply Hq6. rewrite Hrep5. by apply Hq4.
  - assert (Hsame : same_pages s1 s7).
    { eapply same_pages_trans; [|eapply same_pages_trans].
      - eapply (write_buffer_same_pages s s4); [|exact Hw1|exact Hw5].
        by destruct (quiet_step_trans _ _ _ Hq03 Hq4).
      - by destruct Hq6.
      - by destruct Hq7. }
    destruct (GetValue_resident ht s7 header dir_page_id dir bucket_idx
                bucket_page_id bucket h d b' key)
      as (s8 & Hget & Hq8); try done.
    + eapply resident_same_pages; [exact Hsame|]. by apply Hothers1.
    + eapply resident_same_pages; [exact Hsame|]. by apply Hothers1.
    + by eapply resident_same_pages.
    + exists s1, s7, s8. split; [done|]. split; [done|]. split; [done|].
      split; [|by destruct Hq8].
      rewrite Hget. unfold bucket_Lookup, b'. simpl.
      rewrite lookup_entries_app. unfold bucket_Lookup in Hnew. rewrite Hnew.
      simpl. by rewrite Hrefl.
Qed.

Lemma header_slot_in_range (hash depth : Z) :
  0 <= hash < 2 ^ 32 → 0 <= depth <= 32 →
  0 <= (if depth =? 0 then 0 else Z.shiftr hash (32 - depth)) < 2 ^ depth.
Proof.
  intros Hh Hd. destruct (depth =? 0) eqn:E.
  - apply Z.eqb_eq in E. subst depth. simpl. lia.
  - rewrite Z.shiftr_div_pow2 by lia. split.
    + apply Z.div_pos; [lia|]. apply Z.pow_pos_nonneg; lia.
    + apply Z.div_lt_upper_bound; [apply Z.pow_pos_nonneg; lia|].
      rewrite <- Z.pow_add_r by lia. replace (32 - depth + depth) with 32 by lia.
      lia.
Qed.

(** X26: the constructor of the table, when [NewPage] hands out a frame
    whose buffer is zeroed: the new page becomes a header page in which
    every directory slot is [INVALID_PAGE_ID], it is unpinned again, and the
    table is empty: [GetValue] answers false for every key and changes
    nothing.  [NewPage] itself does not zero the buffer; the header page
    class is the one modelled from the spec. *)
Theorem new_table_is_empty
    s s1 (pid f : Z) (old : Page PD)
    (header_max_depth directory_max_depth bucket_max_size : Z) :
  NewPage s = Ok (Some (pid, f), s1) →
  0 <= f →
  pages_ s !! Z.to_nat f = Some old →
  data_ old = Blank →
  0 <= header_max_depth <= 32 →
  2 ^ header_max_depth <= HTABLE_HEADER_ARRAY_SIZE →
  ∃ s2,
    new_table (K:=K) (V:=V) HTABLE_HEADER_ARRAY_SIZE
      header_max_depth directory_max_depth bucket_max_size s =
      Ok (mkTable pid header_max_depth directory_max_depth bucket_max_size, s2) ∧
    resident s2 pid f
      (Header (mkHeader (replicate (Z.to_nat HTABLE_HEADER_ARRAY_SIZE)
                                   INVALID_PAGE_ID) header_max_depth)) ∧
    (pin_count_ <$> pages_ s2 !! Z.to_nat f) = Some 0 ∧
    ∀ key, ∃ s3,
      GetValue' (mkTable pid header_max_depth directory_max_depth
                         bucket_max_size) key s2 = Ok ((false, []), s3) ∧
      same_pages s2 s3.
Proof.
  intros Hnew Hf Hold Hblank Hdepth Hsize.
  destruct (NewPage_success s s1 pid f Hnew)
    as (old' & r & _ & Hold' & Hpg1 & _ & _ & Hpt1 & _ & (n & Hn & _)).
  rewrite Hold in Hold'. injection Hold' as <-.
  rewrite Hblank in Hpg1.
  set (hh := mkHeader (replicate (Z.to_nat HTABLE_HEADER_ARRAY_SIZE)
                                 INVALID_PAGE_ID) header_max_depth).
  assert (Hres1 : resident s1 pid f Blank).
  { repeat split; try done; by rewrite Hpg1. }
  destruct (write_buffer_resident s1 _ _ _ (Header hh) Hres1)
    as (s1' & Hw & Hres1' & _ & Hrep & Hpt' & _).
  assert (Hpg1' : pages_ s1' !! Z.to_nat f = Some (mkPage (Header hh) pid 1 false)).
  { revert Hw. unfold write_buffer.
    rewrite (bind_ok _ _ _ _ _ (frame_at_ok s1 f _ Hf Hpg1)).
    unfold set_frame, modify. intros [= <-]. simpl.
    apply list_lookup_insert_eq. by eapply lookup_lt_Some. }
  assert (∃ r2, Replacer.SetEvictable f true (replacer_ s1') = Ok r2) as [r2 Hr2].
  { unfold Replacer.SetEvictable. rewrite Hrep, Hn. simpl. eauto. }
  set (s2 := set_replacer r2
               (set_pages (<[Z.to_nat f := mkPage (Header hh) pid 0 true]>
                             (pages_ s1')) s1')).
  assert (Hdrop : Drop (mkGuard (Some f) true) s1' = Ok (tt, s2)).
  { unfold Drop; simpl.
    rewrite (bind_ok _ _ _ _ _ (frame_at_ok s1' f _ Hf Hpg1')).
    unfold UnpinPage, bind, get. simpl. rewrite Hpt', Hpt1.
    rewrite (frame_at_ok s1' f _ Hf Hpg1'). simpl.
    unfold set_frame, modify, replacer_SetEvictable, ret. simpl.
    by rewrite Hr2. }
  assert (Hlt : (Z.to_nat f < length (pages_ s1'))%nat)
    by (by eapply lookup_lt_Some).
  assert (Hres2 : resident s2 pid f (Header hh)).
  { repeat split; simpl; try done; try (by rewrite Hpt', Hpt1);
      by rewrite list_lookup_insert_eq. }
  exists s2. split; [|split; [done|split]].
  - unfold new_table, NewPageGuarded.
    rewrite bind_assoc. rewrite (bind_ok _ _ _ _ _ Hnew).
    cbn beta iota. rewrite bind_ret_l. cbn beta. cbn [fst snd].
    step (AsMut_guard f false s1).
    assert (Hset : header_set HTABLE_HEADER_ARRAY_SIZE f
                     (λ h, Ok (header_Init header_max_depth h)) s1 = Ok (tt, s1')).
    { unfold header_set, read_data, write_data.
      rewrite (bind_ok _ _ _ _ _ (read_buffer_resident _ _ _ _ Hres1)).
      unfold bind at 1, lift; simpl. unfold bind at 1. simpl.
      unfold header_Init, blank_header. simpl. rewrite length_replicate.
      exact Hw. }
    step Hset. step Hdrop. done.
  - simpl. by rewrite list_lookup_insert_eq.
  - intros key.
    apply (GetValue_no_directory _ s2 f hh key); [done|].
    unfold header_GetDirectoryPageId, header_HashToDirectoryIndex, hh. simpl.
    pose proof (header_slot_in_range (Hash hash_fn key) header_max_depth) as Hr.
    lapply Hr; [clear Hr; intros Hr|].
    2:{ unfold Hash, wrap32, uint32_max. apply Z.mod_pos_bound. lia. }
    specialize (Hr Hdepth).
    set (idx := if header_max_depth =? 0 then 0
                else Z.shiftr (Hash hash_fn key) (32 - header_max_depth)) in *.
    unfold arr_get. rewrite (proj2 (Z.ltb_ge _ _)) by lia.
    rewrite lookup_replicate_2 by lia. done.
Qed.

(** The two loops of [Remove] when there is nothing to merge and nothing
    to shrink. *)
Lemma merge_loop_depth_0 (fuel : nat) s
    (dir_page_id dir bucket hash bucket_idx bucket_page_id : Z)
    (d : DirectoryPage) :
  resident s dir_page_id dir (Directory d) →
  dir_GetLocalDepth bucket_idx d = Ok 0 →
  merge_loop (K:=K) (V:=V) HTABLE_DIRECTORY_ARRAY_SIZE (S fuel) dir bucket hash
    bucket_idx bucket_page_id s = Ok (tt, s).
Proof.
  intros Hd Hld. cbn [merge_loop].
  step (dir_get_resident HTABLE_DIRECTORY_ARRAY_SIZE s _ _ _ _ _ Hd Hld).
  done.
Qed.

Lemma shrink_loop_stops (fuel : nat) s (dir_page_id dir : Z)
    (d : DirectoryPage) :
  resident s dir_page_id dir (Directory d) →
  dir_CanShrink d = Ok false →
  shrink_loop (K:=K) (V:=V) HTABLE_DIRECTORY_ARRAY_SIZE (S fuel) dir s =
    Ok (tt, s).
Proof.
  intros Hd Hcan. cbn [shrink_loop].
  step (dir_get_resident HTABLE_DIRECTORY_ARRAY_SIZE s _ _ _ _ _ Hd Hcan).
  done.
Qed.

(** X27: [Remove] of a key that its bucket holds, for a bucket of local
    depth 0 in a directory that cannot shrink: the merge loop and the shrink
    loop end at once, the call returns true and changes one thing, the
    buffer of the bucket page, from which the pair is gone.  For a
    comparator that is zero exactly on equal keys and a bucket without
    duplicate keys, a [GetValue] of the key on the resulting table finds
    nothing. *)
Theorem Remove_then_GetValue
    (ht : DiskExtendibleHashTable) s
    (header dir_page_id dir bucket_idx bucket_page_id bucket : Z)
    (h : HeaderPage) (d : DirectoryPage) (b : BucketPage K V)
    (key : K) (v : V) :
  (∀ x y : K, cmp x y = 0 ↔ x = y) →
  resident s (header_page_id_ ht) header (Header h) →
  header_GetDirectoryPageId
    (header_HashToDirectoryIndex (Hash hash_fn key) h) h = Ok dir_page_id →
  dir_page_id ≠ INVALID_PAGE_ID →
  resident s dir_page_id dir (Directory d) →
  dir_HashToBucketIndex (Hash hash_fn key) d = Ok bucket_idx →
  dir_GetBucketPageId bucket_idx d = Ok bucket_page_id →
  bucket_page_id ≠ INVALID_PAGE_ID →
  resident s bucket_page_id bucket (Bucket b) →
  NoDup (array_ b).*1 →
  bucket_Lookup cmp key b = Some v →
  dir_GetLocalDepth bucket_idx d = Ok 0 →
  dir_CanShrink d = Ok false →
  ∃ s1 s' s'',
    write_buffer bucket (Bucket (bucket_Remove cmp key b).2) s = Ok (tt, s1) ∧
    Remove' ht key s = Ok (true, s') ∧
    same_pages s1 s' ∧
    GetValue' ht key s' = Ok ((false, []), s'') ∧
    same_pages s' s''.
Proof.
  intros Hcmp Hh Hdid Hdvalid Hd Hidx Hbid Hbvalid Hb Hnd Hold Hld Hshrink.
  destruct (bucket_Remove_present cmp Hcmp key v b Hnd Hold) as [Hop Hgone].
  set (b' := (bucket_Remove cmp key b).2) in *.
  assert (Hdb : dir ≠ bucket).
  { intros ->. by pose proof (resident_frame_eq _ _ _ _ _ _ Hd Hb). }
  assert (Hhb : header ≠ bucket).
  { intros ->. by pose proof (resident_frame_eq _ _ _ _ _ _ Hh Hb). }
  destruct (write_buffer_resident s _ _ _ (Bucket b') Hb)
    as (s1 & Hw1 & Hb1 & Hothers1 & _).
  (* the run of Remove *)
  destruct (fetch_resident s _ _ _ Hh) as (t1 & Hf1 & Hq1 & Hdrop1).
  pose proof (resident_quiet _ _ _ _ _ Hq1 Hh) as Hh1.
  destruct (Hdrop1 t1 false (quiet_step_refl t1)) as (t2 & Hd2 & Hq2).
  assert (Hq02 : quiet_step s t2) by (by eapply quiet_step_trans).
  pose proof (resident_quiet _ _ _ _ _ Hq02 Hd) as Hdir2.
  destruct (FetchPageGuarded_resident t2 _ _ _ Hdir2)
    as (t3 & Hf3 & Hq3 & Hn3).
  pose proof (resident_quiet _ _ _ _ _ Hq3 Hdir2) as Hdir3.
  assert (Hq03 : quiet_step s t3) by (by eapply quiet_step_trans).
  pose proof (resident_quiet _ _ _ _ _ Hq03 Hb) as Hb3.
  destruct (FetchPageGuarded_resident t3 _ _ _ Hb3)
    as (t4 & Hf4 & Hq4 & Hn4).
  pose proof (resident_quiet _ _ _ _ _ Hq4 Hb3) as Hb4.
  pose proof (resident_quiet _ _ _ _ _ Hq4 Hdir3) as Hdir4.
  destruct (bucket_call_resident t4 _ _ _ (bucket_Remove cmp key) Hb4)
    as (t5 & Hcall & Hw5).
  rewrite Hop in Hcall. fold b' in Hw5.
  destruct (write_buffer_resident t4 _ _ _ (Bucket b') Hb4)
    as (t5' & Hw5' & Hb5 & Hothers5 & Hrep5 & _).
  rewrite Hw5 in Hw5'. injection Hw5' as <-.
  pose proof (Hothers5 _ _ _ Hdb Hdir4) as Hdir5.
  destruct (Drop_resident t5 _ _ _ true Hb5) as (t6 & Hd6 & Hq6).
  { by rewrite Hrep5. }
  pose proof (resident_quiet _ _ _ _ _ Hq6 Hdir5) as Hdir6.
  destruct (Drop_resident t6 _ _ _ true Hdir6) as (t7 & Hd7 & Hq7).
  { apply Hq6. rewrite Hrep5. by apply Hq4. }
  assert (Hrun : Remove' ht key s = Ok (true, t7)).
  { unfold Remove, FetchPageRead, FetchPageWrite.
    step Hf1. step (As_guard header false t1).
    step (header_get_resident HTABLE_HEADER_ARRAY_SIZE t1 _ _ h
            (λ h, Ok (header_HashToDirectoryIndex (Hash hash_fn key) h))
            _ Hh1 eq_refl).
    step (header_get_resident HTABLE_HEADER_ARRAY_SIZE t1 _ _ _ _ _ Hh1 Hdid).
    destruct (dir_page_id =? INVALID_PAGE_ID) eqn:E;
      [apply Z.eqb_eq in E; done|].
    step Hd2. step Hf3. step (AsMut_guard dir false t3).
    step (dir_get_resident HTABLE_DIRECTORY_ARRAY_SIZE t3 _ _ _ _ _ Hdir3 Hidx).
    step (dir_get_resident HTABLE_DIRECTORY_ARRAY_SIZE t3 _ _ _ _ _ Hdir3 Hbid).
    destruct (bucket_page_id =? INVALID_PAGE_ID) eqn:E';
      [apply Z.eqb_eq in E'; done|].
    step Hf4. step (AsMut_guard bucket false t4).
    step Hcall. cbn [negb].
    step (merge_loop_depth_0 256 t5 _ _ bucket (Hash hash_fn key) _
            bucket_page_id d Hdir5 Hld).
    step (shrink_loop_stops 33 t5 _ _ d Hdir5 Hshrink).
    step Hd6. step Hd7. done. }
  assert (Hsame : same_pages s1 t7).
  { eapply same_pages_trans; [|eapply same_pages_trans].
    - eapply (write_buffer_same_pages s t4); [|exact Hw1|exact Hw5].
      by destruct (quiet_step_trans _ _ _ Hq03 Hq4).
    - by destruct Hq6.
    - by destruct Hq7. }
  destruct (GetValue_resident ht t7 header dir_page_id dir bucket_idx
              bucket_page_id bucket h d b' key)
    as (t8 & Hget & Hq8); try done.
  - eapply resident_same_pages; [exact Hsame|]. by apply Hothers1.
  - eapply resident_same_pages; [exact Hsame|]. by apply Hothers1.
  - by eapply resident_same_pages.
  - exists s1, t7, t8. split; [done|]. split; [done|]. split; [done|].
    split; [|by destruct Hq8].
    rewrite Hget. by rewrite Hgone.
Qed.

End HashTableRuns.

(** * Duplicate keys and the split path of [InsertToDirectory] *)

Section SplitPath.

Import BufferPool HashTable.

Context {K V : Type}.
Variable cmp : K → K → Z.
Variable hash_fn : K → Z.
Variable HTABLE_HEADER_ARRAY_SIZE : Z.
Variable HTABLE_DIRECTORY_ARRAY_SIZE : Z.

(** The comparator returns zero exactly on equal keys. *)
Hypothesis cmp_eq : ∀ a b : K, cmp a b = 0 ↔ a = b.

Abbreviation PD := (PageData K V).
Implicit Types s : BufferPoolManager PD.

(** One step of a run: [H] tells how the first call ends. *)
Local Ltac step H :=
  first [ rewrite (bind_ok _ _ _ _ _ H)
        | rewrite bind_assoc, (bind_ok _ _ _ _ _ H) ];
  cbn beta; rewrite ?bind_ret_l; cbn beta; cbn [fst snd].

(** ** Pool steps that change pages *)



(** ** Steps that write inside a set of frames *)



Lemma writes_within_mono (fs fs' : list Z) s s' :
  (∀ f, f ∈ fs → f ∈ fs') → writes_within fs s s' → writes_within fs' s s'.
Proof.
  intros Hsub (Hd & Hrest). split; [|done].
  intros g Hg Hin. apply Hd; [done|]. intros Hin'. apply Hin. by apply Hsub.
Qed.









(** ** The redistribution loop *)

Implicit Types (l : list (K * V)) (b : BucketPage K V).





(** The split bit of a key under [new_mask]. *)
Abbreviation moves new_mask key :=
  (negb (Z.land (Hash hash_fn key) new_mask =? 0)).



(** ** The directory through one split *)





(** ** One split of [InsertToDirectory] *)



Abbreviation known s g := (is_Some (Replacer.node_store_ (replacer_ s) !! g)).

Abbreviation InsertToDirectory' :=
  (InsertToDirectory cmp hash_fn HTABLE_DIRECTORY_ARRAY_SIZE).

Lemma Hash_range (key : K) : 0 <= Hash hash_fn key < 2 ^ 32.
Proof. unfold Hash, wrap32, uint32_max. apply Z.mod_pos_bound. lia. Qed.



(** ** A key that is already in its bucket *)




End SplitPath.

(** * Duplicate keys *)

Section DuplicateKeys.

Import BufferPool HashTable.

Context {K V : Type}.
Variable cmp : K → K → Z.
Variable hash_fn : K → Z.
Variable HTABLE_HEADER_ARRAY_SIZE : Z.
Variable HTABLE_DIRECTORY_ARRAY_SIZE : Z.

Abbreviation PD := (PageData K V).
Implicit Types s : BufferPoolManager PD.

Abbreviation Insert' :=
  (Insert cmp hash_fn HTABLE_HEADER_ARRAY_SIZE HTABLE_DIRECTORY_ARRAY_SIZE).


End DuplicateKeys.

(** * Concrete runs of the code *)

Section Runs.

Import BufferPool Scenario.

(** The two LRU-K examples: after the accesses 1, 2, 1, 2 and one access of
    frame 3 the victim is frame 3; after 1, 2, 3, 1, 2, 3 it is frame 1. *)
Example Evict_12123 : (Replacer.Evict replacer_12123).1 = (true, 3).
Proof. vm_compute. reflexivity. Qed.

Example Evict_123123 : (Replacer.Evict replacer_123123).1 = (true, 1).
Proof. vm_compute. reflexivity. Qed.

(** C3: in a pool of one frame, page 0 is filled with 0x41 and unpinned
    dirty; the next [NewPage] evicts it, writes it back and hands out the
    frame as page 1 with pin count 1 and a clean flag, but the buffer still
    holds the bytes of page 0: it is not reset. *)
Theorem NewPage_on_evicted_frame_keeps_old_buffer :
  outcome (new_page_twice pool1) =
    Ok (Some (0, 0), Some (1, 0), replicate BUSTUB_PAGE_SIZE 65) ∧
  (pages_ <$> final (new_page_twice pool1)) =
    Some [mkPage (replicate BUSTUB_PAGE_SIZE 65) 1 1 false] ∧
  (disk_log_ <$> final (new_page_twice pool1)) =
    Some [mkRequest true 0 (replicate BUSTUB_PAGE_SIZE 65)] ∧
  replicate BUSTUB_PAGE_SIZE 65 ≠ zero_buffer.
Proof.
  split; [vm_compute; reflexivity|].
  split; [vm_compute; reflexivity|].
  split; [vm_compute; reflexivity|].
  discriminate.
Qed.

(** A freshly constructed table is outside the model from its first
    insert on.  The new directory page is zeroed and [Init] writes
    [max_depth_] only, so slot 0 holds page id 0 and not [INVALID_PAGE_ID]:
    [InsertToDirectory] allocates no bucket but fetches page 0, the header
    page of the table, and reads it through the bucket class.  The tables of
    the runs below are therefore set up page by page. *)
Example first_Insert_reads_header_page_as_bucket :
  HashTable.dir_GetBucketPageId 0
    (HashTable.dir_Init 3 (HashTable.blank_directory 512)) = Ok 0 ∧
  outcome (new_table 0 3 2 pool) = Ok table_1_2_3 ∧
  HashTable.header_page_id_ table_1_2_3 = 0 ∧
  outcome ((ht <- new_table 0 3 2 ;; Insert ht 1 1) pool) = Err Undefined.
Proof. repeat split; vm_compute; reflexivity. Qed.

(** C1: a table with [bucket_max_size = 2] and the key as its own hash,
    whose directory has global depth 1: slot 0 has local depth 1 and an empty
    bucket on page 2, slot 1 has local depth 1 and the keys 1 and 3 on
    page 3.  [Insert(2,2)] succeeds and [GetValue(2)] returns the value.
    [Remove(3)] succeeds; after it [GetValue(2)] finds nothing, although 2
    was never removed, while [GetValue(1)] still answers. *)
Theorem GetValue_loses_key_after_Remove_of_other_key :
  outcome (build_depth_1 [] [(1, 1); (3, 3)] pool) = Ok table_1_2_3 ∧
  HashTable.page_data pool_1_3 0 = Some (HashTable.Header header_1_2_3) ∧
  HashTable.directory_of pool_1_3 1 = Some directory_1_2_3 ∧
  HashTable.bucket_of pool_1_3 2 = Some (HashTable.mkBucket 2 []) ∧
  HashTable.bucket_of pool_1_3 3 =
    Some (HashTable.mkBucket 2 [(1, 1); (3, 3)]) ∧
  outcome (insert_2_remove_3 pool_1_3) =
    Ok (true, (true, [2]), true, (false, []), (true, [1])).
Proof. repeat split; vm_compute; reflexivity. Qed.

(** C2: the directory has global depth 1, slot 0 with local depth 1 on
    page 2 (holding key 2) and slot 1 with local depth 1 on page 3 (holding
    keys 1 and 3).  [Remove(3)] merges page 2 into page 3 and deletes page 2.
    Slot 0 belongs to the combined group of bucket index 1, yet afterwards
    it still has local depth 1 and still points to page 2; only slot 1 was
    updated. *)
Theorem Remove_merge_skips_slot_of_combined_group :
  outcome (build_depth_1 [(2, 2)] [(1, 1); (3, 3)] pool) = Ok table_1_2_3 ∧
  HashTable.page_data pool_1_2_3 0 = Some (HashTable.Header header_1_2_3) ∧
  HashTable.directory_of pool_1_2_3 1 = Some directory_1_2_3 ∧
  HashTable.bucket_of pool_1_2_3 2 = Some (HashTable.mkBucket 2 [(2, 2)]) ∧
  HashTable.bucket_of pool_1_2_3 3 =
    Some (HashTable.mkBucket 2 [(1, 1); (3, 3)]) ∧
  outcome (Remove table_1_2_3 3 pool_1_2_3) = Ok true ∧
  HashTable.bucket_of pool_1_2_3_removed_3 3 =
    Some (HashTable.mkBucket 2 [(1, 1); (2, 2)]) ∧
  HashTable.page_data pool_1_2_3_removed_3 2 = Some HashTable.Blank ∧
  HashTable.in_combined_group 1 1 0 ∧
  directory_summary 2 (Some pool_1_2_3) 1 = Some (1, [1; 1], [2; 3]) ∧
  directory_summary 2 (Some pool_1_2_3_removed_3) 1 = Some (1, [1; 0], [2; 3]).
Proof. repeat split; vm_compute; reflexivity. Qed.

(** The directory update of the merge on its own: for bucket index 1 of
    local depth 1 the loop starts at slot 1 and never visits slot 0. *)
Example merge_update_from_slot_1 :
  HashTable.merge_update 3 1 1 3 directory_1_2_3 = Ok directory_1_2_3_removed_3.
Proof. vm_compute. reflexivity. Qed.

Lemma directory_1_2_3_invariant : HashTable.dir_invariant directory_1_2_3.
Proof.
  intros i j ldi idi ldj idj Hi Hj Hsi Hsj Hlow.
  change (2 ^ HashTable.global_depth_ directory_1_2_3) with 2 in Hi, Hj.
  assert (i = 0 ∨ i = 1) as [-> | ->] by lia;
    assert (j = 0 ∨ j = 1) as [-> | ->] by lia;
    vm_compute in Hsi, Hsj; injection Hsi as <- <-; injection Hsj as <- <-;
    vm_compute in Hlow; done.
Qed.

(** C5: the directory with global depth 1 and the two buckets of local
    depth 1 satisfies the invariant; the directory that [Remove(3)] leaves
    does not: slot 1 has local depth 0, so every slot agrees with it in the
    low 0 bits, but slot 0 holds another bucket page and another local
    depth. *)
Theorem Remove_breaks_directory_invariant :
  HashTable.directory_of pool_1_2_3 1 = Some directory_1_2_3 ∧
  HashTable.dir_invariant directory_1_2_3 ∧
  outcome (Remove table_1_2_3 3 pool_1_2_3) = Ok true ∧
  HashTable.directory_of pool_1_2_3_removed_3 1 = Some directory_1_2_3_removed_3 ∧
  ¬ HashTable.dir_invariant directory_1_2_3_removed_3.
Proof.
  split; [vm_compute; reflexivity|].
  split; [exact directory_1_2_3_invariant|].
  split; [vm_compute; reflexivity|].
  split; [vm_compute; reflexivity|].
  intros H.
  destruct (H 1 0 0 3 1 2) as [Hid _]; try done.
Qed.


End Runs.

(** * The theorems at concrete inputs *)

Section Instances.

Import BufferPool Scenario.

Lemma Evict_largest_backward_k_distance_witness :
  Replacer.store_wf replacer_123123 ∧
  Replacer.has_evictable replacer_123123 ∧
  ∃ v, Replacer.Evict replacer_123123 =
         (true, Replacer.fid_ v,
          Replacer.with_store replacer_123123
            (delete (Replacer.fid_ v) (Replacer.node_store_ replacer_123123))
            (wrap64 (Replacer.curr_size_ replacer_123123 - 1))).
Proof.
  assert (Hwf : Replacer.store_wf replacer_123123).
  { intros i n Hn.
    assert (Hd : bool_decide
              (map_Forall (λ i n, Replacer.fid_ n = i ∧
                                  Replacer.k_ n = Replacer.rk_ replacer_123123 ∧
                                  Replacer.history_ n ≠ [])
                          (Replacer.node_store_ replacer_123123)) = true)
      by (vm_compute; reflexivity).
    apply bool_decide_eq_true in Hd. exact (Hd i n Hn). }
  assert (Hev : Replacer.has_evictable replacer_123123).
  { exists 1, (Replacer.mkNode [0; 3] 2 1 true). split; vm_compute; reflexivity. }
  split; [exact Hwf|]. split; [exact Hev|].
  destruct (Evict_largest_backward_k_distance replacer_123123 Hwf) as [_ H].
  destruct (H Hev) as (v & _ & _ & Hres & _).
  exists v. exact Hres.
Defined.

Lemma Remove_unknown_frame_is_noop_witness :
  Replacer.node_store_ replacer_123123 !! 5 = None ∧
  Replacer.Remove 5 replacer_123123 = Ok replacer_123123.
Proof.
  assert (H : Replacer.node_store_ replacer_123123 !! 5 = None)
    by (vm_compute; reflexivity).
  split; [exact H|].
  destruct (Remove_unknown_frame_is_noop replacer_123123 5) as [Hnoop _].
  exact (Hnoop H).
Defined.

Lemma Put_Get_Remove_laws_witness :
  "ab"%string ≠ "abc"%string ∧
  Trie.Get (Payload:=Z) tt "ab"
    (Trie.Put tt "abc" 2 (Trie.Put tt "ab" 1 None)) = Some 1.
Proof.
  assert (H : "ab"%string ≠ "abc"%string) by discriminate.
  split; [exact H|].
  destruct (Put_Get_Remove_laws (Ty:=unit) (Payload:=Z) None) as (_ & _ & H3).
  exact (H3 tt tt "ab"%string "abc"%string 1 2 H).
Defined.

Lemma DeletePage_leaves_page_table_entry_witness :
  ∃ s1,
    DeletePage zero_buffer 0 pool1_clean = Ok (true, s1) ∧
    page_table_ s1 !! 0 = Some 0 ∧
    ∃ s2, FetchPage 0 s1 = Ok (Some 0, s2) ∧
          disk_log_ s2 = disk_log_ s1.
Proof.
  destruct (DeletePage_leaves_page_table_entry zero_buffer pool1_clean 0 0
              (mkPage zero_buffer 0 0 false))
    as (s1 & Hdel & _ & Hpt & _ & _ & _ & s2 & Hfetch & Hlog & _).
  - vm_compute; reflexivity.
  - lia.
  - vm_compute; reflexivity.
  - simpl; lia.
  - intros n Hn. vm_compute in Hn. injection Hn as <-. reflexivity.
  - exists s1. split; [exact Hdel|]. split; [exact Hpt|].
    exists s2. split; [exact Hfetch|exact Hlog].
Defined.

Lemma FlushPage_keeps_dirty_flag_witness :
  ∃ s1,
    FlushPage 0 pool1_dirty = Ok (true, s1) ∧
    pages_ s1 = pages_ pool1_dirty ∧
    ∃ s2, NewPage s1 = Ok (Some (1, 0), s2) ∧
          length (disk_log_ s2) = 2%nat.
Proof.
  destruct (FlushPage_keeps_dirty_flag pool1_dirty 0 0
              (mkPage (replicate BUSTUB_PAGE_SIZE 65) 0 0 true))
    as (s1 & Hflush & Hpages & _ & _ & _ & _ & _ & _ & Hagain).
  - vm_compute; reflexivity.
  - lia.
  - vm_compute; reflexivity.
  - exists s1. split; [exact Hflush|]. split; [exact Hpages|].
    destruct Hagain as (s2 & Hnew & Hlog).
    + reflexivity.
    + vm_compute; reflexivity.
    + vm_compute; reflexivity.
    + exists s2. split; [exact Hnew|]. rewrite Hlog. reflexivity.
Defined.

Lemma replacer_123123_wf :
  Replacer.store_wf replacer_123123 ∧ Replacer.history_bounded replacer_123123.
Proof.
  assert (Hd : bool_decide
            (map_Forall (λ i n, (Replacer.fid_ n = i ∧
                                 Replacer.k_ n = Replacer.rk_ replacer_123123 ∧
                                 Replacer.history_ n ≠ []) ∧
                                Replacer.hsize n <= Replacer.k_ n)
                        (Replacer.node_store_ replacer_123123)) = true)
    by (vm_compute; reflexivity).
  apply bool_decide_eq_true in Hd.
  split; intros i n Hn; apply (Hd i n Hn).
Defined.

Lemma RecordAccess_appends_clock_value_witness :
  1 <= Replacer.rk_ replacer_123123 ∧
  Replacer.current_timestamp_ (Replacer.RecordAccess 1 replacer_123123) =
    wrap64 (Replacer.current_timestamp_ replacer_123123 + 1) ∧
  (Replacer.history_ <$> Replacer.node_store_ replacer_123123 !! 1) =
    Some [0; 3] ∧
  ∃ n, Replacer.node_store_ (Replacer.RecordAccess 1 replacer_123123) !! 1 =
         Some n ∧
       Replacer.history_ n = [3; 6] ∧
       Replacer.back n = 6.
Proof.
  assert (Hk : 1 <= Replacer.rk_ replacer_123123) by (vm_compute; discriminate).
  destruct (RecordAccess_appends_clock_value 1 replacer_123123 Hk
              (proj1 replacer_123123_wf) (proj2 replacer_123123_wf))
    as ((n & Hn & Hhist & Hback & _) & _ & Hclock & _).
  split; [exact Hk|]. split; [exact Hclock|].
  split; [vm_compute; reflexivity|].
  exists n. split; [exact Hn|]. split; [exact Hhist|exact Hback].
Defined.

Lemma RecordAccess_keeps_timestamps_increasing_witness :
  Replacer.timestamps_increasing (Replacer.init 7 2) ∧
  Replacer.timestamps_increasing (Replacer.RecordAccess 1 (Replacer.init 7 2)).
Proof.
  assert (H0 : Replacer.timestamps_increasing (Replacer.init 7 2)).
  { intros i n Hn. vm_compute in Hn. discriminate. }
  split; [exact H0|].
  apply (RecordAccess_keeps_timestamps_increasing 1 (Replacer.init 7 2)).
  - vm_compute; reflexivity.
  - vm_compute; discriminate.
  - exact H0.
Defined.

Lemma no_frame_available_witness :
  NewPage pool1_pinned = Ok (None, pool1_pinned) ∧
  FetchPage 7 pool1_pinned = Ok (None, pool1_pinned).
Proof.
  destruct (no_frame_available pool1_pinned) as [Hnew Hfetch].
  - vm_compute; reflexivity.
  - intros i n Hn.
    assert (Hd : bool_decide
              (map_Forall (λ _ n, Replacer.is_evictable_ n = false)
                          (Replacer.node_store_ (replacer_ pool1_pinned))) = true)
      by (vm_compute; reflexivity).
    apply bool_decide_eq_true in Hd. exact (Hd i n Hn).
  - split; [exact Hnew|]. apply Hfetch. vm_compute; reflexivity.
Defined.

Lemma FetchPage_miss_loads_page_from_disk_witness :
  ∃ s', FetchPage 0 pool1_swapped = Ok (Some 0, s') ∧
        pages_ s' !! 0%nat =
          Some (mkPage (replicate BUSTUB_PAGE_SIZE 65) 0 1 false) ∧
        page_table_ s' = <[0 := 0]> (delete 1 (page_table_ pool1_swapped)) ∧
        disk_ s' =
          <[1 := replicate BUSTUB_PAGE_SIZE 66]> (disk_ pool1_swapped).
Proof.
  destruct (FetchPage_miss_loads_page_from_disk pool1_swapped 0 0 false
              (mkPage (replicate BUSTUB_PAGE_SIZE 66) 1 0 true)
              (replicate BUSTUB_PAGE_SIZE 65))
    as (s' & Hfetch & Hpages & Hpt & _ & _ & Hdisk & _).
  - vm_compute; reflexivity.
  - right. split; [reflexivity|]. split; vm_compute; reflexivity.
  - lia.
  - vm_compute; reflexivity.
  - vm_compute; reflexivity.
  - exists s'. split; [exact Hfetch|].
    split; [rewrite Hpages; vm_compute; reflexivity|].
    split; [exact Hpt|exact Hdisk].
Defined.

Lemma NewPage_takes_over_frame_witness :
  ∃ s', NewPage pool1 = Ok (Some (0, 0), s') ∧
        pages_ s' = [mkPage zero_buffer 0 1 false] ∧
        disk_log_ s' = [].
Proof.
  destruct (NewPage_takes_over_frame pool1 0 true
              (mkPage zero_buffer INVALID_PAGE_ID 0 false))
    as (s' & Hnew & Hpages & _ & _ & _ & _ & Hlog & _).
  - left. split; [reflexivity|]. exists []. vm_compute; reflexivity.
  - lia.
  - vm_compute; reflexivity.
  - exists s'. split; [exact Hnew|]. split; [exact Hpages|exact Hlog].
Defined.

Lemma DeletePage_then_NewPage_reuses_frame_witness :
  ∃ s1 s2 s3,
    DeletePage zero_buffer 0 pool1_dirty = Ok (true, s1) ∧
    NewPage s1 = Ok (Some (1, 0), s2) ∧
    pages_ s2 !! 0%nat = Some (mkPage zero_buffer 1 1 false) ∧
    disk_log_ s2 = [] ∧
    FetchPage 0 s2 = Ok (Some 0, s3).
Proof.
  destruct (DeletePage_then_NewPage_reuses_frame zero_buffer pool1_dirty 0 0
              (mkPage (replicate BUSTUB_PAGE_SIZE 65) 0 0 true))
    as (s1 & s2 & s3 & Hdel & _ & Hnew & Hpg & Hlog & _ & _ & Hfetch & _).
  - vm_compute; reflexivity.
  - lia.
  - vm_compute; reflexivity.
  - simpl; lia.
  - intros n Hn. vm_compute in Hn. injection Hn as <-. reflexivity.
  - vm_compute; reflexivity.
  - vm_compute; discriminate.
  - exists s1, s2, s3. split; [exact Hdel|]. split; [exact Hnew|].
    split; [exact Hpg|]. split; [exact Hlog|exact Hfetch].
Defined.

Lemma FlushAllPages_writes_every_mapped_page_witness :
  ∃ s', FlushAllPages pool1_dirty = Ok (tt, s') ∧
        pages_ s' = pages_ pool1_dirty ∧
        disk_ s' !! 0 = Some (replicate BUSTUB_PAGE_SIZE 65).
Proof.
  assert (Hpt : ∀ p f, page_table_ pool1_dirty !! p = Some f → p = 0 ∧ f = 0).
  { intros p f Hp.
    assert (Hd : bool_decide
              (map_Forall (λ p f, p = 0 ∧ f = 0) (page_table_ pool1_dirty)) = true)
      by (vm_compute; reflexivity).
    apply bool_decide_eq_true in Hd. exact (Hd p f Hp). }
  destruct (FlushAllPages_writes_every_mapped_page pool1_dirty)
    as (s' & reqs & Hrun & Hpages & _ & _ & _ & _ & _ & _ & Hdisk).
  - intros p f Hp. destruct (Hpt p f Hp) as [-> ->].
    split; [lia|]. vm_compute. eauto.
  - destruct Hdisk as [Hin _].
    + intros p f pg Hp Hpg. destruct (Hpt p f Hp) as [-> ->].
      vm_compute in Hpg. injection Hpg as <-. reflexivity.
    + exists s'. split; [exact Hrun|]. split; [exact Hpages|].
      apply (Hin 0 0 (mkPage (replicate BUSTUB_PAGE_SIZE 65) 0 0 true));
        vm_compute; reflexivity.
Defined.

Lemma guard_fetch_then_drop_witness :
  ∃ s1 s2,
    FetchPageGuarded 0 pool1_clean = Ok (mkGuard (Some 0) false, s1) ∧
    Drop (mkGuard (Some 0) false) s1 = Ok (tt, s2) ∧
    pages_ s2 = pages_ pool1_clean.
Proof.
  destruct (guard_fetch_then_drop pool1_clean 0 0
              (mkPage zero_buffer 0 0 false) false)
    as (s1 & s2 & Hfetch & _ & Hdrop & _ & Hsame & _).
  - vm_compute; reflexivity.
  - lia.
  - vm_compute; reflexivity.
  - reflexivity.
  - simpl; lia.
  - exists s1, s2. split; [exact Hfetch|]. split; [exact Hdrop|].
    exact (Hsame eq_refl).
Defined.

Lemma int_cmp_eq (a b : Z) : int_cmp a b = 0 ↔ a = b.
Proof.
  unfold int_cmp.
  destruct (a <? b) eqn:E1; [apply Z.ltb_lt in E1; split; [done|lia]|].
  destruct (b <? a) eqn:E2; [apply Z.ltb_lt in E2; split; [done|lia]|].
  apply Z.ltb_ge in E1, E2. split; [lia|done].
Qed.

Lemma bucket_Insert_adds_absent_key_witness :
  NoDup (HashTable.array_ (HashTable.mkBucket 3 [(1, 10); (3, 30)])).*1 ∧
  HashTable.bucket_Lookup int_cmp 2
    (HashTable.bucket_Insert int_cmp 2 20
       (HashTable.mkBucket 3 [(1, 10); (3, 30)])).2 = Some 20.
Proof.
  assert (Hnd : NoDup (HashTable.array_ (HashTable.mkBucket 3 [(1, 10); (3, 30)])).*1).
  { simpl. apply (bool_decide_unpack _). vm_compute. exact I. }
  split; [exact Hnd|].
  destruct (bucket_Insert_adds_absent_key int_cmp int_cmp_eq 2 20
              (HashTable.mkBucket 3 [(1, 10); (3, 30)]) Hnd)
    as (_ & _ & Hok & _).
  apply Hok. reflexivity.
Defined.

Lemma bucket_Remove_removes_only_the_key_witness :
  NoDup (HashTable.array_ (HashTable.mkBucket 3 [(1, 10); (2, 20); (3, 30)])).*1 ∧
  HashTable.bucket_Lookup int_cmp 1
    (HashTable.bucket_Remove int_cmp 1
       (HashTable.mkBucket 3 [(1, 10); (2, 20); (3, 30)])).2 = None ∧
  HashTable.bucket_Lookup int_cmp 3
    (HashTable.bucket_Remove int_cmp 1
       (HashTable.mkBucket 3 [(1, 10); (2, 20); (3, 30)])).2 = Some 30.
Proof.
  assert (Hnd : NoDup (HashTable.array_
                         (HashTable.mkBucket 3 [(1, 10); (2, 20); (3, 30)])).*1).
  { simpl. apply (bool_decide_unpack _). vm_compute. exact I. }
  split; [exact Hnd|].
  destruct (bucket_Remove_removes_only_the_key int_cmp int_cmp_eq 1
              (HashTable.mkBucket 3 [(1, 10); (2, 20); (3, 30)]) Hnd)
    as (_ & _ & _ & Hgone & Hrest & _).
  split; [exact Hgone|]. rewrite Hrest; [reflexivity|lia].
Defined.

Lemma bucket_RemoveAt_removes_the_slot_witness :
  HashTable.bucket_RemoveAt 5 (HashTable.mkBucket 3 [(1, 10); (2, 20); (3, 30)]) =
    HashTable.mkBucket 3 [(1, 10); (2, 20); (3, 30)] ∧
  ∃ e, HashTable.bucket_EntryAt 0
         (HashTable.mkBucket 3 [(1, 10); (2, 20); (3, 30)]) = Ok e ∧
       HashTable.bucket_Lookup int_cmp e.1
         (HashTable.bucket_RemoveAt 0
            (HashTable.mkBucket 3 [(1, 10); (2, 20); (3, 30)])) = None.
Proof.
  assert (Hnd : NoDup (HashTable.array_
                         (HashTable.mkBucket 3 [(1, 10); (2, 20); (3, 30)])).*1).
  { simpl. apply (bool_decide_unpack _). vm_compute. exact I. }
  split.
  - destruct (bucket_RemoveAt_removes_the_slot int_cmp int_cmp_eq 5
                (HashTable.mkBucket 3 [(1, 10); (2, 20); (3, 30)]) Hnd)
      as [Hout _]; [lia|].
    apply Hout. vm_compute. discriminate.
  - destruct (bucket_RemoveAt_removes_the_slot int_cmp int_cmp_eq 0
                (HashTable.mkBucket 3 [(1, 10); (2, 20); (3, 30)]) Hnd)
      as [_ Hin]; [lia|].
    destruct Hin as (e & He & _ & Hgone & _); [vm_compute; reflexivity|].
    exists e. split; [exact He|exact Hgone].
Defined.

Lemma directory_1_2_3_wf : HashTable.dir_wf directory_1_2_3.
Proof.
  split; [|split].
  - unfold HashTable.dir_shape. simpl. lia.
  - intros i ld id Hi Hs.
    change (2 ^ HashTable.global_depth_ directory_1_2_3) with 2 in Hi.
    assert (i = 0 ∨ i = 1) as [-> | ->] by lia;
      vm_compute in Hs; injection Hs as <- <-; simpl; lia.
  - exact directory_1_2_3_invariant.
Qed.

Lemma HashToBucketIndex_selects_low_bits_witness :
  ∃ idx ld id,
    HashTable.dir_HashToBucketIndex 7 directory_1_2_3 = Ok idx ∧
    0 <= idx < 2 ∧
    HashTable.dir_GetLocalDepth idx directory_1_2_3 = Ok ld ∧
    HashTable.dir_GetBucketPageId idx directory_1_2_3 = Ok id.
Proof.
  destruct (HashToBucketIndex_selects_low_bits directory_1_2_3 7
              (proj1 directory_1_2_3_wf))
    as (idx & ld & id & Hidx & _ & Hr & Hld & Hid & _).
  exists idx, ld, id. split; [exact Hidx|]. split; [exact Hr|].
  split; [exact Hld|exact Hid].
Defined.

Lemma directory_slot_accessors_witness :
  HashTable.dir_GetBucketPageId 2 directory_1_2_3 = Err AssertionFailure ∧
  ∃ d1 d2, HashTable.dir_SetBucketPageId 1 9 directory_1_2_3 = Ok d1 ∧
           HashTable.dir_GetBucketPageId 1 d1 = Ok 9 ∧
           HashTable.dir_SetLocalDepth 1 257 directory_1_2_3 = Ok d2 ∧
           HashTable.dir_GetLocalDepth 1 d2 = Ok 1.
Proof.
  split.
  - destruct (directory_slot_accessors directory_1_2_3 2 9 257
                (proj1 directory_1_2_3_wf)) as [Hout _]; [lia|lia|].
    destruct Hout as [Hget _]; [simpl; lia|]. exact Hget.
  - destruct (directory_slot_accessors directory_1_2_3 1 9 257
                (proj1 directory_1_2_3_wf)) as [_ Hin]; [lia|lia|].
    destruct Hin
      as (ld & id & d1 & d2 & d3 & _ & Hset & Hget & _ & Hsetl & Hgetl & _);
      [simpl; lia|].
    exists d1, d2. split; [exact Hset|]. split; [exact Hget|].
    split; [exact Hsetl|exact Hgetl].
Defined.

Lemma CanShrink_allows_DecrGlobalDepth_witness :
  HashTable.dir_CanShrink directory_1_2_3 = Ok false.
Proof.
  destruct (CanShrink_allows_DecrGlobalDepth directory_1_2_3
              (proj1 directory_1_2_3_wf)) as (b & Hrun & _).
  destruct b; [|exact Hrun].
  vm_compute in Hrun. discriminate.
Defined.

Lemma IncrGlobalDepth_then_DecrGlobalDepth_witness :
  ∃ d1 d2,
    HashTable.dir_IncrGlobalDepth directory_1_2_3 = Ok d1 ∧
    HashTable.dir_CanShrink d1 = Ok true ∧
    HashTable.dir_DecrGlobalDepth d1 = Ok d2 ∧
    HashTable.global_depth_ d2 = 1.
Proof.
  destruct (IncrGlobalDepth_then_DecrGlobalDepth directory_1_2_3
              directory_1_2_3_wf)
    as (d1 & d2 & Hinc & _ & _ & Hcan & Hdec & _ & Hgd & _).
  - simpl; lia.
  - exists d1, d2. split; [exact Hinc|]. split; [exact Hcan|].
    split; [exact Hdec|exact Hgd].
Defined.

Lemma merge_update_combined_group_witness :
  ∃ d',
    HashTable.merge_update 3 1 (Z.shiftl 1 (1 - 1)) 3 directory_1_2_3 = Ok d' ∧
    HashTable.in_combined_group 1 1 0 ∧
    HashTable.slot d' 0 = HashTable.slot directory_1_2_3 0.
Proof.
  destruct (merge_update_combined_group directory_1_2_3 3 1 1 3 3)
    as (d' & Hrun & _ & Hset).
  - exact (proj1 directory_1_2_3_wf).
  - simpl; lia.
  - vm_compute; reflexivity.
  - vm_compute; reflexivity.
  - simpl; lia.
  - destruct Hset as (_ & Hin & Hslot); [vm_compute; reflexivity|].
    exists d'. split; [exact Hrun|]. split; [exact Hin|exact Hslot].
Defined.

Lemma Insert_split_keeps_directory_wf_witness :
  ∃ d1 d2,
    HashTable.dir_IncrGlobalDepth directory_1_2_3 = Ok d1 ∧
    HashTable.split_update 1 1 (Z.shiftl 1 1) 4 d1 = Ok d2 ∧
    HashTable.dir_wf d2.
Proof.
  destruct (Insert_split_keeps_directory_wf directory_1_2_3 1 1 1 3 4)
    as (d1 & d2 & Hgrow & _ & Hsplit & Hwf).
  - exact directory_1_2_3_wf.
  - vm_compute; reflexivity.
  - vm_compute; reflexivity.
  - intros _. vm_compute; reflexivity.
  - exists d1, d2. split; [exact Hgrow|]. split; [exact Hsplit|exact Hwf].
Defined.

Lemma pool_1_2_3_resident :
  resident pool_1_2_3 0 0 (HashTable.Header header_1_2_3) ∧
  resident pool_1_2_3 1 1 (HashTable.Directory directory_1_2_3) ∧
  resident pool_1_2_3 2 2 (HashTable.Bucket (HashTable.mkBucket 2 [(2, 2)])).
Proof.
  repeat split; try (vm_compute; reflexivity); lia.
Qed.

Lemma GetValue_reads_the_bucket_witness :
  ∃ s', Scenario.GetValue table_1_2_3 2 pool_1_2_3 = Ok ((true, [2]), s') ∧
        same_pages pool_1_2_3 s'.
Proof.
  destruct pool_1_2_3_resident as (Hh & Hd & Hb).
  destruct (GetValue_reads_the_bucket int_cmp id_hash 512 512
              table_1_2_3 pool_1_2_3 0 1 header_1_2_3 2 Hh)
    as [_ Hdir]; [vm_compute; reflexivity|].
  destruct (Hdir ltac:(discriminate) 1 0 2 directory_1_2_3 Hd)
    as [_ Hbucket]; [vm_compute; reflexivity|vm_compute; reflexivity|].
  exact (Hbucket ltac:(discriminate) 2 (HashTable.mkBucket 2 [(2, 2)]) Hb).
Defined.

Lemma Remove_missing_key_changes_nothing_witness :
  ∃ s', Scenario.Remove table_1_2_3 4 pool_1_2_3 = Ok (false, s') ∧
        same_pages pool_1_2_3 s'.
Proof.
  destruct pool_1_2_3_resident as (Hh & Hd & Hb).
  apply (Remove_missing_key_changes_nothing int_cmp id_hash 512 512
           table_1_2_3 pool_1_2_3 0 1 1 0 2 2
           header_1_2_3 directory_1_2_3 (HashTable.mkBucket 2 [(2, 2)]) 4).
  - exact Hh.
  - vm_compute; reflexivity.
  - discriminate.
  - exact Hd.
  - vm_compute; reflexivity.
  - vm_compute; reflexivity.
  - discriminate.
  - exact Hb.
  - vm_compute; reflexivity.
Defined.


Lemma Insert_then_GetValue_witness :
  ∃ s' s'',
    Scenario.Insert table_1_2_3 4 40 pool_1_2_3 = Ok (true, s') ∧
    Scenario.GetValue table_1_2_3 4 s' = Ok ((true, [40]), s'').
Proof.
  destruct pool_1_2_3_resident as (Hh & Hd & Hb).
  destruct (Insert_then_GetValue int_cmp id_hash 512 512
              table_1_2_3 pool_1_2_3 0 1 1 0 2 2
              header_1_2_3 directory_1_2_3 (HashTable.mkBucket 2 [(2, 2)]) 4 40)
    as (s1 & s' & s'' & _ & Hins & _ & Hget & _).
  - exact Hh.
  - vm_compute; reflexivity.
  - discriminate.
  - exact Hd.
  - vm_compute; reflexivity.
  - vm_compute; reflexivity.
  - discriminate.
  - exact Hb.
  - vm_compute; reflexivity.
  - vm_compute; reflexivity.
  - vm_compute; reflexivity.
  - exists s', s''. split; [exact Hins|exact Hget].
Defined.

Lemma new_table_is_empty_witness :
  ∃ s2,
    Scenario.new_table 0 3 2 pool = Ok (table_1_2_3, s2) ∧
    ∃ s3, Scenario.GetValue table_1_2_3 5 s2 = Ok ((false, []), s3).
Proof.
  assert (∃ s1, NewPage pool = Ok (Some (0, 0), s1)) as [s1 Hnew]
    by (eexists; vm_compute; reflexivity).
  destruct (new_table_is_empty (K:=Z) (V:=Z) int_cmp id_hash 512 512
              pool s1 0 0 (mkPage HashTable.Blank INVALID_PAGE_ID 0 false) 0 3 2
              Hnew)
    as (s2 & Hrun & _ & _ & Hempty).
  - lia.
  - vm_compute; reflexivity.
  - reflexivity.
  - lia.
  - simpl; lia.
  - exists s2. split; [exact Hrun|].
    destruct (Hempty 5) as (s3 & Hget & _). exists s3. exact Hget.
Defined.

Lemma Remove_then_GetValue_witness :
  ∃ s' s'',
    Scenario.Remove table_0_full 0 pool_0_full = Ok (true, s') ∧
    Scenario.GetValue table_0_full 0 s' = Ok ((false, []), s'').
Proof.
  destruct (Remove_then_GetValue int_cmp id_hash 512 512
              table_0_full pool_0_full 0 1 1 0 2 2
              header_1_2_3 directory_0_full (HashTable.mkBucket 1 [(0, 0)]) 0 0)
    as (s1 & s' & s'' & _ & Hrem & _ & Hget & _).
  - exact int_cmp_eq.
  - repeat split; try (vm_compute; reflexivity). lia.
  - vm_compute; reflexivity.
  - discriminate.
  - repeat split; try (vm_compute; reflexivity). lia.
  - vm_compute; reflexivity.
  - vm_compute; reflexivity.
  - discriminate.
  - repeat split; try (vm_compute; reflexivity). lia.
  - simpl. apply (bool_decide_unpack _). vm_compute. exact I.
  - vm_compute; reflexivity.
  - vm_compute; reflexivity.
  - vm_compute; reflexivity.
  - exists s', s''. split; [exact Hrem|exact Hget].
Defined.



End Instances.
